(** * ppdb: the rule trie, its middle-token index and Boyer-Moore search

    A shallow embedding of [ppdb/ppdb.py]: the class [TransformationDict]
    (a trie keyed by tokens, with a secondary index of interior tokens) and
    the list search [search] with its two jump tables; and of the two
    filters of [ppdb/ppdb_pt.py], [remove_comma_and_article] and
    [_is_trivial_paraphrase].

    Python values are modelled as follows.
    - [int] is [Z]; a [list] or [tuple] is a [list]; indexing follows Python
      (a negative index counts from the end, an index out of range raises
      [IndexError]);
    - a [dict] whose iteration order is observed (the trie nodes) is an
      association list in insertion order; a [dict] only read by key is a
      [gmap]; a [set] is a [gset], whose [elements] stands for the
      unspecified iteration order of a Python set;
    - a call that may raise returns a [result]; a [while] loop is a
      fixpoint on fuel, and running out of fuel is the separate outcome
      [OutOfFuel], which the theorems show is never produced;
    - the trie is modelled twice: as a value, a tree of dictionaries, on
      which [add] returns the updated tree; and as objects in a store
      (module [Store]), named by references and updated in place, on
      which a method is a function of the store. The second model is the
      one that can tell a call that reads from a call that writes. *)

From stdpp Require Import base gmap sets list strings list_numbers.

Set Warnings "-register-all".

(** ** Python values and control *)

Module Py.

Inductive exn := IndexError | UnboundLocalError.

Inductive result (A : Type) : Type :=
| Ret (a : A)
| Raise (e : exn)
| OutOfFuel.
Global Arguments Ret {A} a.
Global Arguments Raise {A} e.
Global Arguments OutOfFuel {A}.

Global Instance result_ret : MRet result := λ A a, Ret a.
Global Instance result_bind : MBind result := λ A B f m,
  match m with
  | Ret a => f a
  | Raise e => Raise e
  | OutOfFuel => OutOfFuel
  end.

(** [len(l)] *)
Definition len {A} (l : list A) : Z := Z.of_nat (length l).

(** The position a Python index denotes: negative indices count from the
    end. *)
Definition norm_index {A} (l : list A) (i : Z) : Z :=
  if decide (i < 0)%Z then (i + len l)%Z else i.

(** [l[i]] *)
Definition getitem {A} (l : list A) (i : Z) : result A :=
  let k := norm_index l i in
  if decide (0 ≤ k)%Z then
    match l !! Z.to_nat k with
    | Some x => Ret x
    | None => Raise IndexError
    end
  else Raise IndexError.

(** [l[i] = x] *)
Definition setitem {A} (l : list A) (i : Z) (x : A) : result (list A) :=
  let k := norm_index l i in
  if decide (0 ≤ k < len l)%Z then Ret (<[Z.to_nat k := x]> l)
  else Raise IndexError.

(** [range(a, b)]; [range(n)] is [range 0 n]. *)
Definition range (a b : Z) : list Z := seqZ a (b - a).

End Py.
Import Py.

(** ** Boyer-Moore search (lines 212-284) *)

Module BoyerMoore.
Section search.
Context {A : Type} `{Countable A}.

(** [is_prefix(needle, p)]: the loop over [range(p, len(needle))] with the
    running index [j]. *)
Fixpoint is_prefix_loop (needle : list A) (rng : list Z) (j : Z) : result Z :=
  match rng with
  | [] => Ret 1%Z
  | i :: rng' =>
      a ← getitem needle i;
      b ← getitem needle j;
      if decide (a ≠ b) then Ret 0%Z
      else is_prefix_loop needle rng' (j + 1)%Z
  end.

Definition is_prefix (needle : list A) (p : Z) : result Z :=
  is_prefix_loop needle (range p (len needle)) 0%Z.

(** [suffix_length(needle, p)]: the loop over [reversed(range(p + 1))],
    left by [break] at the first mismatch. *)
Fixpoint suffix_length_loop (needle : list A) (rng : list Z) (length j : Z)
  : result Z :=
  match rng with
  | [] => Ret length
  | i :: rng' =>
      a ← getitem needle i;
      b ← getitem needle j;
      if decide (a = b) then suffix_length_loop needle rng' (length + 1)%Z (j - 1)%Z
      else Ret length
  end.

Definition suffix_length (needle : list A) (p : Z) : result Z :=
  suffix_length_loop needle (reverse (range 0 (p + 1))) 0%Z (len needle - 1)%Z.

(** [make_char_table(needle)] *)
Fixpoint make_char_table_loop (needle : list A) (rng : list Z) (table : gmap A Z)
  : result (gmap A Z) :=
  match rng with
  | [] => Ret table
  | i :: rng' =>
      a ← getitem needle i;
      make_char_table_loop needle rng' (<[a := (len needle - 1 - i)%Z]> table)
  end.

Definition make_char_table (needle : list A) : result (gmap A Z) :=
  make_char_table_loop needle (range 0 (len needle - 1)) ∅.

(** [make_offset_table(needle)]: the first loop appends one entry per
    position, from the last position down; the second overwrites the
    entry at [suffix_length(needle, i)]. *)
Fixpoint offset_table_fill (needle : list A) (rng : list Z)
    (table : list Z) (last_prefix_position : Z) : result (list Z) :=
  match rng with
  | [] => Ret table
  | i :: rng' =>
      r ← is_prefix needle (i + 1)%Z;
      let last_prefix_position :=
        if decide (r ≠ 0%Z) then (i + 1)%Z else last_prefix_position in
      offset_table_fill needle rng'
        (table ++ [(last_prefix_position - i + len needle - 1)%Z])
        last_prefix_position
  end.

Fixpoint offset_table_overlay (needle : list A) (rng : list Z) (table : list Z)
  : result (list Z) :=
  match rng with
  | [] => Ret table
  | i :: rng' =>
      slen ← suffix_length needle i;
      table' ← setitem table slen (len needle - 1 - i + slen)%Z;
      offset_table_overlay needle rng' table'
  end.

Definition make_offset_table (needle : list A) : result (list Z) :=
  table ← offset_table_fill needle (reverse (range 0 (len needle))) [] (len needle);
  offset_table_overlay needle (range 0 (len needle - 1)) table.

(** The inner [while needle[j] == haystack[i]] of [search]: [inr i] is
    the [return i] taken at [j == 0], [inl (i, j)] the values of [i] and
    [j] when the loop condition fails. *)
Fixpoint scan (fuel : nat) (haystack needle : list A) (i j : Z)
  : result (Z * Z + Z) :=
  match fuel with
  | O => OutOfFuel
  | S fuel' =>
      a ← getitem needle j;
      b ← getitem haystack i;
      if decide (a = b) then
        if decide (j = 0%Z) then Ret (inr i)
        else scan fuel' haystack needle (i - 1)%Z (j - 1)%Z
      else Ret (inl (i, j))
  end.

(** The outer [while i < len(haystack)]. *)
Fixpoint search_loop (fuel : nat) (haystack needle : list A)
    (char_table : gmap A Z) (offset_table : list Z) (i : Z) : result Z :=
  match fuel with
  | O => OutOfFuel
  | S fuel' =>
      if decide (i < len haystack)%Z then
        r ← scan fuel haystack needle i (len needle - 1)%Z;
        match r with
        | inr found => Ret found
        | inl (i', j') =>
            o ← getitem offset_table (len needle - 1 - j')%Z;
            c ← getitem haystack i';
            search_loop fuel' haystack needle char_table offset_table
              (i' + Z.max o (default (-1)%Z (char_table !! c)))%Z
        end
      else Ret (-1)%Z
  end.

(** [search(haystack, needle)], both loops bounded by [fuel]. *)
Definition search_fuel (fuel : nat) (haystack needle : list A) : result Z :=
  if decide (len needle = 0%Z) then Ret 0%Z
  else
    char_table ← make_char_table needle;
    offset_table ← make_offset_table needle;
    search_loop fuel haystack needle char_table offset_table (len needle - 1)%Z.

Definition search (haystack needle : list A) : result Z :=
  search_fuel (S (length haystack + length needle)) haystack needle.

(** *** Reading the model *)

(** [needle] occurs in [haystack] at position [s], as a contiguous
    subsequence. *)
Definition occurs_at (haystack needle : list A) (s : nat) : Prop :=
  take (length needle) (drop s haystack) = needle.

(** [r] is the answer expected of a search: the position of the leftmost
    occurrence, or [-1] when there is none. *)
Definition leftmost_occurrence (haystack needle : list A) (r : Z) : Prop :=
  (r = (-1)%Z ∧ ∀ s, ¬ occurs_at haystack needle s) ∨
  ((0 ≤ r)%Z ∧ occurs_at haystack needle (Z.to_nat r) ∧
   ∀ s, s < Z.to_nat r → ¬ occurs_at haystack needle s).

(** [needle[p:]] is a prefix of [needle]. *)
Definition prefix_at (needle : list A) (p : nat) : Prop :=
  ∀ k, p + k < length needle → needle !! (p + k) = needle !! k.

(** [s] symbols ending at position [p] agree with the last [s] symbols of
    [needle], and no more do. *)
Definition suffix_run (needle : list A) (p s : nat) : Prop :=
  s ≤ S p ∧
  (∀ k, k < s → needle !! (p - k) = needle !! (length needle - 1 - k)) ∧
  (s = S p ∨ needle !! (p - s) ≠ needle !! (length needle - 1 - s)).

(** After [t] symbols of the needle matched from its end and the next one
    did not, an occurrence [d] positions to the right needs the needle to
    agree with itself at distance [d] on the matched part, and to differ
    there at the symbol that did not match. *)
Definition compatible (needle : list A) (t d : nat) : Prop :=
  (∀ k, k < t → k + d ≤ length needle - 1 →
        needle !! (length needle - 1 - k - d) = needle !! (length needle - 1 - k)) ∧
  (t + d ≤ length needle - 1 →
   needle !! (length needle - 1 - t - d) ≠ needle !! (length needle - 1 - t)).

(** Moving the needle [d] positions to the right skips no occurrence. *)
Definition safe_shift (needle : list A) (t d : nat) : Prop :=
  1 ≤ d ∧ ∀ d', 1 ≤ d' < d → ¬ compatible needle t d'.

(** [L] is the first position from [q] on at which a suffix of [needle]
    that is also a prefix starts (the whole length counts: the empty
    suffix). *)
Definition first_prefix (needle : list A) (q L : nat) : Prop :=
  q ≤ L ≤ length needle ∧ prefix_at needle L ∧
  ∀ p, q ≤ p < L → ¬ prefix_at needle p.

(** What the entry [t] of the offset table holds once the second loop of
    [make_offset_table] has treated the positions below [i0]: the value
    written for the last position whose run has length [t], or else the
    value of the first loop. *)
Definition overlay_entry (needle : list A) (i0 t : nat) (v : Z) : Prop :=
  (∃ i, i < i0 ∧ suffix_run needle i t ∧
        v = Z.of_nat (length needle - 1 - i + t) ∧
        ∀ i', i < i' < i0 → ¬ suffix_run needle i' t) ∨
  ((∀ i, i < i0 → ¬ suffix_run needle i t) ∧
   ∃ L, v = Z.of_nat (t + L) ∧ first_prefix needle (length needle - t) L).

(** The entry of the character table for [c]: the distance from the last
    position of [c] below [i0] to the end of the needle. *)
Definition last_before (needle : list A) (i0 : nat) (c : A) (v : Z) : Prop :=
  ∃ k, k < i0 ∧ needle !! k = Some c ∧ v = Z.of_nat (length needle - 1 - k) ∧
       ∀ k', k < k' < i0 → needle !! k' ≠ Some c.

(** What the comparison from the end of the needle has found, when the
    needle ends at position [e] of the haystack: [t] symbols agree. *)
Definition matched (haystack needle : list A) (e t : nat) : Prop :=
  ∀ k, k < t → haystack !! (e - k) = needle !! (length needle - 1 - k).

End search.
End BoyerMoore.

Import BoyerMoore.

(** A Python [str] as the sequence of its characters. *)
Definition chars (s : string) : list Ascii.ascii := String.list_ascii_of_string s.

(** ** The rule trie (lines 16-144) *)

Module Trie.

(** A rule set is a Python [set] of right-hand sides (tuples of tokens);
    the index maps a token to a [set] of pairs [(before, after)]. *)
Abbreviation RuleSet := (gset (list string)).
Abbreviation Index := (gmap string (gset (list string * list string))).

(** A [TransformationDict] object: its items, each value a pair
    [(rule_set, sub_dict)], and its attribute [index]. The items are
    kept in insertion order, as a Python dictionary iterates them; every
    nested dictionary is a [TransformationDict] with an [index] of its
    own. *)
Inductive TransformationDict : Type :=
| TDict (items : list (string * (RuleSet * TransformationDict))) (index : Index).

Definition items (d : TransformationDict) :=
  match d with TDict its _ => its end.
Definition index (d : TransformationDict) : Index :=
  match d with TDict _ idx => idx end.

(** [TransformationDict()] *)
Definition new_dict : TransformationDict := TDict [] ∅.

(** [dict] primitives on the items: [d.get(token)] (so that
    [token in d] is [is_Some]), and [d[token] = value], which keeps the
    position of a key already present and appends a new one. *)
Fixpoint items_lookup (its : list (string * (RuleSet * TransformationDict)))
    (token : string) : option (RuleSet * TransformationDict) :=
  match its with
  | [] => None
  | (k, v) :: its' => if decide (k = token) then Some v else items_lookup its' token
  end.

Fixpoint items_store (its : list (string * (RuleSet * TransformationDict)))
    (token : string) (v : RuleSet * TransformationDict)
  : list (string * (RuleSet * TransformationDict)) :=
  match its with
  | [] => [(token, v)]
  | (k, w) :: its' =>
      if decide (k = token) then (k, v) :: its'
      else (k, w) :: items_store its' token v
  end.

Definition dict_lookup (d : TransformationDict) (token : string) :=
  items_lookup (items d) token.
Definition dict_store (d : TransformationDict) (token : string)
    (v : RuleSet * TransformationDict) : TransformationDict :=
  TDict (items_store (items d) token v) (index d).

(** *** [add] (lines 35-68) *)

(** [self.index[token].add((before, after))], creating the set first
    when [token not in self.index]. *)
Definition index_record (idx : Index) (token : string)
    (pair : list string * list string) : Index :=
  <[token := default ∅ (idx !! token) ∪ {[pair]}]> idx.

(** The loop [for i, token in enumerate(lhs)]. The cursor [d] walks down
    the trie and the objects on its way are updated in place; here the
    loop returns the updated dictionary that [d] pointed to, together
    with [self.index]. [rule_set.add(rhs)], which follows the loop, acts
    on the rule set of the last token. *)
Fixpoint add_loop (lhs rhs : list string) (i : Z) (tokens : list string)
    (d : TransformationDict) (idx : Index) : TransformationDict * Index :=
  match tokens with
  | [] => (d, idx)
  | token :: tokens' =>
      let '(rule_set, sub) :=
        match dict_lookup d token with
        | Some v => v
        | None => (∅, new_dict)
        end in
      let idx :=
        if decide (0 < i < len lhs - 1)%Z
        then index_record idx token
               (take (Z.to_nat i) lhs, drop (Z.to_nat (i + 1)) lhs)
        else idx in
      let '(sub, idx) := add_loop lhs rhs (i + 1)%Z tokens' sub idx in
      let rule_set :=
        match tokens' with
        | [] => rule_set ∪ {[rhs]}
        | _ => rule_set
        end in
      (dict_store d token (rule_set, sub), idx)
  end.

Definition add (self : TransformationDict) (lhs rhs : list string)
  : TransformationDict :=
  if decide (len lhs = 0%Z) then self
  else
    let '(d, idx) := add_loop lhs rhs 0%Z lhs self (index self) in
    TDict (items d) idx.

(** *** [__getitem__], [get_rhs], [get_subdict] (lines 116-144) *)

(** The argument of [__getitem__]: one token (a string) or a sequence
    of tokens. *)
Inductive key := KToken (token : string) | KSeq (lhs : list string).

(** The branch for a string: [super().__getitem__(lhs)] when present. *)
Definition getitem_token (self : TransformationDict) (lhs : string)
  : result (RuleSet * TransformationDict) :=
  match dict_lookup self lhs with
  | Some v => Ret v
  | None => Ret (∅, new_dict)
  end.

(** The loop [for token in lhs]; the local [rule_set] is unbound until
    the first iteration has assigned it. *)
Fixpoint getitem_loop (d : TransformationDict) (rule_set : option RuleSet)
    (lhs : list string) : result (RuleSet * TransformationDict) :=
  match lhs with
  | [] =>
      match rule_set with
      | Some rs => Ret (rs, d)
      | None => Raise UnboundLocalError
      end
  | token :: lhs' =>
      match dict_lookup d token with
      | None => Ret (∅, new_dict)
      | Some _ =>
          '(rs, d') ← getitem_token d token;
          getitem_loop d' (Some rs) lhs'
      end
  end.

Definition __getitem__ (self : TransformationDict) (lhs : key)
  : result (RuleSet * TransformationDict) :=
  match lhs with
  | KToken token => getitem_token self token
  | KSeq lhs => getitem_loop self None lhs
  end.

Definition get_rhs (self : TransformationDict) (lhs : key) : result RuleSet :=
  p ← __getitem__ self lhs; Ret p.1.

Definition get_subdict (self : TransformationDict) (lhs : key)
  : result TransformationDict :=
  p ← __getitem__ self lhs; Ret p.2.

(** *** [find_partial_expression] (lines 70-114) *)

(** The local function [find_all_paths]. Keys of a dictionary are
    distinct, so [d[key][1]] is the sub-dictionary stored with [key]. *)
Fixpoint find_all_paths (d : TransformationDict) : list (list string) :=
  match d with
  | TDict its _ =>
      (fix over_keys (its : list (string * (RuleSet * TransformationDict)))
         : list (list string) :=
         match its with
         | [] => []
         | (key, (_, sub)) :: its' =>
             let paths_under_key := cons key <$> find_all_paths sub in
             let paths_under_key :=
               if decide (len paths_under_key = 0%Z) then [[key]]
               else paths_under_key in
             paths_under_key ++ over_keys its'
         end) its
  end.

(** [for token in sought_lhs_tail: d = d[token][1]] *)
Fixpoint descend (d : TransformationDict) (tokens : list string)
  : result TransformationDict :=
  match tokens with
  | [] => Ret d
  | token :: tokens' =>
      '(_, d') ← __getitem__ d (KToken token);
      descend d' tokens'
  end.

(** The loop [for lhs_head in lhs_heads]. *)
Fixpoint contexts_loop (self : TransformationDict) (first_token : string)
    (sought_lhs_tail : list string) (lhs_heads : list (list string))
    (contexts : list (list string * list string))
  : result (list (list string * list string)) :=
  match lhs_heads with
  | [] => Ret contexts
  | lhs_head :: lhs_heads' =>
      '(_, d0) ← __getitem__ self (KSeq lhs_head);
      '(_, d1) ← __getitem__ d0 (KToken first_token);
      d ← descend d1 sought_lhs_tail;
      let contexts_after := find_all_paths d in
      contexts_loop self first_token sought_lhs_tail lhs_heads'
        (contexts ++ (pair lhs_head <$> contexts_after))
  end.

(** The heads kept by the list comprehension over
    [self.index[first_token]]. *)
Definition lhs_heads_of (entries : gset (list string * list string))
    (sought_lhs_tail : list string) : list (list string) :=
  fst <$> filter
    (λ ht, take (Z.to_nat (len sought_lhs_tail + 1)) ht.2 = sought_lhs_tail)
    (elements entries).

Definition find_partial_expression (self : TransformationDict)
    (partial : list string) : result (list (list string * list string)) :=
  first_token ← Py.getitem partial 0%Z;
  match index self !! first_token with
  | None => Ret []
  | Some entries =>
      let sought_lhs_tail := drop 1 partial in
      let lhs_heads := lhs_heads_of entries sought_lhs_tail in
      contexts_loop self first_token sought_lhs_tail lhs_heads []
  end.

(** *** Reading the model *)

(** What one key contributes to [find_all_paths]: the paths below it with
    the key in front, or the key alone when there is none. *)
Definition paths_under (key : string) (sub_paths : list (list string))
  : list (list string) :=
  if decide (len (cons key <$> sub_paths) = 0%Z) then [[key]]
  else cons key <$> sub_paths.

(** The entries recorded under a token: [self.index[token]], empty when
    the token is no key of the index. *)
Definition index_entries (self : TransformationDict) (token : string)
  : gset (list string * list string) :=
  default ∅ (index self !! token).

(** The dictionary built by a loader: [add] called once per rule, in
    order, on a new [TransformationDict]. *)
Definition build (rules : list (list string * list string)) : TransformationDict :=
  foldl (λ self rule, add self rule.1 rule.2) new_dict rules.

(** The sub-dictionary reached from [d] along [path], a new dictionary
    when some token is absent: [d[t1][1][t2][1]...]. *)
Fixpoint subdict_at (d : TransformationDict) (path : list string)
  : TransformationDict :=
  match path with
  | [] => d
  | token :: path' =>
      match dict_lookup d token with
      | Some (_, sub) => subdict_at sub path'
      | None => new_dict
      end
  end.

(** [leaf_path d p]: [p] is a non-empty sequence of keys leading from
    [d] down to a dictionary without keys. *)
Inductive leaf_path : TransformationDict → list string → Prop :=
| leaf_path_last d key rs sub :
    (key, (rs, sub)) ∈ items d → items sub = [] → leaf_path d [key]
| leaf_path_step d key rs sub p :
    (key, (rs, sub)) ∈ items d → leaf_path sub p → leaf_path d (key :: p).

(** Keys are distinct in every dictionary of the trie, as they are in a
    Python [dict]. *)
Inductive distinct_keys : TransformationDict → Prop :=
| distinct_keys_intro its idx :
    NoDup its.*1 →
    Forall (λ e, distinct_keys e.2.2) its →
    distinct_keys (TDict its idx).

(** [has_path d path]: every token of [path] is a key on the way down
    from [d]. *)
Fixpoint has_path (d : TransformationDict) (path : list string) : Prop :=
  match path with
  | [] => True
  | token :: path' =>
      match dict_lookup d token with
      | Some (_, sub) => has_path sub path'
      | None => False
      end
  end.

End Trie.

Import Trie.

(** ** The objects of the trie in a store *)

(** [add] updates objects in place, and the lookups hand out references
    to the sets and dictionaries of the trie. Here the objects live in a
    store, a method is a function of the store, and what a call does to
    the objects that it did not create can be read off the store that it
    leaves. *)
Module Store.

(** A reference to an object: its position in the store. *)
Abbreviation addr := nat.

(** The objects of a trie: a [set] of right-hand sides, a [set] of pairs
    of the index, the [dict] held by the attribute [index], and a
    [TransformationDict], whose items map a token to a tuple of two
    references. *)
Inductive object : Type :=
| OSet (rule_set : RuleSet)
| OPairs (pairs : gset (list string * list string))
| OIndex (entries : gmap string addr)
| ODict (items : list (string * (addr * addr))) (index : addr).

(** The store holds the objects in the order of their creation. *)
Abbreviation heap := (list object).

(** How a call ends: it returns, it raises, a loop runs out of fuel, or a
    reference does not name an object of the class that the code expects,
    which cannot happen in Python. *)
Inductive outcome (A : Type) : Type :=
| Returns (a : A)
| Raises (e : exn)
| NoFuel
| NoObject.
Global Arguments Returns {A} a.
Global Arguments Raises {A} e.
Global Arguments NoFuel {A}.
Global Arguments NoObject {A}.

(** A statement acts on the store and has an outcome. *)
Definition M (A : Type) : Type := heap → outcome A * heap.

Global Instance M_ret : MRet M := λ A a h, (Returns a, h).
Global Instance M_bind : MBind M := λ A B f m h,
  match m h with
  | (Returns a, h') => f a h'
  | (Raises e, h') => (Raises e, h')
  | (NoFuel, h') => (NoFuel, h')
  | (NoObject, h') => (NoObject, h')
  end.

Definition raise {A} (e : exn) : M A := λ h, (Raises e, h).
Definition no_fuel {A} : M A := λ h, (NoFuel, h).
Definition no_object {A} : M A := λ h, (NoObject, h).

(** An expression that touches no object. *)
Definition pure {A} (r : result A) : M A := λ h,
  (match r with Ret a => Returns a | Raise e => Raises e | OutOfFuel => NoFuel end, h).

(** Creation of an object, reading of an object, and update of an object
    in place. *)
Definition alloc (o : object) : M addr := λ h, (Returns (length h), h ++ [o]).
Definition read (a : addr) : M object := λ h,
  (match h !! a with Some o => Returns o | None => NoObject end, h).
Definition write (a : addr) (o : object) : M unit := λ h,
  (match h !! a with Some _ => Returns () | None => NoObject end, <[a := o]> h).

Definition read_set (a : addr) : M RuleSet :=
  o ← read a; match o with OSet s => mret s | _ => no_object end.
Definition read_pairs (a : addr) : M (gset (list string * list string)) :=
  o ← read a; match o with OPairs ps => mret ps | _ => no_object end.
Definition read_index (a : addr) : M (gmap string addr) :=
  o ← read a; match o with OIndex m => mret m | _ => no_object end.
Definition read_dict (a : addr) : M (list (string * (addr * addr)) * addr) :=
  o ← read a; match o with ODict its ix => mret (its, ix) | _ => no_object end.

(** [dict] primitives on the items, as in the value model. *)
Fixpoint entry_lookup (its : list (string * (addr * addr))) (token : string)
  : option (addr * addr) :=
  match its with
  | [] => None
  | (k, v) :: its' => if decide (k = token) then Some v else entry_lookup its' token
  end.

Fixpoint entry_store (its : list (string * (addr * addr))) (token : string)
    (v : addr * addr) : list (string * (addr * addr)) :=
  match its with
  | [] => [(token, v)]
  | (k, w) :: its' =>
      if decide (k = token) then (k, v) :: its'
      else (k, w) :: entry_store its' token v
  end.

(** [TransformationDict()]: [__init__] (lines 21-33) gives the new object
    an empty [dict] as its attribute [index]. *)
Definition new_dict : M addr :=
  ix ← alloc (OIndex ∅);
  alloc (ODict [] ix).

(** [return set(), TransformationDict()] *)
Definition empty_pair : M (addr * addr) :=
  rule_set ← alloc (OSet ∅);
  d ← new_dict;
  mret (rule_set, d).

(** [__getitem__] (lines 125-138): the branch for a string. *)
Definition getitem_token (self : addr) (lhs : string) : M (addr * addr) :=
  '(its, _) ← read_dict self;
  match entry_lookup its lhs with
  | Some v => mret v
  | None => empty_pair
  end.

(** The loop [for token in lhs]; [d[token]] is [__getitem__] of a
    string. *)
Fixpoint getitem_loop (d : addr) (rule_set : option addr) (lhs : list string)
  : M (addr * addr) :=
  match lhs with
  | [] =>
      match rule_set with
      | Some rs => mret (rs, d)
      | None => raise UnboundLocalError
      end
  | token :: lhs' =>
      '(its, _) ← read_dict d;
      match entry_lookup its token with
      | None => empty_pair
      | Some _ =>
          '(rs, d') ← getitem_token d token;
          getitem_loop d' (Some rs) lhs'
      end
  end.

Definition __getitem__ (self : addr) (lhs : key) : M (addr * addr) :=
  match lhs with
  | KToken token => getitem_token self token
  | KSeq lhs => getitem_loop self None lhs
  end.

(** [get_rhs] and [get_subdict] return a reference to the set and to the
    dictionary. *)
Definition get_rhs (self : addr) (lhs : key) : M addr :=
  p ← __getitem__ self lhs; mret p.1.

Definition get_subdict (self : addr) (lhs : key) : M addr :=
  p ← __getitem__ self lhs; mret p.2.

(** [add] (lines 35-68). [self.index[token]] is the set found, or the
    set just stored, under the token. *)
Definition index_add (self : addr) (token : string)
    (pair : list string * list string) : M unit :=
  '(_, ix) ← read_dict self;
  entries ← read_index ix;
  pa ← match entries !! token with
       | Some pa => mret pa
       | None =>
           pa ← alloc (OPairs ∅);
           write ix (OIndex (<[token := pa]> entries));;
           mret pa
       end;
  ps ← read_pairs pa;
  write pa (OPairs (ps ∪ {[pair]})).

Fixpoint add_loop (self : addr) (lhs : list string) (i : Z)
    (tokens : list string) (d : addr) (rule_set : option addr)
  : M (option addr) :=
  match tokens with
  | [] => mret rule_set
  | token :: tokens' =>
      '(its, ix) ← read_dict d;
      '(rs, d') ← match entry_lookup its token with
                  | Some _ => getitem_token d token
                  | None =>
                      rs ← alloc (OSet ∅);
                      new_d ← new_dict;
                      write d (ODict (entry_store its token (rs, new_d)) ix);;
                      mret (rs, new_d)
                  end;
      (if decide (0 < i < len lhs - 1)%Z
       then index_add self token
              (take (Z.to_nat i) lhs, drop (Z.to_nat (i + 1)) lhs)
       else mret ());;
      add_loop self lhs (i + 1)%Z tokens' d' (Some rs)
  end.

Definition add (self : addr) (lhs rhs : list string) : M unit :=
  if decide (len lhs = 0%Z) then mret ()
  else
    rule_set ← add_loop self lhs 0%Z lhs self None;
    match rule_set with
    | Some rs => s ← read_set rs; write rs (OSet (s ∪ {[rhs]}))
    | None => raise UnboundLocalError
    end.

(** [find_partial_expression] (lines 70-114). *)

(** The loop [for key in d] of the local function [find_all_paths], over
    the keys of [d]; [d[key]] is [__getitem__] of a string, and
    [find_all_paths] stands for the recursive call. *)
Fixpoint paths_loop (find_all_paths : addr → M (list (list string)))
    (d : addr) (keys : list string) (paths : list (list string))
  : M (list (list string)) :=
  match keys with
  | [] => mret paths
  | key :: keys' =>
      '(_, sub) ← getitem_token d key;
      sub_paths ← find_all_paths sub;
      let paths_under_key := cons key <$> sub_paths in
      let paths_under_key :=
        if decide (len paths_under_key = 0%Z) then [[key]]
        else paths_under_key in
      paths_loop find_all_paths d keys' (paths ++ paths_under_key)
  end.

(** [find_all_paths(d)]; the depth of the recursion is bounded by
    [fuel]. *)
Fixpoint find_all_paths (fuel : nat) (d : addr) : M (list (list string)) :=
  match fuel with
  | O => no_fuel
  | S fuel' =>
      '(its, _) ← read_dict d;
      paths_loop (find_all_paths fuel') d its.*1 []
  end.

(** [for token in sought_lhs_tail: d = d[token][1]] *)
Fixpoint descend (d : addr) (tokens : list string) : M addr :=
  match tokens with
  | [] => mret d
  | token :: tokens' =>
      '(_, d') ← getitem_token d token;
      descend d' tokens'
  end.

(** The loop [for lhs_head in lhs_heads]. *)
Fixpoint contexts_loop (fuel : nat) (self : addr) (first_token : string)
    (sought_lhs_tail : list string) (lhs_heads : list (list string))
    (contexts : list (list string * list string))
  : M (list (list string * list string)) :=
  match lhs_heads with
  | [] => mret contexts
  | lhs_head :: lhs_heads' =>
      '(_, d0) ← __getitem__ self (KSeq lhs_head);
      '(_, d1) ← getitem_token d0 first_token;
      d ← descend d1 sought_lhs_tail;
      contexts_after ← find_all_paths fuel d;
      contexts_loop fuel self first_token sought_lhs_tail lhs_heads'
        (contexts ++ (pair lhs_head <$> contexts_after))
  end.

(** [self.index[first_token]] is the entry that the test
    [first_token not in self.index] has found. *)
Definition find_partial_expression_fuel (fuel : nat) (self : addr)
    (partial : list string) : M (list (list string * list string)) :=
  first_token ← pure (Py.getitem partial 0%Z);
  '(_, ix) ← read_dict self;
  entries ← read_index ix;
  match entries !! first_token with
  | None => mret []
  | Some pa =>
      let sought_lhs_tail := drop 1 partial in
      ps ← read_pairs pa;
      let lhs_heads := lhs_heads_of ps sought_lhs_tail in
      contexts_loop fuel self first_token sought_lhs_tail lhs_heads []
  end.

(** No chain of dictionaries is longer than the store, which gives the
    fuel of [find_all_paths]. *)
Definition find_partial_expression (self : addr) (partial : list string)
  : M (list (list string * list string)) :=
  λ h, find_partial_expression_fuel (S (length h)) self partial h.

(** *** Reading the model *)

(** [m] changes no object of the store: it leaves the store as it finds
    it, but for the objects that it creates. *)
Definition extends {A} (m : M A) : Prop := ∀ h, h `prefix_of` (m h).2.

(** [repr h a d]: in the store [h] the reference [a] names a
    [TransformationDict] whose keys are distinct and whose items, rule
    sets, nested dictionaries and index are those of the value [d]. *)
Inductive repr (h : heap) : addr → TransformationDict → Prop :=
| repr_intro a hits ix entries its idx :
    h !! a = Some (ODict hits ix) →
    h !! ix = Some (OIndex entries) →
    (∀ token,
       match entries !! token with
       | Some pa => ∃ ps, h !! pa = Some (OPairs ps) ∧ idx !! token = Some ps
       | None => idx !! token = None
       end) →
    NoDup hits.*1 →
    Forall2 (λ he e, he.1 = e.1 ∧ h !! he.2.1 = Some (OSet e.2.1) ∧
                     repr h he.2.2 e.2.2) hits its →
    repr h a (TDict its idx).

(** A pair of references names a rule set and a dictionary. *)
Definition pair_repr (h : heap) (p : addr * addr)
    (q : RuleSet * TransformationDict) : Prop :=
  h !! p.1 = Some (OSet q.1) ∧ repr h p.2 q.2.

(** [refines R h m r]: run in the store [h], the statement [m] changes no
    object and ends as the value [r] does, with results related by [R] in
    the final store. *)
Definition refines {A B} (R : heap → A → B → Prop) (h : heap)
    (m : M A) (r : result B) : Prop :=
  match m h, r with
  | (Returns a, h'), Ret b => h `prefix_of` h' ∧ R h' a b
  | (Raises e', h'), Raise e => e' = e ∧ h `prefix_of` h'
  | _, _ => False
  end.

(** The number of dictionaries on the longest way down from [d]. *)
Fixpoint depth (d : TransformationDict) : nat :=
  match d with
  | TDict its _ =>
      S ((fix over_items (its : list (string * (RuleSet * TransformationDict)))
            : nat :=
            match its with
            | [] => 0
            | (_, (_, sub)) :: its' => depth sub `max` over_items its'
            end) its)
  end.
Global Arguments depth : simpl never.

(** The store that [add(("a","b","c"), ("y",))] and
    [add(("a","b"), ("x",))] build on a new object, which is the object
    at position 1. *)
Definition example_store : heap :=
  [ OIndex {[ "b"%string := 8 ]};
    ODict [("a"%string, (2, 4))] 0;
    OSet ∅;
    OIndex ∅;
    ODict [("b"%string, (5, 7))] 3;
    OSet {[ ["x"%string] ]};
    OIndex ∅;
    ODict [("c"%string, (9, 11))] 6;
    OPairs {[ (["a"%string], ["c"%string]) ]};
    OSet {[ ["y"%string] ]};
    OIndex ∅;
    ODict [] 10 ].

End Store.

(** ** The filters for Portuguese ([ppdb/ppdb_pt.py]) *)

(** An expression is a list or tuple of tokens, a token a [str]. The
    tests on the characters of a word compare them with ASCII letters and
    cut only such letters off, so that they read a word encoded in UTF-8
    as they read its code points. *)
Module Portuguese.

(** [articles] (line 69) *)
Definition articles : gset string :=
  {[ "o"; "a"; "os"; "as"; "um"; "uma"; "uns"; "umas" ]}%string.

(** The loop [while expression[0] in articles or expression[0] == ','] of
    [remove_comma_and_article] (lines 82-85): [inl expression] is the
    [return expression] inside the loop, [inr expression] the expression
    when the loop condition fails. *)
Fixpoint strip_leading (fuel : nat) (expression : list string)
  : result (list string + list string) :=
  match fuel with
  | O => OutOfFuel
  | S fuel' =>
      first ← getitem expression 0%Z;
      if decide (first ∈ articles ∨ first = ","%string) then
        let expression := drop 1 expression in
        if decide (len expression = 0%Z) then Ret (inl expression)
        else strip_leading fuel' expression
      else Ret (inr expression)
  end.

(** [remove_comma_and_article(expression)] (lines 72-90); each turn of
    the loop shortens the expression, so that one turn more than its
    length is fuel enough. [expression[:-1]] is the expression without
    its last token. *)
Definition remove_comma_and_article (expression : list string)
  : result (list string) :=
  if decide (len expression = 1%Z) then Ret expression
  else
    r ← strip_leading (S (length expression)) expression;
    match r with
    | inl returned => Ret returned
    | inr expression =>
        last ← getitem expression (-1)%Z;
        if decide (last = ","%string)
        then Ret (take (Z.to_nat (len expression - 1)) expression)
        else Ret expression
    end.

(** A [str] cut at its end: [word[-n:]] and [word[:-n]], for [n > 0]. *)
Definition last_chars (word : string) (n : nat) : string :=
  String.string_of_list_ascii (drop (length (chars word) - n) (chars word)).

Definition without_last_chars (word : string) (n : nat) : string :=
  String.string_of_list_ascii (take (length (chars word) - n) (chars word)).

(** The local function [strip_suffix(word)] (lines 23-30);
    [word[-1] in 'aos'] tests one character against the three of
    ['aos']. *)
Definition strip_suffix (word : string) : result string :=
  if decide (last_chars word 2 = "os"%string ∨ last_chars word 2 = "as"%string)
  then Ret (without_last_chars word 2)
  else
    c ← getitem (chars word) (-1)%Z;
    if decide (c ∈ chars "aos") then Ret (without_last_chars word 1)
    else Ret word.

(** [prepositions] (lines 32-33) *)
Definition prepositions : gset string :=
  {[ "de"; "da"; "do"; "das"; "dos"; "em"; "no"; "na"; "nos"; "nas" ]}%string.

(** The loop [for w1, w2 in zip(exp1, exp2)] (lines 53-64); [and] and
    [or] are evaluated from the left and stop at the first operand that
    decides them, so that [w2[-1]] is read only when [w1[-1] == 'l']. *)
Fixpoint compare_words (pairs : list (string * string)) : result bool :=
  match pairs with
  | [] => Ret true
  | (w1, w2) :: pairs' =>
      w1 ← strip_suffix w1;
      w2 ← strip_suffix w2;
      if decide (len (chars w1) = 0%Z ∨ len (chars w2) = 0%Z) then
        if decide (len (chars w1) = len (chars w2)) then compare_words pairs'
        else Ret false
      else if decide (w1 ≠ w2) then
        c1 ← getitem (chars w1) (-1)%Z;
        if decide ([c1] = chars "l") then
          c2 ← getitem (chars w2) (-1)%Z;
          if decide ([c2] = chars "i") then
            if decide (without_last_chars w1 1 = without_last_chars w2 1)
            then compare_words pairs'
            else Ret false
          else Ret false
        else Ret false
      else compare_words pairs'
  end.

(** [_is_trivial_paraphrase(exp1, exp2)] (lines 13-66), for two tuples
    of tokens. *)
Definition _is_trivial_paraphrase (exp1 exp2 : list string) : result bool :=
  first1 ← getitem exp1 0%Z;
  let exp1 := if decide (first1 ∈ prepositions) then drop 1 exp1 else exp1 in
  first2 ← getitem exp2 0%Z;
  let exp2 := if decide (first2 ∈ prepositions) then drop 1 exp2 else exp2 in
  if decide (len exp1 = 0%Z ∨ len exp2 = 0%Z) then Ret true
  else
    last1 ← getitem exp1 (-1)%Z;
    let exp1 :=
      if decide (last1 ∈ prepositions)
      then take (Z.to_nat (len exp1 - 1)) exp1 else exp1 in
    last2 ← getitem exp2 (-1)%Z;
    let exp2 :=
      if decide (last2 ∈ prepositions)
      then take (Z.to_nat (len exp2 - 1)) exp2 else exp2 in
    if decide (len exp1 ≠ len exp2) then Ret false
    else if decide (exp1 = [","%string] ∨ exp2 = [","%string]) then Ret true
    else compare_words (zip exp1 exp2).

(** *** Reading the model *)

(** The tokens that [remove_comma_and_article] removes at the head of an
    expression. *)
Definition stop_word (token : string) : Prop :=
  token ∈ articles ∨ token = ","%string.

(** What the two tests on prepositions leave of an expression. *)
Definition strip_first (exp : list string) (first : string) : list string :=
  if decide (first ∈ prepositions) then drop 1 exp else exp.

Definition strip_last (exp : list string) (last : string) : list string :=
  if decide (last ∈ prepositions) then take (Z.to_nat (len exp - 1)) exp else exp.

(** The endings of gender and number. *)
Definition endings : list string := ["o"; "a"; "os"; "as"]%string.

End Portuguese.

Import Portuguese.

(** * Properties of the Python primitives *)

Lemma getitem_Ret {A} (l : list A) (i : nat) (x : A) :
  l !! i = Some x → Py.getitem l (Z.of_nat i) = Ret x.
Proof.
  intros Hlk. unfold Py.getitem, norm_index.
  destruct (decide (Z.of_nat i < 0)%Z); [lia|].
  destruct (decide (0 ≤ Z.of_nat i)%Z); [|lia].
  by rewrite Nat2Z.id, Hlk.
Qed.

Lemma getitem_lt {A} (l : list A) (i : nat) :
  i < length l → ∃ x, l !! i = Some x ∧ Py.getitem l (Z.of_nat i) = Ret x.
Proof.
  intros Hlt. destruct (lookup_lt_is_Some_2 l i Hlt) as [x Hx].
  exists x. split; [done|]. by apply getitem_Ret.
Qed.

Lemma setitem_lt {A} (l : list A) (i : nat) (x : A) :
  i < length l → setitem l (Z.of_nat i) x = Ret (<[i := x]> l).
Proof.
  intros Hlt. unfold setitem, norm_index, len.
  destruct (decide (Z.of_nat i < 0)%Z); [lia|].
  destruct (decide (0 ≤ Z.of_nat i < Z.of_nat (length l))%Z); [|lia].
  by rewrite Nat2Z.id.
Qed.

Lemma range_nil (a b : Z) : (b ≤ a)%Z → range a b = [].
Proof. intros. unfold range. apply seqZ_nil. lia. Qed.

Lemma range_cons (a b : Z) : (a < b)%Z → range a b = a :: range (a + 1) b.
Proof.
  intros. unfold range. rewrite seqZ_cons by lia. do 2 f_equal; lia.
Qed.

Lemma reverse_range_S (k : nat) :
  reverse (range 0 (Z.of_nat (S k))) = Z.of_nat k :: reverse (range 0 (Z.of_nat k)).
Proof.
  unfold range. rewrite !Z.sub_0_r, seqZ_S, reverse_app. done.
Qed.

(** * Properties of the search *)

Section search_facts.
Context {A : Type} `{Countable A}.
Implicit Types (needle haystack : list A).

Lemma is_prefix_loop_spec needle (cnt : nat) :
  ∀ a j : nat,
    a + cnt = length needle → j ≤ a →
    ∃ r, is_prefix_loop needle (seqZ (Z.of_nat a) (Z.of_nat cnt)) (Z.of_nat j) = Ret r ∧
         (r ≠ 0%Z ↔ ∀ k, k < cnt → needle !! (a + k) = needle !! (j + k)).
Proof.
  induction cnt as [|cnt IH]; intros a j Ha Hj.
  - exists 1%Z. split; [done|]. split; [intros _ k; lia|done].
  - rewrite seqZ_cons by lia. cbn [is_prefix_loop].
    destruct (getitem_lt needle a) as (x & Hx & ->); [lia|].
    destruct (getitem_lt needle j) as (y & Hy & ->); [lia|].
    simpl. case_decide as Hxy.
    + exists 0%Z. split; [done|]. split; [done|]. intros Hall.
      specialize (Hall 0). rewrite !Nat.add_0_r in Hall. 
      exfalso. apply Hxy. specialize (Hall ltac:(lia)). congruence.
    + replace (Z.succ (Z.of_nat a)) with (Z.of_nat (S a)) by lia.
      replace (Z.pred (Z.of_nat (S cnt))) with (Z.of_nat cnt) by lia.
      replace (Z.of_nat j + 1)%Z with (Z.of_nat (S j)) by lia.
      destruct (IH (S a) (S j)) as (r & -> & Hr); [lia..|].
      exists r. split; [done|]. rewrite Hr. split.
      * intros Hall [|k] Hk.
        -- rewrite !Nat.add_0_r. congruence.
        -- specialize (Hall k ltac:(lia)).
           by replace (a + S k) with (S a + k) by lia;
              replace (j + S k) with (S j + k) by lia.
      * intros Hall k Hk. specialize (Hall (S k) ltac:(lia)).
        by replace (a + S k) with (S a + k) in Hall by lia;
           replace (j + S k) with (S j + k) in Hall by lia.
Qed.

Lemma is_prefix_spec needle (p : nat) :
  p ≤ length needle →
  ∃ r, is_prefix needle (Z.of_nat p) = Ret r ∧ (r ≠ 0%Z ↔ prefix_at needle p).
Proof.
  intros Hp. unfold is_prefix, range, len.
  replace (Z.of_nat (length needle) - Z.of_nat p)%Z
    with (Z.of_nat (length needle - p)) by lia.
  destruct (is_prefix_loop_spec needle (length needle - p) p 0)
    as (r & Hr & Hiff); [lia..|].
  exists r. split; [done|]. rewrite Hiff. unfold prefix_at. split.
  - intros Hall k Hk. apply Hall. lia.
  - intros Hall k Hk. apply Hall. lia.
Qed.

Lemma suffix_length_loop_spec needle (p : nat) (c : nat) :
  ∀ (l : nat) (j : Z),
    p < length needle → c + l = S p →
    (c ≠ 0 → j = Z.of_nat (length needle - 1 - l)) →
    (∀ k, k < l → needle !! (p - k) = needle !! (length needle - 1 - k)) →
    ∃ s : nat,
      suffix_length_loop needle (reverse (range 0 (Z.of_nat c))) (Z.of_nat l) j
        = Ret (Z.of_nat s) ∧
      suffix_run needle p s.
Proof.
  induction c as [|c IH]; intros l j Hp Hc Hj Hrun.
  - exists l. split; [done|]. split_and!; [lia|done|left; lia].
  - rewrite reverse_range_S. cbn [suffix_length_loop]. rewrite Hj by done.
    destruct (getitem_lt needle c) as (x & Hx & ->); [lia|].
    destruct (getitem_lt needle (length needle - 1 - l)) as (y & Hy & ->); [lia|].
    simpl. case_decide as Hxy.
    + replace (Z.of_nat l + 1)%Z with (Z.of_nat (S l)) by lia.
      apply IH; [done|lia|lia|]. intros k Hk.
      destruct (decide (k = l)) as [->|Hne]; [|apply Hrun; lia].
      replace (p - l) with c by lia. congruence.
    + exists l. split; [done|]. split_and!; [lia|done|]. right.
      replace (p - l) with c by lia. congruence.
Qed.

Lemma suffix_length_spec needle (p : nat) :
  p < length needle →
  ∃ s : nat, suffix_length needle (Z.of_nat p) = Ret (Z.of_nat s) ∧ suffix_run needle p s.
Proof.
  intros Hp. unfold suffix_length, len.
  replace (Z.of_nat p + 1)%Z with (Z.of_nat (S p)) by lia.
  apply (suffix_length_loop_spec needle p (S p) 0); [done|lia|lia|].
  intros k Hk. lia.
Qed.

(** The run of agreeing symbols is determined by the position. *)
Lemma suffix_run_unique needle p s s' :
  p < length needle → suffix_run needle p s → suffix_run needle p s' → s = s'.
Proof.
  intros Hp (Hle & Hrun & Hend) (Hle' & Hrun' & Hend').
  destruct (decide (s = s')) as [|Hne]; [done|]. exfalso.
  destruct (decide (s < s')) as [Hlt|Hge].
  - destruct Hend as [->|Hend]; [lia|]. apply Hend, Hrun'. lia.
  - destruct Hend' as [->|Hend']; [lia|]. apply Hend', Hrun. lia.
Qed.

(** ** The offset table *)

Lemma offset_table_fill_spec needle (c : nat) :
  ∀ (table : list Z) (lpp : nat),
    c ≤ length needle →
    length table = length needle - c →
    (c = length needle ∧ lpp = length needle) ∨ first_prefix needle (S c) lpp →
    (∀ t, t < length needle - c →
          ∃ L, table !! t = Some (Z.of_nat (t + L)) ∧
               first_prefix needle (length needle - t) L) →
    ∃ table',
      offset_table_fill needle (reverse (range 0 (Z.of_nat c))) table (Z.of_nat lpp)
        = Ret table' ∧
      length table' = length needle ∧
      ∀ t, t < length needle →
           ∃ L, table' !! t = Some (Z.of_nat (t + L)) ∧
                first_prefix needle (length needle - t) L.
Proof.
  induction c as [|c IH]; intros table lpp Hc Hlen Hlpp Htable.
  - exists table. split; [done|]. split; [lia|].
    intros t Ht. apply Htable. lia.
  - rewrite reverse_range_S. cbn [offset_table_fill].
    replace (Z.of_nat c + 1)%Z with (Z.of_nat (S c)) by lia.
    destruct (is_prefix_spec needle (S c)) as (r & -> & Hr); [lia|]. simpl.
    set (lpp' := if decide (r ≠ 0%Z) then S c else lpp).
    assert (first_prefix needle (S c) lpp') as Hlpp'.
    { unfold lpp'. case_decide as Hr0.
      - apply Hr in Hr0. split_and!; [lia|lia|done|]. intros p Hp. lia.
      - destruct Hlpp as [[Hfirst Hm]|(Hle & Hpre & Hmin)].
        + assert (r ≠ 0%Z) by (apply Hr; intros k Hk; lia). done.
        + split_and!; [lia|lia|done|]. intros p Hp.
          destruct (decide (p = S c)) as [->|Hne].
          * intros Hp'. by apply Hr in Hp'.
          * apply Hmin. lia. }
    replace (if decide (r ≠ 0%Z) then Z.of_nat (S c) else Z.of_nat lpp)
      with (Z.of_nat lpp') by (unfold lpp'; by case_decide).
    apply IH.
    + lia.
    + rewrite length_app. simpl. lia.
    + by right.
    + intros t Ht. destruct (decide (t < length table)) as [Hlt|Hge].
      * rewrite lookup_app_l by done. apply Htable. lia.
      * assert (t = length table) as -> by lia.
        exists lpp'. split.
        -- rewrite lookup_app_r by lia. rewrite Nat.sub_diag. simpl.
           f_equal. unfold len. destruct Hlpp' as [? _]. lia.
        -- by replace (length needle - length table) with (S c) by lia.
Qed.

Lemma offset_table_overlay_spec needle (c : nat) :
  ∀ (i0 : nat) (table : list Z),
    i0 + c = length needle - 1 →
    length table = length needle →
    (∀ t, t < length needle → ∃ v, table !! t = Some v ∧ overlay_entry needle i0 t v) →
    ∃ table',
      offset_table_overlay needle
        (range (Z.of_nat i0) (Z.of_nat (length needle) - 1)) table = Ret table' ∧
      length table' = length needle ∧
      ∀ t, t < length needle →
           ∃ v, table' !! t = Some v ∧
                overlay_entry needle (length needle - 1) t v.
Proof.
  induction c as [|c IH]; intros i0 table Hi0 Hlen Htable.
  - rewrite range_nil by lia. exists table. split; [done|]. split; [done|].
    intros t Ht. replace (length needle - 1) with i0 by lia. by apply Htable.
  - rewrite range_cons by lia. cbn [offset_table_overlay].
    destruct (suffix_length_spec needle i0) as (s & -> & Hs); [lia|]. simpl.
    assert (s < length table) as Hslt by (destruct Hs; lia).
    rewrite (setitem_lt _ _ _ Hslt). simpl.
    replace (Z.of_nat i0 + 1)%Z with (Z.of_nat (S i0)) by lia.
    apply IH; [lia|by rewrite length_insert|].
    intros t Ht. destruct (decide (t = s)) as [->|Hne].
    + eexists. split; [by apply list_lookup_insert_eq|].
      left. exists i0. split_and!; [lia|done|unfold len; lia|]. intros i' Hi'. lia.
    + rewrite list_lookup_insert_ne by done.
      destruct (Htable t Ht) as (v & Hv & Hentry). exists v. split; [done|].
      assert (¬ suffix_run needle i0 t) as Hnot.
      { intros Ht'. apply Hne. eapply suffix_run_unique; [|done..]. lia. }
      destruct Hentry as [(i & Hi & Hrun & -> & Hlast)|[Hnone HL]].
      * left. exists i. split_and!; [lia|done..|]. intros i' Hi'.
        destruct (decide (i' = i0)) as [->|?]; [done|]. apply Hlast. lia.
      * right. split; [|done]. intros i Hi.
        destruct (decide (i = i0)) as [->|?]; [done|]. apply Hnone. lia.
Qed.

(** A run of another length at distance [d'] rules out an occurrence
    there. *)
Lemma run_not_compatible needle t d' s' :
  1 ≤ d' → d' ≤ length needle - 1 → t < length needle →
  suffix_run needle (length needle - 1 - d') s' →
  s' ≠ t →
  (s' < t → s' ≠ S (length needle - 1 - d')) →
  ¬ compatible needle t d'.
Proof.
  intros Hd' Hd'm Ht (Hle & Hrun & Hend) Hne Hfull [Hpart Hmis].
  destruct (decide (t < s')) as [Hlt|Hge].
  - apply Hmis; [lia|]. specialize (Hrun t Hlt).
    by replace (length needle - 1 - d' - t) with (length needle - 1 - t - d')
      in Hrun by lia.
  - assert (s' < t) as Hlt by lia. specialize (Hfull Hlt).
    destruct Hend as [?|Hend]; [done|]. apply Hend.
    specialize (Hpart s' Hlt ltac:(lia)).
    by replace (length needle - 1 - s' - d') with (length needle - 1 - d' - s')
      in Hpart by lia.
Qed.

Lemma overlay_entry_safe needle t v :
  t < length needle →
  overlay_entry needle (length needle - 1) t v →
  ∃ d, v = Z.of_nat (t + d) ∧ safe_shift needle t d.
Proof.
  intros Ht [(i & Hi & Hrun & -> & Hlast)|[Hnone (L & -> & HL)]].
  - exists (length needle - 1 - i). split; [f_equal; lia|]. split; [lia|].
    intros d' Hd'.
    destruct (suffix_length_spec needle (length needle - 1 - d'))
      as (s' & _ & Hs'); [lia|].
    apply (run_not_compatible needle t d' s'); [lia..|done| |].
    + intros ->. apply (Hlast (length needle - 1 - d')); [lia|done].
    + destruct Hrun as [? _]. lia.
  - exists L. destruct HL as (HLle & Hpre & Hmin). split; [done|].
    split; [lia|]. intros d' Hd'.
    destruct (suffix_length_spec needle (length needle - 1 - d'))
      as (s' & _ & Hs'); [lia|].
    apply (run_not_compatible needle t d' s'); [lia..|done| |].
    + intros ->. apply (Hnone (length needle - 1 - d')); [lia|done].
    + intros Hlt ->. apply (Hmin d'); [lia|].
      destruct Hs' as (_ & Hrun & _). intros k Hk.
      specialize (Hrun (length needle - 1 - d' - k) ltac:(lia)).
      replace (length needle - 1 - d' - (length needle - 1 - d' - k))
        with k in Hrun by lia.
      replace (length needle - 1 - (length needle - 1 - d' - k))
        with (d' + k) in Hrun by lia.
      done.
Qed.

(** [make_offset_table] returns one shift per number of matched symbols,
    each larger than that number and safe. *)
Lemma make_offset_table_spec needle :
  ∃ table,
    make_offset_table needle = Ret table ∧
    length table = length needle ∧
    ∀ t, t < length needle →
         ∃ d, table !! t = Some (Z.of_nat (t + d)) ∧ safe_shift needle t d.
Proof.
  unfold make_offset_table, len.
  destruct (offset_table_fill_spec needle (length needle) [] (length needle))
    as (table1 & -> & Hlen1 & Htable1).
  { done. }
  { simpl. lia. }
  { by left. }
  { intros t Ht. lia. }
  simpl.
  destruct (offset_table_overlay_spec needle (length needle - 1) 0 table1)
    as (table2 & Hrun & Hlen2 & Htable2).
  { lia. }
  { done. }
  { intros t Ht. destruct (Htable1 t Ht) as (L & HL & Hfirst).
    eexists. split; [done|]. right. split; [intros i Hi; lia|]. by exists L. }
  exists table2. split; [done|]. split; [done|].
  intros t Ht. destruct (Htable2 t Ht) as (v & Hv & Hentry).
  destruct (overlay_entry_safe needle t v Ht Hentry) as (d & -> & Hsafe).
  by exists d.
Qed.

(** ** The character table *)

Lemma make_char_table_loop_spec needle (cnt : nat) :
  ∀ (i0 : nat) (table : gmap A Z),
    i0 + cnt = length needle - 1 →
    (∀ c v, table !! c = Some v → last_before needle i0 c v) →
    ∃ table',
      make_char_table_loop needle
        (range (Z.of_nat i0) (Z.of_nat (length needle) - 1)) table = Ret table' ∧
      ∀ c v, table' !! c = Some v → last_before needle (length needle - 1) c v.
Proof.
  induction cnt as [|cnt IH]; intros i0 table Hi0 Htable.
  - rewrite range_nil by lia. exists table. split; [done|].
    intros c v Hcv. replace (length needle - 1) with i0 by lia. by apply Htable.
  - rewrite range_cons by lia. cbn [make_char_table_loop].
    destruct (getitem_lt needle i0) as (a & Ha & ->); [lia|]. simpl.
    replace (Z.of_nat i0 + 1)%Z with (Z.of_nat (S i0)) by lia.
    apply IH; [lia|]. intros c v. destruct (decide (a = c)) as [->|Hne].
    + rewrite lookup_insert_eq. intros [= <-]. exists i0.
      split_and!; [lia|done|unfold len; lia|]. intros k' Hk'. lia.
    + rewrite lookup_insert_ne by done. intros Hcv.
      destruct (Htable c v Hcv) as (k & Hk & Hkc & -> & Hlast).
      exists k. split_and!; [lia|done..|]. intros k' Hk'.
      destruct (decide (k' = i0)) as [->|?]; [congruence|]. apply Hlast. lia.
Qed.

Lemma make_char_table_spec needle :
  ∃ table,
    make_char_table needle = Ret table ∧
    ∀ c v, table !! c = Some v → last_before needle (length needle - 1) c v.
Proof.
  unfold make_char_table, len.
  apply (make_char_table_loop_spec needle (length needle - 1) 0 ∅); [lia|].
  intros c v. by rewrite lookup_empty.
Qed.

(** ** Occurrences *)

Lemma occurs_at_lookup haystack needle s :
  occurs_at haystack needle s ↔
    ∀ k, k < length needle → haystack !! (s + k) = needle !! k.
Proof.
  unfold occurs_at. split.
  - intros Hocc k Hk. pose proof (f_equal (λ l, l !! k) Hocc) as Hlk.
    simpl in Hlk. by rewrite lookup_take_lt, lookup_drop in Hlk.
  - intros Hall. apply list_eq. intros k.
    destruct (decide (k < length needle)) as [Hk|Hk].
    + by rewrite lookup_take_lt, lookup_drop, Hall.
    + rewrite lookup_take_ge by lia. symmetry. apply lookup_ge_None. lia.
Qed.

Lemma occurs_at_fits haystack needle s :
  needle ≠ [] → occurs_at haystack needle s → s + length needle ≤ length haystack.
Proof.
  intros Hne Hocc. rewrite occurs_at_lookup in Hocc.
  assert (0 < length needle) as Hpos by (destruct needle; [done|simpl; lia]).
  specialize (Hocc (length needle - 1) ltac:(lia)).
  destruct (lookup_lt_is_Some_2 needle (length needle - 1)) as [x Hx]; [lia|].
  rewrite Hx in Hocc. apply lookup_lt_Some in Hocc. lia.
Qed.

Lemma matched_occurs_at haystack needle e :
  length needle - 1 ≤ e →
  matched haystack needle e (length needle) →
  occurs_at haystack needle (e - (length needle - 1)).
Proof.
  intros He Hm. apply occurs_at_lookup. intros k Hk.
  specialize (Hm (length needle - 1 - k) ltac:(lia)).
  replace (e - (length needle - 1 - k)) with (e - (length needle - 1) + k)
    in Hm by lia.
  by replace (length needle - 1 - (length needle - 1 - k)) with k in Hm by lia.
Qed.

Lemma occurs_at_compatible haystack needle e t d :
  length needle - 1 ≤ e → t < length needle →
  matched haystack needle e t →
  haystack !! (e - t) ≠ needle !! (length needle - 1 - t) →
  occurs_at haystack needle (e - (length needle - 1) + d) →
  compatible needle t d.
Proof.
  intros He Ht Hm Hmis Hocc. rewrite occurs_at_lookup in Hocc. split.
  - intros k Hk Hkd. rewrite <-(Hm k Hk).
    rewrite <-(Hocc (length needle - 1 - k - d)) by lia. f_equal. lia.
  - intros Htd Heq. apply Hmis. rewrite <-Heq.
    rewrite <-(Hocc (length needle - 1 - t - d)) by lia. f_equal. lia.
Qed.

(** ** The loops of [search] *)

Lemma scan_spec haystack needle (e : nat) (fuel : nat) :
  ∀ t,
    t < length needle → length needle - 1 ≤ e → e < length haystack →
    length needle - t ≤ fuel →
    matched haystack needle e t →
    (scan fuel haystack needle (Z.of_nat (e - t)) (Z.of_nat (length needle - 1 - t))
       = Ret (inr (Z.of_nat (e - (length needle - 1)))) ∧
     matched haystack needle e (length needle)) ∨
    (∃ t', t ≤ t' < length needle ∧
       scan fuel haystack needle (Z.of_nat (e - t)) (Z.of_nat (length needle - 1 - t))
         = Ret (inl (Z.of_nat (e - t'), Z.of_nat (length needle - 1 - t'))) ∧
       matched haystack needle e t' ∧
       haystack !! (e - t') ≠ needle !! (length needle - 1 - t')).
Proof.
  induction fuel as [|fuel IH]; intros t Ht He HeN Hfuel Hm; [lia|].
  cbn [scan].
  destruct (getitem_lt needle (length needle - 1 - t)) as (a & Ha & ->); [lia|].
  destruct (getitem_lt haystack (e - t)) as (b & Hb & ->); [lia|].
  simpl. case_decide as Hab.
  - assert (matched haystack needle e (S t)) as Hm'.
    { intros k Hk. destruct (decide (k = t)) as [->|?]; [congruence|].
      apply Hm. lia. }
    case_decide as Hj.
    + left. assert (t = length needle - 1) as Heq by lia.
      split; [by rewrite <-Heq|].
      by replace (length needle) with (S t) by lia.
    + replace (Z.of_nat (e - t) - 1)%Z with (Z.of_nat (e - S t)) by lia.
      replace (Z.of_nat (length needle - 1 - t) - 1)%Z
        with (Z.of_nat (length needle - 1 - S t)) by lia.
      destruct (IH (S t)) as [Hfound|(t' & Ht' & Hscan & Hmt' & Hmis)];
        [lia..|done| |].
      * by left.
      * right. exists t'. split_and!; (done || lia).
  - right. exists t. split_and!; [lia|lia|done|done|congruence].
Qed.

Lemma search_loop_spec haystack needle char_table offset_table (fuel : nat) :
  ∀ e : nat,
    1 ≤ length needle →
    (∀ c v, char_table !! c = Some v → last_before needle (length needle - 1) c v) →
    length offset_table = length needle →
    (∀ t, t < length needle →
          ∃ d, offset_table !! t = Some (Z.of_nat (t + d)) ∧ safe_shift needle t d) →
    length needle - 1 ≤ e →
    (∀ s, s + length needle ≤ e → ¬ occurs_at haystack needle s) →
    1 ≤ fuel → length haystack + length needle ≤ fuel + e →
    ∃ r, search_loop fuel haystack needle char_table offset_table (Z.of_nat e) = Ret r ∧
         leftmost_occurrence haystack needle r.
Proof.
  induction fuel as [|fuel IH];
    intros e Hpos Hct Hlen Hot He Hnone Hfuel1 Hfuel; [lia|].
  assert (needle ≠ []) as Hne by (destruct needle; [simpl in Hpos; lia|done]).
  cbn [search_loop]. unfold len. case_decide as HeN.
  - pose proof (scan_spec haystack needle e (S fuel) 0) as Hscan.
    rewrite !Nat.sub_0_r in Hscan.
    replace (Z.of_nat (length needle) - 1)%Z
      with (Z.of_nat (length needle - 1)) by lia.
    destruct Hscan as [[-> Hfull]|(t & Ht & -> & Hm & Hmis)];
      [lia..|intros k Hk; lia| |].
    + simpl. eexists. split; [done|]. right. rewrite Nat2Z.id.
      split_and!; [lia|by apply matched_occurs_at|].
      intros s Hs. apply Hnone. lia.
    + simpl.
      replace (Z.of_nat (length needle - 1) - Z.of_nat (length needle - 1 - t))%Z
        with (Z.of_nat t) by lia.
      destruct (Hot t) as (d & Hd & Hd1 & Hsafe); [lia|].
      rewrite (getitem_Ret _ _ _ Hd). simpl.
      destruct (getitem_lt haystack (e - t)) as (c & Hc & ->); [lia|]. simpl.
      set (shift := Z.max (Z.of_nat (t + d)) (default (-1)%Z (char_table !! c))).
      assert (Z.of_nat (t + d) ≤ shift)%Z as Hshift by (unfold shift; lia).
      replace (Z.of_nat (e - t) + shift)%Z
        with (Z.of_nat (Z.to_nat (Z.of_nat (e - t) + shift))) by lia.
      apply IH; try done; [lia| |lia|lia].
      intros s Hs Hocc.
      destruct (decide (s + length needle ≤ e)) as [Hold|Hnew];
        [by apply (Hnone s)|].
      destruct (decide (s = e - (length needle - 1))) as [->|Hs0].
      { rewrite occurs_at_lookup in Hocc.
        specialize (Hocc (length needle - 1 - t) ltac:(lia)).
        apply Hmis. rewrite <-Hocc. f_equal. lia. }
      set (d' := s - (e - (length needle - 1))).
      assert (s = e - (length needle - 1) + d') as Hsd by (unfold d'; lia).
      destruct (decide (d' < d)) as [Hlt|Hge].
      { apply (Hsafe d'); [lia|]. rewrite Hsd in Hocc.
        apply (occurs_at_compatible haystack needle e t d'); [done|lia|done..]. }
      destruct (char_table !! c) as [v|] eqn:Hcv; simpl in shift; [|lia].
      destruct (Hct c v Hcv) as (k & Hk & Hkc & -> & Hlast).
      rewrite occurs_at_lookup in Hocc.
      specialize (Hocc (e - t - s) ltac:(lia)).
      replace (s + (e - t - s)) with (e - t) in Hocc by lia.
      apply (Hlast (e - t - s)); [lia|]. congruence.
  - exists (-1)%Z. split; [done|]. left. split; [done|]. intros s Hocc.
    apply (Hnone s); [|done]. apply occurs_at_fits in Hocc; [lia|done].
Qed.

(** [search] returns the position of the leftmost occurrence, or [-1];
    fuel beyond the lengths of its arguments does not change the result. *)
Lemma search_fuel_spec haystack needle (fuel : nat) :
  length haystack + length needle < fuel →
  ∃ r, search_fuel fuel haystack needle = Ret r ∧
       leftmost_occurrence haystack needle r.
Proof.
  intros Hfuel. unfold search_fuel, len. case_decide as Hm.
  - exists 0%Z. split; [done|]. right. split; [done|].
    destruct needle; [|simpl in Hm; lia]. split; [done|]. intros s Hs. simpl in Hs. lia.
  - destruct (make_char_table_spec needle) as (ct & -> & Hct).
    destruct (make_offset_table_spec needle) as (ot & -> & Hlen & Hot).
    simpl.
    replace (Z.of_nat (length needle) - 1)%Z with (Z.of_nat (length needle - 1)) by lia.
    apply search_loop_spec; try done; try lia.
Qed.

Lemma leftmost_occurrence_unique haystack needle r r' :
  leftmost_occurrence haystack needle r →
  leftmost_occurrence haystack needle r' → r = r'.
Proof.
  intros [[-> Hnone]|(Hr & Hocc & Hleft)] [[-> Hnone']|(Hr' & Hocc' & Hleft')].
  - done.
  - by apply Hnone in Hocc'.
  - by apply Hnone' in Hocc.
  - destruct (decide (Z.to_nat r < Z.to_nat r')) as [Hlt|Hge].
    + by apply Hleft' in Hlt.
    + destruct (decide (Z.to_nat r' < Z.to_nat r)) as [Hlt'|Hge'].
      * by apply Hleft in Hlt'.
      * lia.
Qed.

End search_facts.

(** * Properties of the rule trie *)

Lemma drop_cons_inv {A} (l : list A) (n : nat) (x : A) (l' : list A) :
  drop n l = x :: l' → l !! n = Some x ∧ drop (S n) l = l'.
Proof.
  intros Hdrop. split.
  - by rewrite <-(Nat.add_0_r n), <-lookup_drop, Hdrop.
  - replace (S n) with (n + 1) by lia. by rewrite <-drop_drop, Hdrop.
Qed.

Section trie_facts.
Implicit Types (d self sub : TransformationDict) (idx : Index).
Implicit Types (lhs rhs tokens path : list string) (token : string).
Implicit Types (rs : RuleSet).

(** ** The dictionary primitives *)

Lemma items_lookup_store_eq its token v :
  items_lookup (items_store its token v) token = Some v.
Proof.
  induction its as [|[k w] its IH]; simpl.
  - by rewrite decide_True.
  - destruct (decide (k = token)) as [->|Hne]; simpl.
    + by rewrite decide_True.
    + by rewrite decide_False.
Qed.

Lemma items_lookup_store_ne its token token' v :
  token ≠ token' →
  items_lookup (items_store its token v) token' = items_lookup its token'.
Proof.
  intros Hne. induction its as [|[k w] its IH]; simpl.
  - by rewrite decide_False.
  - destruct (decide (k = token)) as [-> | Hk]; simpl.
    + by rewrite !decide_False.
    + by rewrite IH.
Qed.

Lemma dict_lookup_store d token token' v :
  dict_lookup (dict_store d token v) token' =
    if decide (token = token') then Some v else dict_lookup d token'.
Proof.
  unfold dict_lookup, dict_store. simpl. case_decide as Heq.
  - subst. apply items_lookup_store_eq.
  - by apply items_lookup_store_ne.
Qed.

Lemma items_lookup_elem_of its token v :
  items_lookup its token = Some v → (token, v) ∈ its.
Proof.
  induction its as [|[k w] its IH]; simpl; [done|].
  case_decide as Heq.
  - intros [= ->]. subst. by left.
  - intros. right. auto.
Qed.

Lemma items_lookup_NoDup its token v :
  NoDup its.*1 → (token, v) ∈ its → items_lookup its token = Some v.
Proof.
  induction its as [|[k w] its IH]; csimpl.
  - intros _ Hin. by apply elem_of_nil in Hin.
  - rewrite NoDup_cons. intros [Hk Hnd] Hin.
    apply elem_of_cons in Hin as [[= -> ->]|Hin].
    + by rewrite decide_True.
    + rewrite decide_False; [by apply IH|].
      intros ->. apply Hk. apply list_elem_of_fmap. by exists (token, v).
Qed.

Lemma items_store_keys_in its token v :
  token ∈ its.*1 → (items_store its token v).*1 = its.*1.
Proof.
  induction its as [|[k w] its IH]; csimpl.
  - intros Hin. by apply elem_of_nil in Hin.
  - intros Hin. destruct (decide (k = token)) as [->|Hne]; csimpl; [done|].
    apply elem_of_cons in Hin as [->|Hin]; [done|]. by rewrite IH.
Qed.

Lemma items_store_keys_notin its token v :
  token ∉ its.*1 → (items_store its token v).*1 = its.*1 ++ [token].
Proof.
  induction its as [|[k w] its IH]; csimpl; [done|].
  rewrite not_elem_of_cons. intros [Hne Hin].
  rewrite decide_False by done. csimpl. by rewrite IH.
Qed.

(** ** [__getitem__] *)

Lemma getitem_loop_cons d o token path :
  getitem_loop d o (token :: path) =
    match dict_lookup d token with
    | Some (rs, d') => getitem_loop d' (Some rs) path
    | None => Ret (∅, new_dict)
    end.
Proof.
  simpl. unfold getitem_token.
  by destruct (dict_lookup d token) as [[rs' d']|].
Qed.

Lemma getitem_loop_index its idx idx' o path :
  path ≠ [] →
  getitem_loop (TDict its idx) o path = getitem_loop (TDict its idx') o path.
Proof. destruct path; [done|]. intros _. by rewrite !getitem_loop_cons. Qed.

Lemma getitem_token_loop self token :
  __getitem__ self (KToken token) = getitem_loop self None [token].
Proof.
  simpl. unfold getitem_token.
  by destruct (dict_lookup self token) as [[rs' d']|].
Qed.

(** ** [add] *)

Lemma add_loop_cons lhs rhs i token tokens d idx :
  add_loop lhs rhs i (token :: tokens) d idx =
    let old := default (∅, new_dict) (dict_lookup d token) in
    let idx1 :=
      if decide (0 < i < len lhs - 1)%Z
      then index_record idx token
             (take (Z.to_nat i) lhs, drop (Z.to_nat (i + 1)) lhs)
      else idx in
    let r := add_loop lhs rhs (i + 1)%Z tokens old.2 idx1 in
    (dict_store d token
       (match tokens with [] => old.1 ∪ {[rhs]} | _ => old.1 end, r.1), r.2).
Proof.
  simpl. destruct (dict_lookup d token) as [[rs0 sub0]|]; simpl;
    by destruct (add_loop _ _ _ _ _ _).
Qed.

Lemma add_unfold self lhs rhs :
  lhs ≠ [] →
  add self lhs rhs =
    TDict (items (add_loop lhs rhs 0%Z lhs self (index self)).1)
          (add_loop lhs rhs 0%Z lhs self (index self)).2.
Proof.
  intros Hne. unfold add. rewrite decide_False.
  - by destruct (add_loop _ _ _ _ _ _).
  - destruct lhs; [done|]. unfold len. simpl. lia.
Qed.

Lemma add_nil self rhs : add self [] rhs = self.
Proof. done. Qed.

(** After the loop of [add] the path [tokens] leads to a rule set that
    holds [rhs]. *)
Lemma add_loop_getitem lhs rhs tokens :
  tokens ≠ [] →
  ∀ i d idx o, ∃ rs sub,
    getitem_loop (add_loop lhs rhs i tokens d idx).1 o tokens = Ret (rs, sub)
    ∧ rhs ∈ rs.
Proof.
  induction tokens as [|token tokens IH]; [done|]. intros _ i d idx o.
  rewrite add_loop_cons. cbv zeta. cbn [fst].
  rewrite getitem_loop_cons, dict_lookup_store, decide_True by done.
  destruct tokens as [|token' tokens].
  - simpl. eexists _, _. split; [done|]. set_solver.
  - apply IH. done.
Qed.

(** The index after the loop of [add]: the entries present before,
    and one pair for each interior position from [i] on. *)
Lemma add_loop_index lhs rhs tokens :
  ∀ i d idx token (pair : list string * list string),
    (0 ≤ i)%Z →
    drop (Z.to_nat i) lhs = tokens →
    pair ∈ default ∅ ((add_loop lhs rhs i tokens d idx).2 !! token) ↔
      pair ∈ default ∅ (idx !! token) ∨
      ∃ k : nat, Z.to_nat i ≤ k ∧ 0 < k < length lhs - 1 ∧
        lhs !! k = Some token ∧ pair = (take k lhs, drop (S k) lhs).
Proof.
  induction tokens as [|t tokens IH]; intros i d idx token pair Hi Hdrop.
  - simpl. split; [by left|]. intros [?|(k & Hk & Hint & Hlk & _)]; [done|].
    apply drop_nil_inv in Hdrop. lia.
  - apply drop_cons_inv in Hdrop as [Hhd Htl].
    replace (S (Z.to_nat i)) with (Z.to_nat (i + 1)) in Htl by lia.
    rewrite add_loop_cons. cbv zeta. cbn [snd].
    rewrite IH by (done || lia). clear IH.
    assert (Z.to_nat (i + 1) = S (Z.to_nat i)) as -> by lia.
    assert (∀ k : nat, Z.to_nat i ≤ k ↔ k = Z.to_nat i ∨ S (Z.to_nat i) ≤ k)
      as Hsplit by lia.
    case_decide as Hint.
    + unfold index_record.
      destruct (decide (t = token)) as [->|Hne].
      * rewrite lookup_insert_eq. simpl. rewrite elem_of_union, elem_of_singleton.
        split.
        -- intros [[?| ->] |(k & ? & ? & ? & ?)].
           ++ by left.
           ++ right. exists (Z.to_nat i). unfold len in Hint.
              split_and!; (done || lia).
           ++ right. exists k. split_and!; (done || lia).
        -- intros [?|(k & Hk & ? & ? & ->)]; [by left; left|].
           apply Hsplit in Hk as [-> | Hk]; [by left; right|].
           right. exists k. split_and!; (done || lia).
      * rewrite lookup_insert_ne by done. split.
        -- intros [?|(k & ? & ? & ? & ?)]; [by left|].
           right. exists k. split_and!; (done || lia).
        -- intros [?|(k & Hk & ? & Hlk & ->)]; [by left|].
           apply Hsplit in Hk as [-> | Hk]; [congruence|].
           right. exists k. split_and!; (done || lia).
    + split.
      * intros [?|(k & ? & ? & ? & ?)]; [by left|].
        right. exists k. split_and!; (done || lia).
      * intros [?|(k & Hk & ? & Hlk & ->)]; [by left|].
        apply Hsplit in Hk as [-> | Hk]; [unfold len in Hint; lia|].
        right. exists k. split_and!; (done || lia).
Qed.

(** A token at no interior position from [i] on keeps its entry of the
    index, present or not. *)
Lemma add_loop_index_other lhs rhs tokens :
  ∀ i d idx token,
    (0 ≤ i)%Z →
    drop (Z.to_nat i) lhs = tokens →
    (∀ k : nat, Z.to_nat i ≤ k → 0 < k < length lhs - 1 → lhs !! k ≠ Some token) →
    (add_loop lhs rhs i tokens d idx).2 !! token = idx !! token.
Proof.
  induction tokens as [|t tokens IH]; intros i d idx token Hi Hdrop Hnot.
  - done.
  - apply drop_cons_inv in Hdrop as [Hhd Htl].
    replace (S (Z.to_nat i)) with (Z.to_nat (i + 1)) in Htl by lia.
    rewrite add_loop_cons. cbv zeta. cbn [snd].
    rewrite IH; [|lia|done|intros k ?; apply Hnot; lia].
    case_decide as Hint; [|done].
    unfold index_record. rewrite lookup_insert_ne; [done|].
    intros ->. apply (Hnot (Z.to_nat i)); [lia|unfold len in Hint; lia|done].
Qed.

(** The rule set at [path] after the loop of [add]: [rhs] joins it when
    [path] is the walked sequence, and it is unchanged otherwise. *)
Lemma getitem_loop_add_exact lhs rhs path :
  ∀ tokens i d idx rs0 rs sub,
    getitem_loop d (Some rs0) path = Ret (rs, sub) →
    ∃ sub',
      getitem_loop (add_loop lhs rhs i tokens d idx).1
        (Some (match tokens with [] => rs0 ∪ {[rhs]} | _ => rs0 end)) path
      = Ret (if decide (path = tokens) then rs ∪ {[rhs]} else rs, sub').
Proof.
  induction path as [|t path IH]; intros tokens i d idx rs0 rs sub Hget.
  - simpl in Hget. injection Hget as <- <-.
    destruct tokens as [|token tokens]; simpl; [by eexists|].
    destruct (dict_lookup d token) as [[rs1 sub1]|];
      destruct (add_loop _ _ _ _ _ _); by eexists.
  - destruct tokens as [|token tokens].
    { exists sub. cbn [add_loop fst].
      rewrite decide_False by done.
      by rewrite getitem_loop_cons in Hget |- *. }
    rewrite add_loop_cons. cbv zeta. cbn [fst].
    rewrite getitem_loop_cons in Hget.
    rewrite getitem_loop_cons, dict_lookup_store.
    destruct (decide (token = t)) as [->|Hne].
    + destruct (dict_lookup d t) as [[rs1 sub1]|] eqn:Hlk; simpl.
      * match goal with
        | |- context [add_loop lhs rhs ?i' tokens sub1 ?idx'] =>
            destruct (IH tokens i' sub1 idx' rs1 rs sub Hget) as [sub' ->]
        end.
        exists sub'. do 2 f_equal. repeat case_decide; congruence.
      * injection Hget as <- <-.
        match goal with
        | |- context [add_loop lhs rhs ?i' tokens new_dict ?idx'] =>
            destruct (IH tokens i' new_dict idx' ∅ ∅ new_dict) as [sub' ->];
              [by destruct path|]
        end.
        exists sub'. do 2 f_equal. repeat case_decide; congruence.
    + exists sub. rewrite decide_False by congruence.
      by destruct (dict_lookup d t) as [[rs1 sub1]|].
Qed.

Lemma getitem_seq_index its idx idx' lhs :
  __getitem__ (TDict its idx) (KSeq lhs) = __getitem__ (TDict its idx') (KSeq lhs).
Proof. destruct lhs; [done|]. by apply getitem_loop_index. Qed.

Lemma getitem_add_seq self lhs rhs path :
  lhs ≠ [] →
  __getitem__ (add self lhs rhs) (KSeq path) =
    __getitem__ (add_loop lhs rhs 0%Z lhs self (index self)).1 (KSeq path).
Proof.
  intros Hne. rewrite add_unfold by done.
  destruct (add_loop _ _ _ _ _ _).1 as [its idx]. apply getitem_seq_index.
Qed.

(** [get_rhs] after [add], for a sequence key. *)
Lemma get_rhs_add_seq self lhs rhs path rs :
  get_rhs self (KSeq path) = Ret rs →
  get_rhs (add self lhs rhs) (KSeq path) =
    Ret (if decide (path = lhs) then rs ∪ {[rhs]} else rs).
Proof.
  unfold get_rhs. intros Hget.
  destruct (__getitem__ self (KSeq path)) as [[rs' sub]| |] eqn:Hitem; [|done..].
  simpl in Hget. injection Hget as ->.
  destruct path as [|t path]; [done|].
  destruct lhs as [|token lhs].
  { rewrite add_nil, Hitem. by rewrite decide_False. }
  rewrite getitem_add_seq by done.
  change (__getitem__ ?d (KSeq ?l)) with (getitem_loop d None l) in *.
  assert (getitem_loop self (Some ∅) (t :: path) = Ret (rs, sub)) as Hsome.
  { by rewrite getitem_loop_cons in Hitem |- *. }
  edestruct (getitem_loop_add_exact (token :: lhs) rhs (t :: path) (token :: lhs))
    as [sub' Hsub']; [exact Hsome|].
  rewrite getitem_loop_cons in Hsub'. rewrite getitem_loop_cons, Hsub'. done.
Qed.

(** A single token is looked up like the sequence of that token. *)
Lemma get_rhs_token self token :
  get_rhs self (KToken token) = get_rhs self (KSeq [token]).
Proof. unfold get_rhs. by rewrite getitem_token_loop. Qed.

Lemma get_rhs_add_mono self lhs rhs key rs :
  get_rhs self key = Ret rs →
  ∃ rs', get_rhs (add self lhs rhs) key = Ret rs' ∧ rs ⊆ rs'.
Proof.
  destruct key as [token|path].
  - rewrite !get_rhs_token. intros Hget.
    rewrite (get_rhs_add_seq _ _ _ _ _ Hget). eexists. split; [done|].
    case_decide; set_solver.
  - intros Hget.
    rewrite (get_rhs_add_seq _ _ _ _ _ Hget). eexists. split; [done|].
    case_decide; set_solver.
Qed.

(** What holds of a new dictionary and is kept by [add] holds of every
    built dictionary. *)
Lemma build_ind (P : TransformationDict → Prop) :
  P new_dict →
  (∀ self lhs rhs, P self → P (add self lhs rhs)) →
  ∀ rules, P (build rules).
Proof.
  intros Hnew Hadd rules. unfold build.
  generalize new_dict Hnew. induction rules as [|[lhs rhs] rules IH]; simpl.
  - done.
  - intros self Hself. apply IH. by apply Hadd.
Qed.

Lemma build_snoc rules lhs rhs :
  build (rules ++ [(lhs, rhs)]) = add (build rules) lhs rhs.
Proof. unfold build. by rewrite foldl_app. Qed.

(** ** The index *)

Lemma add_index_entries_iff self lhs rhs token (pair : list string * list string) :
  pair ∈ index_entries (add self lhs rhs) token ↔
    pair ∈ index_entries self token ∨
    ∃ i : nat, 0 < i < length lhs - 1 ∧ lhs !! i = Some token ∧
      pair = (take i lhs, drop (S i) lhs).
Proof.
  destruct lhs as [|t lhs].
  { rewrite add_nil. split; [by left|]. intros [?|(i & Hi & _)]; [done|].
    simpl in Hi. lia. }
  rewrite add_unfold by done. unfold index_entries at 1. cbn [index].
  rewrite add_loop_index by done. unfold index_entries. split.
  - intros [?|(k & _ & ? & ? & ?)]; [by left|]. right. by exists k.
  - intros [?|(k & ? & ? & ?)]; [by left|]. right. exists k.
    split_and!; (done || lia).
Qed.

Lemma add_index_other self lhs rhs token :
  (∀ i : nat, 0 < i < length lhs - 1 → lhs !! i ≠ Some token) →
  index (add self lhs rhs) !! token = index self !! token.
Proof.
  intros Hnot. destruct lhs as [|t lhs]; [done|].
  rewrite add_unfold by done. cbn [index].
  apply add_loop_index_other; [done..|]. intros k _. apply Hnot.
Qed.

(** Every pair recorded in a built dictionary has a non-empty [before]
    and a non-empty [after]. *)
Lemma build_index_nonempty rules token (pair : list string * list string) :
  pair ∈ index_entries (build rules) token → pair.1 ≠ [] ∧ pair.2 ≠ [].
Proof.
  revert token pair. apply (build_ind (λ self, ∀ token pair,
    pair ∈ index_entries self token → pair.1 ≠ [] ∧ pair.2 ≠ [])).
  - intros token pair. unfold index_entries. simpl.
    rewrite lookup_empty. simpl. set_solver.
  - intros self lhs rhs IH token pair.
    rewrite add_index_entries_iff. intros [?|(i & Hi & Hlk & ->)]; [by eapply IH|].
    simpl. split.
    + intros Htake. apply (f_equal length) in Htake.
      rewrite length_take in Htake. simpl in Htake. lia.
    + intros Hdrop. apply drop_nil_inv in Hdrop. lia.
Qed.

(** ** The filter of [find_partial_expression] *)

Lemma take_succ_length_eq {A} (after tail : list A) :
  take (Z.to_nat (len tail + 1)) after = tail ↔ after = tail.
Proof.
  unfold len. replace (Z.to_nat (Z.of_nat (length tail) + 1)) with (S (length tail)) by lia.
  split.
  - intros Htake. pose proof (f_equal length Htake) as Hlen.
    rewrite length_take in Hlen.
    rewrite take_ge in Htake by lia. done.
  - intros ->. apply take_ge. lia.
Qed.

Lemma elem_of_lhs_heads_of entries sought head :
  head ∈ lhs_heads_of entries sought ↔ (head, sought) ∈ entries.
Proof.
  unfold lhs_heads_of. rewrite list_elem_of_fmap. split.
  - intros ([h after] & -> & Hin). apply list_elem_of_filter in Hin as [Hf Hin].
    simpl in *. apply (proj1 (take_succ_length_eq _ _)) in Hf as ->.
    by apply elem_of_elements in Hin.
  - intros Hin. exists (head, sought). split; [done|].
    apply list_elem_of_filter. split.
    + simpl. by apply take_succ_length_eq.
    + by apply elem_of_elements.
Qed.

Lemma find_partial_expression_single rules token :
  find_partial_expression (build rules) [token] = Ret [].
Proof.
  unfold find_partial_expression. simpl.
  destruct (index (build rules) !! token) as [entries|] eqn:Hidx; [|done].
  assert (lhs_heads_of entries [] = []) as ->; [|done].
  apply elem_of_nil_inv. intros head Hin.
  apply elem_of_lhs_heads_of in Hin.
  apply (build_index_nonempty rules token (head, [])); [|done].
  unfold index_entries. by rewrite Hidx.
Qed.

(** ** Exact lookup in a built dictionary *)

(** The rule set of a non-empty sequence holds the right-hand sides
    inserted with that sequence, and nothing else. *)
Lemma get_rhs_build rules path :
  path ≠ [] →
  ∃ rs, get_rhs (build rules) (KSeq path) = Ret rs ∧
        ∀ rhs, rhs ∈ rs ↔ (path, rhs) ∈ rules.
Proof.
  intros Hne. induction rules as [|[lhs rhs] rules IH] using rev_ind.
  - exists ∅. split; [by destruct path|]. set_solver.
  - destruct IH as (rs & Hget & Hrs). rewrite build_snoc. simpl.
    rewrite (get_rhs_add_seq _ _ _ _ _ Hget). eexists. split; [done|].
    intros rhs'. rewrite elem_of_app, list_elem_of_singleton, <-Hrs.
    case_decide as Heq.
    + subst. rewrite elem_of_union, elem_of_singleton.
      split; (intros [?|?]; [by left | right; congruence]).
    + split; [by left | intros [?|?]; [done | congruence]].
Qed.

Lemma get_rhs_never_inserted rules path :
  path ≠ [] → path ∉ rules.*1 → get_rhs (build rules) (KSeq path) = Ret ∅.
Proof.
  intros Hne Hnot. destruct (get_rhs_build rules path Hne) as (rs & -> & Hrs).
  f_equal. apply set_eq. intros rhs. rewrite Hrs. split; [|set_solver].
  intros Hin. exfalso. apply Hnot. apply list_elem_of_fmap. by exists (path, rhs).
Qed.

(** ** Paths of the trie *)

Lemma TransformationDict_nested_ind (P : TransformationDict → Prop) :
  (∀ its idx, Forall (λ e, P e.2.2) its → P (TDict its idx)) →
  ∀ d, P d.
Proof.
  intros Hstep. fix IH 1. intros [its idx]. apply Hstep.
  induction its as [|[k [rs sub]] its IHits]; constructor; [apply IH|apply IHits].
Qed.

Lemma find_all_paths_unfold its idx :
  find_all_paths (TDict its idx) =
    its ≫= (λ e, paths_under e.1 (find_all_paths e.2.2)).
Proof.
  induction its as [|[key [rs sub]] its IH]; [done|].
  simpl in *. by rewrite IH.
Qed.

Lemma elem_of_paths_under key sub_paths p :
  p ∈ paths_under key sub_paths ↔
    (sub_paths = [] ∧ p = [key]) ∨ (∃ q, q ∈ sub_paths ∧ p = key :: q).
Proof.
  unfold paths_under, len. rewrite length_fmap.
  destruct sub_paths as [|q0 sub_paths].
  - simpl. rewrite list_elem_of_singleton. split; [by left|].
    intros [[_ ?]|(q & Hq & _)]; [done|]. by apply elem_of_nil in Hq.
  - rewrite decide_False by (simpl; lia). rewrite list_elem_of_fmap. split.
    + intros (q & -> & Hq). right. by exists q.
    + intros [[? _]|(q & Hq & ->)]; [done|]. by exists q.
Qed.

Lemma paths_under_not_nil key sub_paths : paths_under key sub_paths ≠ [].
Proof.
  unfold paths_under, len. rewrite length_fmap.
  by destruct sub_paths.
Qed.

Lemma find_all_paths_nil d : find_all_paths d = [] ↔ items d = [].
Proof.
  destruct d as [its idx]. rewrite find_all_paths_unfold. simpl.
  destruct its as [|e its]; [done|]. split; [|done].
  rewrite bind_cons. intros Happ. apply app_eq_nil in Happ as [Hnil _].
  by apply paths_under_not_nil in Hnil.
Qed.

(** [find_all_paths] lists the paths from a dictionary down to the
    dictionaries without keys. *)
Lemma elem_of_find_all_paths d p : p ∈ find_all_paths d ↔ leaf_path d p.
Proof.
  revert p. induction d as [its idx IH] using TransformationDict_nested_ind.
  intros p. rewrite find_all_paths_unfold, list_elem_of_bind. split.
  - intros ([key [rs sub]] & Hp & Hin). simpl in Hp.
    rewrite Forall_forall in IH. specialize (IH _ Hin). simpl in IH.
    apply elem_of_paths_under in Hp as [[Hnil ->]|(q & Hq & ->)].
    + eapply leaf_path_last; [exact Hin|]. by apply find_all_paths_nil.
    + eapply leaf_path_step; [exact Hin|]. by apply IH.
  - rewrite Forall_forall in IH.
    inversion 1 as [d key rs sub Hin Hnil|d key rs sub q Hin Hq]; subst;
      simpl in Hin; exists (key, (rs, sub)); (split; [|done]); simpl;
      apply elem_of_paths_under.
    + left. split; [|done]. by apply find_all_paths_nil.
    + right. exists q. split; [|done]. by apply (IH _ Hin).
Qed.

Lemma paths_under_head key sub_paths p :
  p ∈ paths_under key sub_paths → head p = Some key.
Proof.
  rewrite elem_of_paths_under. by intros [[_ ->]|(q & _ & ->)].
Qed.

Lemma NoDup_paths_under key sub_paths :
  NoDup sub_paths → NoDup (paths_under key sub_paths).
Proof.
  intros Hnd. unfold paths_under. case_decide.
  - apply NoDup_singleton.
  - apply NoDup_fmap; [|done]. by intros q q' [= ->].
Qed.

(** With distinct keys every path is listed once. *)
Lemma NoDup_find_all_paths d : distinct_keys d → NoDup (find_all_paths d).
Proof.
  induction d as [its idx IH] using TransformationDict_nested_ind.
  inversion 1 as [its' idx' Hkeys Hsubs]; subst.
  rewrite find_all_paths_unfold. clear H.
  induction its as [|[key [rs sub]] its IHits]; [constructor|].
  rewrite bind_cons. csimpl in Hkeys.
  apply NoDup_cons in Hkeys as [Hkey Hkeys].
  apply Forall_cons in IH as [IHsub IH].
  apply Forall_cons in Hsubs as [Hsub Hsubs]. simpl in *.
  apply NoDup_app. split_and!.
  - apply NoDup_paths_under. by apply IHsub.
  - intros p Hp Hp'. apply paths_under_head in Hp.
    apply list_elem_of_bind in Hp' as ([key' [rs' sub']] & Hp' & Hin).
    apply paths_under_head in Hp'. simpl in Hp'.
    apply Hkey. apply list_elem_of_fmap. exists (key', (rs', sub')).
    split; [|done]. simpl. congruence.
  - by apply IHits.
Qed.

(** ** Distinct keys *)

Lemma distinct_keys_new : distinct_keys new_dict.
Proof. constructor; constructor. Qed.

Lemma items_store_Forall (P : string * (RuleSet * TransformationDict) → Prop)
    its token v :
  Forall P its → P (token, v) → Forall P (items_store its token v).
Proof.
  intros Hits Hv. induction Hits as [|[k w] its Hk Hits IH]; simpl.
  - by repeat constructor.
  - case_decide; subst; by constructor.
Qed.

Lemma items_store_NoDup its token v :
  NoDup its.*1 → NoDup (items_store its token v).*1.
Proof.
  intros Hnd. destruct (decide (token ∈ its.*1)) as [Hin|Hin].
  - by rewrite items_store_keys_in.
  - rewrite items_store_keys_notin by done. apply NoDup_app. split_and!.
    + done.
    + intros k Hk ->%list_elem_of_singleton. done.
    + apply NoDup_singleton.
Qed.

Lemma dict_store_distinct d token rs sub :
  distinct_keys d → distinct_keys sub → distinct_keys (dict_store d token (rs, sub)).
Proof.
  inversion 1 as [its idx Hkeys Hsubs]; subst. intros Hsub.
  unfold dict_store. simpl. constructor.
  - by apply items_store_NoDup.
  - by apply items_store_Forall.
Qed.

Lemma dict_lookup_distinct d token rs sub :
  distinct_keys d → dict_lookup d token = Some (rs, sub) → distinct_keys sub.
Proof.
  inversion 1 as [its idx Hkeys Hsubs]; subst. unfold dict_lookup. simpl.
  intros Hlk%items_lookup_elem_of. rewrite Forall_forall in Hsubs.
  apply (Hsubs _ Hlk).
Qed.

(** With distinct keys, [d[key]] is the value stored with [key]: what
    [find_all_paths] reads when it iterates over the keys of [d]. *)
Lemma getitem_entry d key rs sub :
  distinct_keys d → (key, (rs, sub)) ∈ items d →
  __getitem__ d (KToken key) = Ret (rs, sub).
Proof.
  inversion 1 as [its idx Hkeys Hsubs]; subst. simpl. intros Hin.
  unfold getitem_token, dict_lookup. simpl.
  by rewrite (items_lookup_NoDup _ _ _ Hkeys Hin).
Qed.

Lemma add_loop_distinct lhs rhs tokens :
  ∀ i d idx, distinct_keys d → distinct_keys (add_loop lhs rhs i tokens d idx).1.
Proof.
  induction tokens as [|token tokens IH]; intros i d idx Hd; [done|].
  rewrite add_loop_cons. cbv zeta. cbn [fst].
  apply dict_store_distinct; [done|]. apply IH.
  destruct (dict_lookup d token) as [[rs sub]|] eqn:Hlk; simpl.
  - by eapply dict_lookup_distinct.
  - apply distinct_keys_new.
Qed.

Lemma distinct_keys_index its idx idx' :
  distinct_keys (TDict its idx) → distinct_keys (TDict its idx').
Proof. inversion 1; subst. by constructor. Qed.

Lemma add_distinct self lhs rhs :
  distinct_keys self → distinct_keys (add self lhs rhs).
Proof.
  intros Hself. destruct lhs as [|token lhs]; [done|].
  rewrite add_unfold by done.
  pose proof (add_loop_distinct (token :: lhs) rhs (token :: lhs) 0%Z self
                (index self) Hself) as Hd.
  destruct (add_loop _ _ _ _ _ _).1 as [its idx]. simpl.
  by eapply distinct_keys_index.
Qed.

Lemma build_distinct rules : distinct_keys (build rules).
Proof. apply build_ind; [apply distinct_keys_new|]. intros. by apply add_distinct. Qed.

Lemma subdict_at_new path : subdict_at new_dict path = new_dict.
Proof. by destruct path. Qed.

Lemma subdict_at_distinct d path : distinct_keys d → distinct_keys (subdict_at d path).
Proof.
  revert d. induction path as [|token path IH]; intros d Hd; [done|]. simpl.
  destruct (dict_lookup d token) as [[rs sub]|] eqn:Hlk.
  - apply IH. by eapply dict_lookup_distinct.
  - apply distinct_keys_new.
Qed.

Lemma subdict_at_app d path path' :
  subdict_at d (path ++ path') = subdict_at (subdict_at d path) path'.
Proof.
  revert d. induction path as [|token path IH]; intros d; [done|]. simpl.
  destruct (dict_lookup d token) as [[rs sub]|]; [apply IH|].
  by rewrite subdict_at_new.
Qed.

(** ** [find_partial_expression] *)

Lemma getitem_loop_subdict path :
  ∀ d o, path ≠ [] ∨ is_Some o →
    ∃ rs, getitem_loop d o path = Ret (rs, subdict_at d path).
Proof.
  induction path as [|token path IH]; intros d o Hok.
  - destruct Hok as [?|[rs ->]]; [done|]. by exists rs.
  - rewrite getitem_loop_cons. simpl.
    destruct (dict_lookup d token) as [[rs sub]|]; [|by eexists].
    apply IH. by right.
Qed.

Lemma getitem_token_subdict d token :
  ∃ rs, __getitem__ d (KToken token) = Ret (rs, subdict_at d [token]).
Proof.
  rewrite getitem_token_loop. apply getitem_loop_subdict. by left.
Qed.

Lemma descend_subdict tokens : ∀ d, descend d tokens = Ret (subdict_at d tokens).
Proof.
  induction tokens as [|token tokens IH]; intros d; [done|].
  cbn [descend]. destruct (getitem_token_subdict d token) as [rs ->].
  simpl. rewrite IH. by destruct (dict_lookup d token) as [[rs' sub]|];
    rewrite ?subdict_at_new.
Qed.

(** The loop over the heads, when no head is empty: one pair per head and
    path listed below the dictionary reached through the head, the first
    token and the tail. *)
Lemma contexts_loop_spec self first_token sought_lhs_tail lhs_heads :
  ∀ contexts,
    Forall (λ head, head ≠ []) lhs_heads →
    contexts_loop self first_token sought_lhs_tail lhs_heads contexts =
      Ret (contexts ++
           (lhs_heads ≫= λ head,
              pair head <$>
                find_all_paths
                  (subdict_at self (head ++ first_token :: sought_lhs_tail)))).
Proof.
  induction lhs_heads as [|head lhs_heads IH]; intros contexts Hheads.
  - simpl. by rewrite app_nil_r.
  - apply Forall_cons in Hheads as [Hhead Hheads]. cbn [contexts_loop].
    destruct (getitem_loop_subdict head self None) as [rs0 Hd0]; [by left|].
    change (__getitem__ self (KSeq head)) with (getitem_loop self None head).
    rewrite Hd0. simpl.
    destruct (getitem_token_subdict (subdict_at self head) first_token)
      as [rs1 Hd1].
    simpl in Hd1. rewrite Hd1. simpl. rewrite descend_subdict. simpl.
    rewrite IH by done. rewrite <-app_assoc. do 3 f_equal.
    rewrite subdict_at_app. simpl.
    by destruct (dict_lookup (subdict_at self head) first_token) as [[rs sub]|];
      rewrite ?subdict_at_new.
Qed.

Lemma NoDup_lhs_heads_of entries sought : NoDup (lhs_heads_of entries sought).
Proof.
  unfold lhs_heads_of. apply NoDup_fmap_2_strong.
  - intros [h after] [h' after'] [Hf _]%list_elem_of_filter
      [Hf' _]%list_elem_of_filter Heq. simpl in *.
    apply (proj1 (take_succ_length_eq _ _)) in Hf.
    apply (proj1 (take_succ_length_eq _ _)) in Hf'. congruence.
  - apply NoDup_filter, NoDup_elements.
Qed.

Lemma NoDup_contexts (heads : list (list string))
    (paths_of : list string → list (list string)) :
  NoDup heads → (∀ head, head ∈ heads → NoDup (paths_of head)) →
  NoDup (heads ≫= λ head, pair head <$> paths_of head).
Proof.
  induction 1 as [|head heads Hhead Hheads IH]; intros Hpaths; [constructor|].
  rewrite bind_cons. apply NoDup_app. split_and!.
  - apply NoDup_fmap; [by intros p p' [= ->]|]. apply Hpaths. by left.
  - intros [h p] (q & [= -> _] & _)%list_elem_of_fmap
      (h' & (q' & [= -> _] & _)%list_elem_of_fmap & Hin)%list_elem_of_bind.
    done.
  - apply IH. intros h Hh. apply Hpaths. by right.
Qed.

(** The result of [find_partial_expression] on a built dictionary. *)
Lemma find_partial_expression_build rules first_token sought_lhs_tail :
  ∃ contexts,
    find_partial_expression (build rules) (first_token :: sought_lhs_tail)
      = Ret contexts ∧
    contexts =
      (lhs_heads_of (index_entries (build rules) first_token) sought_lhs_tail
         ≫= λ head,
           pair head <$>
             find_all_paths
               (subdict_at (build rules)
                  (head ++ first_token :: sought_lhs_tail))) ∧
    NoDup contexts ∧
    ∀ head path,
      (head, path) ∈ contexts ↔
        (head, sought_lhs_tail) ∈ index_entries (build rules) first_token ∧
        leaf_path
          (subdict_at (build rules) (head ++ first_token :: sought_lhs_tail))
          path.
Proof.
  unfold find_partial_expression, index_entries. simpl.
  destruct (index (build rules) !! first_token) as [entries|] eqn:Hidx; simpl.
  - rewrite contexts_loop_spec.
    + eexists. split; [done|]. split; [done|]. split.
      * simpl. apply NoDup_contexts; [apply NoDup_lhs_heads_of|].
        intros head _. apply NoDup_find_all_paths, subdict_at_distinct,
          build_distinct.
      * intros head path. simpl. rewrite list_elem_of_bind.
        rewrite <-elem_of_lhs_heads_of, <-elem_of_find_all_paths. split.
        -- by intros (h & (q & [= -> ->] & Hp)%list_elem_of_fmap & Hh).
        -- intros [Hh Hp]. exists head. split; [|done].
           apply list_elem_of_fmap. by exists path.
    + apply Forall_forall. intros head Hin%elem_of_lhs_heads_of.
      apply (build_index_nonempty rules first_token (head, sought_lhs_tail)).
      unfold index_entries. by rewrite Hidx.
  - exists []. split; [done|]. split; [done|]. split; [constructor|].
    intros head path.
    split; [by intros ?%elem_of_nil|]. by intros [?%not_elem_of_empty _].
Qed.

(** ** No method of the trie runs out of fuel *)

Lemma getitem_loop_outcome path :
  ∀ d o, (∃ p, getitem_loop d o path = Ret p) ∨
         getitem_loop d o path = Raise UnboundLocalError.
Proof.
  induction path as [|token path IH]; intros d o.
  - destruct o; [left; by eexists|by right].
  - left. destruct (getitem_loop_subdict (token :: path) d o) as [rs ->];
      [by left|]. by eexists.
Qed.

Lemma contexts_loop_outcome self first_token sought_lhs_tail lhs_heads :
  ∀ contexts,
    contexts_loop self first_token sought_lhs_tail lhs_heads contexts ≠ OutOfFuel.
Proof.
  induction lhs_heads as [|head lhs_heads IH]; intros contexts; [done|].
  cbn [contexts_loop].
  change (__getitem__ self (KSeq head)) with (getitem_loop self None head).
  destruct (getitem_loop_outcome head self None) as [[[rs0 d0] ->]| ->]; [|done].
  simpl. destruct (getitem_token_subdict d0 first_token) as [rs1 Hd1].
  simpl in Hd1. rewrite Hd1. simpl. rewrite descend_subdict. simpl. apply IH.
Qed.

Lemma find_partial_expression_outcome self partial :
  find_partial_expression self partial ≠ OutOfFuel.
Proof.
  unfold find_partial_expression, Py.getitem.
  repeat case_decide; try done.
  destruct (partial !! _); [|done]. simpl.
  destruct (index self !! _); [|done]. apply contexts_loop_outcome.
Qed.

End trie_facts.

(** * More about the rule trie *)

Section trie_paths.
Implicit Types (d self sub : TransformationDict) (idx : Index).
Implicit Types (lhs rhs tokens path : list string) (token : string).
Implicit Types (rs : RuleSet).

(** ** Lookups along a path *)

Lemma getitem_seq_returns self token path :
  ∃ rs, __getitem__ self (KSeq (token :: path)) = Ret (rs, subdict_at self (token :: path)).
Proof. apply getitem_loop_subdict. by left. Qed.

Lemma get_rhs_seq_returns self token path :
  ∃ rs, get_rhs self (KSeq (token :: path)) = Ret rs.
Proof.
  unfold get_rhs. destruct (getitem_seq_returns self token path) as [rs ->].
  by exists rs.
Qed.

Lemma get_rhs_subdict_at self path token path' :
  get_rhs (subdict_at self path) (KSeq (token :: path')) =
  get_rhs self (KSeq (path ++ token :: path')).
Proof.
  revert self. induction path as [|t path IH]; intros self; [done|].
  simpl app. cbn [subdict_at].
  unfold get_rhs at 2.
  change (__getitem__ self (KSeq (t :: (path ++ token :: path'))))
    with (getitem_loop self None (t :: (path ++ token :: path'))).
  rewrite getitem_loop_cons.
  destruct (dict_lookup self t) as [[rs sub]|] eqn:Hlk.
  - rewrite IH. unfold get_rhs.
    change (__getitem__ sub (KSeq (path ++ token :: path')))
      with (getitem_loop sub None (path ++ token :: path')).
    destruct path; simpl app; by rewrite !getitem_loop_cons.
  - simpl. unfold get_rhs.
    change (__getitem__ new_dict (KSeq (token :: path')))
      with (getitem_loop new_dict None (token :: path')).
    by rewrite getitem_loop_cons.
Qed.

Lemma getitem_missing self path token path' :
  dict_lookup (subdict_at self path) token = None →
  __getitem__ self (KSeq (path ++ token :: path')) = Ret (∅, new_dict).
Proof.
  revert self. induction path as [|t path IH]; intros self Hnone.
  - simpl in *. change (getitem_loop self None (token :: path') = Ret (∅, new_dict)).
    by rewrite getitem_loop_cons, Hnone.
  - simpl app. change (getitem_loop self None (t :: (path ++ token :: path')) = Ret (∅, new_dict)).
    rewrite getitem_loop_cons. cbn [subdict_at] in Hnone.
    destruct (dict_lookup self t) as [[rs sub]|] eqn:Hlk; [|done].
    specialize (IH sub Hnone).
    change (getitem_loop sub None (path ++ token :: path') = Ret (∅, new_dict)) in IH.
    destruct path; simpl app in *; by rewrite getitem_loop_cons in IH |- *.
Qed.

Lemma get_rhs_add_update self lhs rhs token path :
  ∃ rs, get_rhs self (KSeq (token :: path)) = Ret rs ∧
        get_rhs (add self lhs rhs) (KSeq (token :: path)) =
          Ret (if decide (token :: path = lhs) then rs ∪ {[rhs]} else rs).
Proof.
  destruct (get_rhs_seq_returns self token path) as [rs Hrs].
  exists rs. split; [done|]. by apply get_rhs_add_seq.
Qed.

Lemma get_rhs_build_set rules rules' (k : key) :
  (list_to_set rules : gset (list string * list string)) = list_to_set rules' →
  get_rhs (build rules) k = get_rhs (build rules') k.
Proof.
  intros Hset.
  assert (∀ r, r ∈ rules ↔ r ∈ rules') as Hiff.
  { intros r. by rewrite <-!(elem_of_list_to_set (C := gset _)), Hset. }
  assert (∀ path, path ≠ [] →
            get_rhs (build rules) (KSeq path) = get_rhs (build rules') (KSeq path))
    as Hseq.
  { intros path Hne.
    destruct (get_rhs_build rules path Hne) as (rs & -> & Hrs).
    destruct (get_rhs_build rules' path Hne) as (rs' & -> & Hrs').
    f_equal. apply set_eq. intros rhs. by rewrite Hrs, Hrs', Hiff. }
  destruct k as [token|[|token path]].
  - rewrite !get_rhs_token. by apply Hseq.
  - done.
  - by apply Hseq.
Qed.

(** ** The index of a built dictionary *)

Lemma build_index_entries rules token (pair : list string * list string) :
  pair ∈ index_entries (build rules) token ↔
    ∃ lhs rhs (i : nat),
      (lhs, rhs) ∈ rules ∧ 0 < i < length lhs - 1 ∧ lhs !! i = Some token ∧
      pair = (take i lhs, drop (S i) lhs).
Proof.
  induction rules as [|[lhs rhs] rules IH] using rev_ind.
  - unfold index_entries. simpl. rewrite lookup_empty. simpl. split.
    + by intros ?%not_elem_of_empty.
    + by intros (? & ? & ? & ?%elem_of_nil & _).
  - rewrite build_snoc. simpl. rewrite add_index_entries_iff, IH. split.
    + intros [(l & r & i & Hin & Hrest)|(i & Hi & Hlk & ->)].
      * exists l, r, i. split; [|done]. apply elem_of_app. by left.
      * exists lhs, rhs, i. split_and!; try (done || lia).
        apply elem_of_app. right. by apply list_elem_of_singleton.
    + intros (l & r & i & Hin & Hi & Hlk & ->).
      apply elem_of_app in Hin as [Hin|[= -> ->]%list_elem_of_singleton].
      * left. by exists l, r, i.
      * right. by exists i.
Qed.

Lemma build_index_consistent rules token before after :
  (before, after) ∈ index_entries (build rules) token →
  before ≠ [] ∧ after ≠ [] ∧
  before ++ token :: after ∈ rules.*1 ∧
  ∃ rs, get_rhs (build rules) (KSeq (before ++ token :: after)) = Ret rs ∧ rs ≠ ∅.
Proof.
  intros Hin.
  destruct (build_index_nonempty rules token _ Hin) as [Hb Ha]. simpl in *.
  apply build_index_entries in Hin as (lhs & rhs & i & Hin & Hi & Hlk & [= -> ->]).
  rewrite (take_drop_middle _ _ _ Hlk).
  split_and!; [done..| |].
  - apply list_elem_of_fmap. by exists (lhs, rhs).
  - destruct (get_rhs_build rules lhs) as (rs & Hrs & Hmem).
    { intros ->. simpl in Hi. lia. }
    exists rs. split; [done|]. intros ->.
    by apply (not_elem_of_empty (C := RuleSet) rhs), Hmem.
Qed.

(** ** The paths of a built dictionary *)

Lemma has_path_new path : has_path new_dict path ↔ path = [].
Proof. by destruct path. Qed.

Lemma has_path_index its idx idx' path :
  has_path (TDict its idx) path ↔ has_path (TDict its idx') path.
Proof. by destruct path. Qed.

Lemma add_loop_has_path lhs rhs path :
  ∀ tokens i d idx,
    has_path (add_loop lhs rhs i tokens d idx).1 path ↔
      has_path d path ∨ path `prefix_of` tokens.
Proof.
  induction path as [|t path IH]; intros tokens i d idx.
  - simpl. split; [by left|done].
  - destruct tokens as [|token tokens].
    { simpl. split; [by left|]. intros [?|Hpre]; [done|].
      by apply prefix_nil_inv in Hpre. }
    rewrite add_loop_cons. cbv zeta. cbn [fst has_path].
    rewrite dict_lookup_store.
    destruct (decide (token = t)) as [-> |Hne].
    + rewrite IH. destruct (dict_lookup d t) as [[rs0 sub0]|] eqn:Hlk; simpl.
      * split; (intros [?|Hpre]; [by left|right]).
        -- by apply prefix_cons.
        -- by apply prefix_cons_inv_2 in Hpre.
      * rewrite has_path_new. split.
        -- intros [-> |Hpre]; right; apply prefix_cons; [apply prefix_nil|done].
        -- intros [Hf|Hpre]; [done|]. right. by apply prefix_cons_inv_2 in Hpre.
    + split; [by left|]. intros [?|Hpre]; [done|].
      by apply prefix_cons_inv_1 in Hpre.
Qed.

Lemma add_has_path self lhs rhs path :
  has_path (add self lhs rhs) path ↔ has_path self path ∨ path `prefix_of` lhs.
Proof.
  destruct lhs as [|token lhs].
  { rewrite add_nil. split; [by left|]. intros [?|Hpre]; [done|].
    apply prefix_nil_inv in Hpre as ->. done. }
  rewrite add_unfold by done.
  rewrite <-(add_loop_has_path (token :: lhs) rhs path (token :: lhs) 0%Z self (index self)).
  destruct (add_loop _ _ _ _ _ _).1 as [its idx]. apply has_path_index.
Qed.

Lemma build_has_path rules path :
  has_path (build rules) path ↔
    path = [] ∨ ∃ lhs, lhs ∈ rules.*1 ∧ path `prefix_of` lhs.
Proof.
  induction rules as [|[lhs rhs] rules IH] using rev_ind.
  - change (build []) with new_dict. rewrite has_path_new. split; [by left|].
    intros [?|(l & ?%elem_of_nil & _)]; done.
  - rewrite build_snoc, add_has_path, IH, fmap_app. simpl. split.
    + intros [[?|(l & Hl & Hpre)]|Hpre]; [by left| |].
      * right. exists l. split; [|done]. apply elem_of_app. by left.
      * right. exists lhs. split; [|done]. apply elem_of_app. right.
        by apply list_elem_of_singleton.
    + intros [?|(l & Hl & Hpre)]; [by left; left|].
      apply elem_of_app in Hl as [Hl| ->%list_elem_of_singleton].
      * left. right. by exists l.
      * by right.
Qed.

Lemma has_path_snoc d path token :
  has_path d (path ++ [token]) ↔
    has_path d path ∧ is_Some (dict_lookup (subdict_at d path) token).
Proof.
  revert d. induction path as [|t path IH]; intros d; simpl.
  - destruct (dict_lookup d token) as [[rs sub]|]; split; try done.
    intros [_ [? [=]]].
  - destruct (dict_lookup d t) as [[rs sub]|]; [apply IH|]. split; [done|by intros []].
Qed.

Lemma items_nil_lookup d : items d = [] ↔ ∀ token, dict_lookup d token = None.
Proof.
  destruct d as [its idx]. unfold dict_lookup. simpl. split; [by intros ->|].
  destruct its as [|[k v] its]; [done|]. intros Hall. specialize (Hall k).
  simpl in Hall. by rewrite decide_True in Hall.
Qed.

Lemma dict_lookup_elem_of d token rs sub :
  distinct_keys d →
  dict_lookup d token = Some (rs, sub) ↔ (token, (rs, sub)) ∈ items d.
Proof.
  inversion 1 as [its idx Hkeys Hsubs]; subst. unfold dict_lookup. simpl. split.
  - apply items_lookup_elem_of.
  - by apply items_lookup_NoDup.
Qed.

(** A leaf path is a path of the dictionary that cannot be continued. *)
Lemma leaf_path_has_path d path :
  distinct_keys d →
  leaf_path d path ↔
    path ≠ [] ∧ has_path d path ∧ items (subdict_at d path) = [].
Proof.
  intros Hd. split.
  - induction 1 as [d key rs sub Hin Hnil|d key rs sub p Hin Hp IH].
    + apply dict_lookup_elem_of in Hin; [|done]. simpl. by rewrite Hin.
    + pose proof Hin as Hlk. apply dict_lookup_elem_of in Hlk; [|done].
      destruct IH as (_ & Hpath & Hnil); [by eapply dict_lookup_distinct|].
      simpl. by rewrite Hlk.
  - revert d Hd. induction path as [|t path IH]; intros d Hd (Hne & Hpath & Hnil);
      [done|].
    simpl in Hpath, Hnil.
    destruct (dict_lookup d t) as [[rs sub]|] eqn:Hlk; [|done].
    pose proof Hlk as Hin. apply dict_lookup_elem_of in Hin; [|done].
    destruct path as [|t' path].
    + by eapply leaf_path_last.
    + eapply leaf_path_step; [done|]. apply IH; [by eapply dict_lookup_distinct|done].
Qed.

(** In a built dictionary the leaf paths are the inserted left-hand sides
    that no other inserted left-hand side continues. *)
Lemma build_leaf_path rules path :
  leaf_path (build rules) path ↔
    path ≠ [] ∧ path ∈ rules.*1 ∧
    ∀ lhs, lhs ∈ rules.*1 → path `prefix_of` lhs → lhs = path.
Proof.
  rewrite leaf_path_has_path by apply build_distinct.
  rewrite items_nil_lookup. split.
  - intros (Hne & Hpath & Hnil).
    assert (∀ lhs, lhs ∈ rules.*1 → path `prefix_of` lhs → lhs = path) as Hmax.
    { intros lhs Hlhs [k ->]. destruct k as [|t k]; [by rewrite app_nil_r|].
      exfalso. specialize (Hnil t).
      assert (has_path (build rules) (path ++ [t])) as Hsnoc.
      { apply build_has_path. right. exists (path ++ t :: k). split; [done|].
        exists k. by rewrite <-app_assoc. }
      apply has_path_snoc in Hsnoc as [_ [? Hsome]]. congruence. }
    split_and!; [done| |done].
    apply build_has_path in Hpath as [?|(lhs & Hlhs & Hpre)]; [done|].
    by rewrite <-(Hmax lhs Hlhs Hpre).
  - intros (Hne & Hin & Hmax). split_and!; [done| |].
    + apply build_has_path. right. by exists path.
    + intros token. destruct (dict_lookup _ token) as [v|] eqn:Hlk; [|done].
      exfalso.
      assert (has_path (build rules) (path ++ [token])) as Hsnoc.
      { apply has_path_snoc. split; [|by eexists].
        apply build_has_path. right. by exists path. }
      apply build_has_path in Hsnoc as [Hnil|(lhs & Hlhs & Hpre)].
      * by destruct path.
      * assert (path `prefix_of` lhs) as Hpre'.
        { etrans; [|done]. by apply prefix_app_r. }
        rewrite (Hmax lhs Hlhs Hpre') in Hpre.
        apply prefix_length in Hpre. rewrite length_app in Hpre. simpl in Hpre. lia.
Qed.

Lemma leaf_path_subdict_at d path path' :
  distinct_keys d →
  leaf_path (subdict_at d path) path' → leaf_path d (path ++ path').
Proof.
  intros Hd Hleaf.
  assert (has_path d path) as Hpath.
  { clear Hd. revert d Hleaf. induction path as [|t path IH]; intros d Hleaf; [done|].
    simpl in *. destruct (dict_lookup d t) as [[rs sub]|]; [by apply IH|].
    inversion Hleaf as [? ? ? ? Hin|? ? ? ? ? Hin]; subst; by apply elem_of_nil in Hin. }
  apply leaf_path_has_path in Hleaf as (Hne & Hpath' & Hnil);
    [|by apply subdict_at_distinct].
  apply leaf_path_has_path; [done|]. split_and!.
  - by destruct path, path'.
  - clear Hnil Hd. revert d Hpath Hpath'.
    induction path as [|t path IH]; intros d Hpath Hpath'; [done|].
    simpl in *. destruct (dict_lookup d t) as [[rs sub]|]; [by apply IH|done].
  - by rewrite subdict_at_app.
Qed.

(** ** Inserting a rule twice *)

Lemma items_store_store its token v w :
  items_store (items_store its token v) token w = items_store its token w.
Proof.
  induction its as [|[k u] its IH]; simpl.
  - by rewrite decide_True.
  - destruct (decide (k = token)) as [->|Hne]; simpl.
    + by rewrite decide_True.
    + by rewrite decide_False, IH.
Qed.

Lemma dict_store_store d token v w :
  dict_store (dict_store d token v) token w = dict_store d token w.
Proof. unfold dict_store. simpl. by rewrite items_store_store. Qed.

Lemma add_loop_fst_twice lhs rhs tokens :
  ∀ i d idx idx',
    (add_loop lhs rhs i tokens (add_loop lhs rhs i tokens d idx).1 idx').1 =
    (add_loop lhs rhs i tokens d idx).1.
Proof.
  induction tokens as [|token tokens IH]; intros i d idx idx'; [done|].
  rewrite (add_loop_cons _ _ _ _ _ d). cbv zeta. cbn [fst].
  rewrite add_loop_cons. cbv zeta. cbn [fst].
  rewrite dict_lookup_store.
  destruct (decide (token = token)) as [_|]; [|done].
  cbn [default from_option id fst snd].
  rewrite dict_store_store. f_equal. f_equal.
  - destruct tokens; [|done]. by rewrite <-(assoc_L (∪)), (idemp_L (∪)).
  - apply IH.
Qed.

Lemma index_record_twice idx token (pair : list string * list string) :
  index_record (index_record idx token pair) token pair = index_record idx token pair.
Proof.
  unfold index_record. rewrite lookup_insert_eq, insert_insert_eq. simpl.
  by rewrite <-(assoc_L (∪)), (idemp_L (∪)).
Qed.

Lemma index_record_comm idx token token' (pair pair' : list string * list string) :
  index_record (index_record idx token pair) token' pair' =
  index_record (index_record idx token' pair') token pair.
Proof.
  unfold index_record. destruct (decide (token = token')) as [->|Hne].
  - rewrite !lookup_insert_eq, !insert_insert_eq. simpl. f_equal.
    rewrite <-!(assoc_L (∪)). f_equal. apply (comm_L (∪)).
  - rewrite !lookup_insert_ne by done. by apply insert_insert_ne.
Qed.

(** The index that the loop of [add] returns does not depend on the
    dictionary, and recording one more pair before or after the loop gives
    the same index. *)
Lemma add_loop_snd_record lhs rhs tokens :
  ∀ i d d' idx token (pair : list string * list string),
    (add_loop lhs rhs i tokens d (index_record idx token pair)).2 =
    index_record (add_loop lhs rhs i tokens d' idx).2 token pair.
Proof.
  induction tokens as [|t tokens IH]; intros i d d' idx token pair; [done|].
  rewrite !add_loop_cons. cbv zeta. cbn [snd].
  case_decide; [|apply IH].
  rewrite index_record_comm. apply IH.
Qed.

Lemma add_loop_snd_twice lhs rhs tokens :
  ∀ i d d' idx,
    (add_loop lhs rhs i tokens d' (add_loop lhs rhs i tokens d idx).2).2 =
    (add_loop lhs rhs i tokens d idx).2.
Proof.
  induction tokens as [|t tokens IH]; intros i d d' idx; [done|].
  rewrite (add_loop_cons _ _ _ _ _ d). cbv zeta. cbn [snd].
  rewrite add_loop_cons. cbv zeta. cbn [snd].
  case_decide; [|apply IH].
  match goal with
  | |- context [index_record (add_loop lhs rhs ?j tokens ?e ?x).2 ?tk ?p] =>
      rewrite <-(add_loop_snd_record lhs rhs tokens j e e x tk p)
  end.
  rewrite index_record_twice. apply IH.
Qed.

Lemma add_loop_items_index lhs rhs i tokens its idx0 idx0' idx :
  items (add_loop lhs rhs i tokens (TDict its idx0) idx).1 =
  items (add_loop lhs rhs i tokens (TDict its idx0') idx).1.
Proof. destruct tokens; [done|]. by rewrite !add_loop_cons. Qed.

Lemma add_twice_same self lhs rhs :
  add (add self lhs rhs) lhs rhs = add self lhs rhs.
Proof.
  destruct lhs as [|token lhs]; [done|].
  rewrite (add_unfold (add self _ _)) by done.
  rewrite (add_unfold self) by done. cbn [index].
  set (r := add_loop (token :: lhs) rhs 0 (token :: lhs) self (index self)).
  f_equal.
  - rewrite (add_loop_items_index _ _ _ _ _ _ (index r.1)).
    replace (TDict (items r.1) (index r.1)) with r.1 by (by destruct r.1).
    unfold r. by rewrite add_loop_fst_twice.
  - unfold r. apply add_loop_snd_twice.
Qed.


Lemma has_path_app d path path' :
  has_path d (path ++ path') ↔ has_path d path ∧ has_path (subdict_at d path) path'.
Proof.
  revert d. induction path as [|t path IH]; intros d; simpl.
  - tauto.
  - destruct (dict_lookup d t) as [[rs sub]|]; [apply IH|]. tauto.
Qed.

Lemma leaf_path_subdict_at_iff d path path' :
  distinct_keys d → has_path d path → path' ≠ [] →
  leaf_path (subdict_at d path) path' ↔ leaf_path d (path ++ path').
Proof.
  intros Hd Hpath Hne. split; [by apply leaf_path_subdict_at|].
  intros (_ & Hall & Hnil)%leaf_path_has_path; [|done].
  apply leaf_path_has_path; [by apply subdict_at_distinct|].
  apply has_path_app in Hall as [_ Hp']. by rewrite <-subdict_at_app.
Qed.

(** The result of [find_partial_expression] on a built dictionary, in terms
    of the inserted rules. *)
Lemma find_partial_expression_rules rules first_token sought_lhs_tail :
  ∃ contexts,
    find_partial_expression (build rules) (first_token :: sought_lhs_tail)
      = Ret contexts ∧
    NoDup contexts ∧
    ∀ head path,
      (head, path) ∈ contexts ↔
        head ≠ [] ∧ sought_lhs_tail ≠ [] ∧ path ≠ [] ∧
        head ++ first_token :: sought_lhs_tail ∈ rules.*1 ∧
        (head ++ first_token :: sought_lhs_tail) ++ path ∈ rules.*1 ∧
        ∀ lhs, lhs ∈ rules.*1 →
               (head ++ first_token :: sought_lhs_tail) ++ path `prefix_of` lhs →
               lhs = (head ++ first_token :: sought_lhs_tail) ++ path.
Proof.
  destruct (find_partial_expression_build rules first_token sought_lhs_tail)
    as (contexts & Hret & _ & Hnodup & Hmem).
  exists contexts. split_and!; [done..|]. intros head path. rewrite Hmem.
  set (p := head ++ first_token :: sought_lhs_tail).
  split.
  - intros [Hidx Hleaf].
    apply build_index_consistent in Hidx as (Hhead & Htail & Hlhs & _).
    assert (path ≠ []) as Hpath by (by destruct Hleaf).
    apply leaf_path_subdict_at in Hleaf; [|apply build_distinct].
    apply build_leaf_path in Hleaf as (_ & Hin & Hmax). done.
  - intros (Hhead & Htail & Hpath & Hlhs & Hin & Hmax). split.
    + apply build_index_entries.
      apply list_elem_of_fmap in Hlhs as ([lhs rhs] & Heq & Hlhs). simpl in Heq.
      exists lhs, rhs, (length head). subst lhs. unfold p.
      split_and!; [done| | | |].
      * destruct head; simpl; [done|lia].
      * rewrite length_app. simpl. destruct sought_lhs_tail; simpl; [done|lia].
      * by rewrite lookup_app_r, Nat.sub_diag by lia.
      * rewrite take_app_length. f_equal.
        by rewrite (cons_middle first_token), (assoc_L (++)),
          (drop_app_length' (head ++ [first_token]))
          by (rewrite length_app; simpl; lia).
    + apply leaf_path_subdict_at_iff; [apply build_distinct| |done|].
      * apply build_has_path. right. by exists p.
      * apply build_leaf_path. split_and!; [by destruct p, path|done..].
Qed.

End trie_paths.

(** * The store model *)

(** ** The queries change no object *)

Section store_read_only.
Import Store.
Implicit Types (h : heap) (d self : addr).

Lemma bind_unfold {A B} (m : M A) (f : A → M B) h :
  (m ≫= f) h =
    match m h with
    | (Returns a, h') => f a h'
    | (Raises e, h') => (Raises e, h')
    | (NoFuel, h') => (NoFuel, h')
    | (NoObject, h') => (NoObject, h')
    end.
Proof. done. Qed.

Lemma extends_ret {A} (a : A) : extends (mret a).
Proof. by intros h. Qed.

Lemma extends_bind {A B} (m : M A) (f : A → M B) :
  extends m → (∀ a, extends (f a)) → extends (m ≫= f).
Proof.
  intros Hm Hf h. rewrite bind_unfold. specialize (Hm h).
  destruct (m h) as [[a| | |] h']; simpl in *; [|done..].
  etrans; [done|]. apply Hf.
Qed.

Lemma extends_raise {A} e : extends (@raise A e).
Proof. by intros h. Qed.

Lemma extends_no_fuel {A} : extends (@no_fuel A).
Proof. by intros h. Qed.

Lemma extends_no_object {A} : extends (@no_object A).
Proof. by intros h. Qed.

Lemma extends_pure {A} (r : result A) : extends (pure r).
Proof. by intros h. Qed.

Lemma extends_alloc o : extends (alloc o).
Proof. intros h. by apply prefix_app_r. Qed.

Lemma extends_read a : extends (read a).
Proof. by intros h. Qed.

Lemma extends_read_dict a : extends (read_dict a).
Proof.
  apply extends_bind; [apply extends_read|].
  intros []; (apply extends_ret || apply extends_no_object).
Qed.

Lemma extends_read_index a : extends (read_index a).
Proof.
  apply extends_bind; [apply extends_read|].
  intros []; (apply extends_ret || apply extends_no_object).
Qed.

Lemma extends_read_pairs a : extends (read_pairs a).
Proof.
  apply extends_bind; [apply extends_read|].
  intros []; (apply extends_ret || apply extends_no_object).
Qed.

Lemma extends_new_dict : extends new_dict.
Proof. apply extends_bind; [apply extends_alloc|]. intros ix. apply extends_alloc. Qed.

Lemma extends_empty_pair : extends empty_pair.
Proof.
  apply extends_bind; [apply extends_alloc|]. intros rs.
  apply extends_bind; [apply extends_new_dict|]. intros d. apply extends_ret.
Qed.

Lemma extends_getitem_token self lhs : extends (getitem_token self lhs).
Proof.
  apply extends_bind; [apply extends_read_dict|]. intros [its ix].
  destruct (entry_lookup its lhs); [apply extends_ret|apply extends_empty_pair].
Qed.

Lemma extends_getitem_loop lhs : ∀ d rule_set, extends (getitem_loop d rule_set lhs).
Proof.
  induction lhs as [|token lhs IH]; intros d rule_set; simpl.
  - destruct rule_set; [apply extends_ret|apply extends_raise].
  - apply extends_bind; [apply extends_read_dict|]. intros [its ix].
    destruct (entry_lookup its token); [|apply extends_empty_pair].
    apply extends_bind; [apply extends_getitem_token|]. intros [rs d']. apply IH.
Qed.

Lemma extends_getitem self lhs : extends (__getitem__ self lhs).
Proof. destruct lhs; [apply extends_getitem_token|apply extends_getitem_loop]. Qed.

Lemma extends_get_rhs self lhs : extends (get_rhs self lhs).
Proof. apply extends_bind; [apply extends_getitem|]. intros p. apply extends_ret. Qed.

Lemma extends_get_subdict self lhs : extends (get_subdict self lhs).
Proof. apply extends_bind; [apply extends_getitem|]. intros p. apply extends_ret. Qed.

Lemma extends_paths_loop (find_all_paths : addr → M (list (list string))) d keys :
  (∀ sub, extends (find_all_paths sub)) →
  ∀ paths, extends (paths_loop find_all_paths d keys paths).
Proof.
  intros Hrec. induction keys as [|key keys IH]; intros paths; [apply extends_ret|].
  cbn [paths_loop].
  apply extends_bind; [apply extends_getitem_token|]. intros [rs sub].
  apply extends_bind; [apply Hrec|]. intros sub_paths. apply IH.
Qed.

Lemma extends_find_all_paths fuel : ∀ d, extends (find_all_paths fuel d).
Proof.
  induction fuel as [|fuel IH]; intros d; [apply extends_no_fuel|].
  cbn [find_all_paths].
  apply extends_bind; [apply extends_read_dict|]. intros [its ix].
  by apply extends_paths_loop.
Qed.

Lemma extends_descend tokens : ∀ d, extends (descend d tokens).
Proof.
  induction tokens as [|token tokens IH]; intros d; [apply extends_ret|].
  simpl. apply extends_bind; [apply extends_getitem_token|]. intros [rs d']. apply IH.
Qed.

Lemma extends_contexts_loop fuel self first_token sought_lhs_tail lhs_heads :
  ∀ contexts,
    extends (contexts_loop fuel self first_token sought_lhs_tail lhs_heads contexts).
Proof.
  induction lhs_heads as [|lhs_head lhs_heads IH]; intros contexts;
    [apply extends_ret|].
  cbn [contexts_loop].
  apply extends_bind; [apply extends_getitem|]. intros [rs0 d0].
  apply extends_bind; [apply extends_getitem_token|]. intros [rs1 d1].
  apply extends_bind; [apply extends_descend|]. intros d.
  apply extends_bind; [apply extends_find_all_paths|]. intros contexts_after.
  apply IH.
Qed.

Lemma extends_find_partial_expression_fuel fuel self partial :
  extends (find_partial_expression_fuel fuel self partial).
Proof.
  apply extends_bind; [apply extends_pure|]. intros first_token.
  apply extends_bind; [apply extends_read_dict|]. intros [its ix].
  apply extends_bind; [apply extends_read_index|]. intros entries.
  destruct (entries !! first_token) as [pa|]; [|apply extends_ret].
  apply extends_bind; [apply extends_read_pairs|]. intros ps.
  apply extends_contexts_loop.
Qed.

Lemma extends_find_partial_expression self partial :
  extends (find_partial_expression self partial).
Proof. intros h. apply extends_find_partial_expression_fuel. Qed.

End store_read_only.

(** ** The queries of the store and of the values agree *)

Section store_values.
Import Store.
Implicit Types (h : heap) (d : TransformationDict).

Lemma depth_unfold its idx :
  depth (TDict its idx) = S (max_list ((λ e, depth e.2.2) <$> its)).
Proof.
  unfold depth. f_equal. induction its as [|[k [rs sub]] its IH]; [done|].
  cbn [fmap list_fmap max_list foldr fst snd]. by rewrite <-IH.
Qed.

Lemma depth_new_dict : depth Trie.new_dict = 1.
Proof. done. Qed.

Lemma depth_pos d : 1 ≤ depth d.
Proof. destruct d. rewrite depth_unfold. lia. Qed.

Lemma depth_item its idx e : e ∈ its → depth e.2.2 < depth (TDict its idx).
Proof.
  intros He. rewrite depth_unfold.
  assert (depth e.2.2 ≤ max_list ((λ e, depth e.2.2) <$> its)); [|lia].
  apply max_list_elem_of_le, list_elem_of_fmap. by exists e.
Qed.

Lemma refines_bind {A B A' B'} (R : heap → A → B → Prop)
    (R' : heap → A' → B' → Prop) h (m : M A) (r : result B)
    (f : A → M A') (g : B → result B') :
  refines R h m r →
  (∀ h' x y, h `prefix_of` h' → R h' x y → refines R' h' (f x) (g y)) →
  refines R' h (m ≫= f) (r ≫= g).
Proof.
  unfold refines. intros Hm Hf. rewrite bind_unfold.
  destruct (m h) as [[x|e'| |] h1], r as [y|e|]; try done.
  - destruct Hm as [Hpre HR]. specialize (Hf h1 x y Hpre HR). simpl.
    destruct (f x h1) as [[x'|e'| |] h2], (g y) as [y'|e|]; try done.
    + destruct Hf as [Hpre' HR']. split; [by etrans|done].
    + destruct Hf as [-> Hpre']. split; [done|by etrans].
Qed.

Lemma refines_ret {A B} (R : heap → A → B → Prop) h x y :
  R h x y → refines R h (mret x) (Ret y).
Proof. by split. Qed.

Lemma refines_weaken {A B} (R R' : heap → A → B → Prop) h m r :
  refines R h m r → (∀ h' x y, h `prefix_of` h' → R h' x y → R' h' x y) →
  refines R' h m r.
Proof.
  unfold refines. intros Hm HR.
  destruct (m h) as [[x|e'| |] h1], r as [y|e|]; try done.
  destruct Hm as [Hpre Hxy]. split; [done|by apply HR].
Qed.

Lemma repr_prefix h h' : h `prefix_of` h' → ∀ d a, repr h a d → repr h' a d.
Proof.
  intros Hpre d. induction d as [its idx IH] using TransformationDict_nested_ind.
  intros a Hrepr.
  inversion Hrepr as [? hits ix entries ? ? Ha Hix Hidx Hkeys Hitems]; subst.
  clear Hrepr. apply (repr_intro h' a hits ix entries);
    [by eapply prefix_lookup_Some|by eapply prefix_lookup_Some| |done|].
  - intros token. specialize (Hidx token). destruct (entries !! token); [|done].
    destruct Hidx as (ps & Hps & Hlk). exists ps. split; [|done].
    by eapply prefix_lookup_Some.
  - clear Ha Hkeys. induction Hitems as [|he e hits its (Hk & Hrs & Hsub) Hitems IHitems];
      constructor.
    + apply Forall_cons in IH as [IHe _].
      split_and!; [done|by eapply prefix_lookup_Some|by apply IHe].
    + apply IHitems. by apply Forall_cons in IH as [_ ?].
Qed.

Lemma pair_repr_prefix h h' p q :
  h `prefix_of` h' → pair_repr h p q → pair_repr h' p q.
Proof.
  intros Hpre [Hrs Hd]. split; [by eapply prefix_lookup_Some|by eapply repr_prefix].
Qed.

Lemma new_dict_run h :
  new_dict h = (Returns (S (length h)), h ++ [OIndex ∅; ODict [] (length h)]).
Proof.
  unfold new_dict. rewrite bind_unfold. unfold alloc at 1. simpl.
  unfold alloc. rewrite length_app. simpl.
  by rewrite <-(assoc_L (++)), Nat.add_1_r.
Qed.

Lemma repr_new_dict h :
  repr (h ++ [OIndex ∅; ODict [] (length h)]) (S (length h)) Trie.new_dict.
Proof.
  apply (repr_intro _ _ [] (length h) ∅).
  - rewrite lookup_app_r by lia. by replace (S (length h) - length h) with 1 by lia.
  - rewrite lookup_app_r by lia. by rewrite Nat.sub_diag.
  - intros token. by rewrite !lookup_empty.
  - constructor.
  - constructor.
Qed.

Lemma empty_pair_refines h :
  refines pair_repr h empty_pair (Ret (∅, Trie.new_dict)).
Proof.
  unfold refines, empty_pair. rewrite bind_unfold. unfold alloc at 1.
  rewrite bind_unfold, new_dict_run. simpl. split.
  - rewrite <-(assoc_L (++)). by apply prefix_app_r.
  - split; simpl.
    + rewrite <-(assoc_L (++)), lookup_app_r by lia. by rewrite Nat.sub_diag.
    + apply (repr_new_dict (h ++ [OSet ∅])).
Qed.

Lemma read_dict_run h a hits ix :
  h !! a = Some (ODict hits ix) → read_dict a h = (Returns (hits, ix), h).
Proof. intros Ha. unfold read_dict. rewrite bind_unfold. unfold read. by rewrite Ha. Qed.

Lemma read_index_run h a entries :
  h !! a = Some (OIndex entries) → read_index a h = (Returns entries, h).
Proof. intros Ha. unfold read_index. rewrite bind_unfold. unfold read. by rewrite Ha. Qed.

Lemma read_pairs_run h a ps :
  h !! a = Some (OPairs ps) → read_pairs a h = (Returns ps, h).
Proof. intros Ha. unfold read_pairs. rewrite bind_unfold. unfold read. by rewrite Ha. Qed.

(** The items of the store and of the value, looked up by key. *)
Lemma entry_lookup_repr h hits its token :
  Forall2 (λ he e, he.1 = e.1 ∧ h !! he.2.1 = Some (OSet e.2.1) ∧
                   repr h he.2.2 e.2.2) hits its →
  match items_lookup its token with
  | Some q => ∃ p, entry_lookup hits token = Some p ∧ pair_repr h p q ∧
                   ∃ k, (k, q) ∈ its
  | None => entry_lookup hits token = None
  end.
Proof.
  induction 1 as [|[hk [sa da]] [k [rs sub]] hits its (Hk & Hrs & Hsub) Hitems IH];
    [done|].
  simpl in *. subst hk. destruct (decide (k = token)) as [->|Hne].
  - exists (sa, da). split_and!; [done|by split|]. exists token. by left.
  - destruct (items_lookup its token) as [q|]; [|done].
    destruct IH as (p & Hp & Hpq & k' & Hin). exists p. split_and!; [done..|].
    exists k'. by right.
Qed.

Lemma getitem_token_refines (n : nat) h a d token :
  repr h a d → depth d ≤ n →
  refines (λ h' p q, pair_repr h' p q ∧ depth q.2 ≤ n) h
    (Store.getitem_token a token) (Trie.getitem_token d token).
Proof.
  intros Hrepr Hn.
  inversion Hrepr as [? hits ix entries its idx Ha Hix Hidx Hkeys Hitems]; subst.
  unfold refines, Store.getitem_token, Trie.getitem_token, dict_lookup.
  rewrite bind_unfold, (read_dict_run _ _ _ _ Ha). simpl.
  pose proof (entry_lookup_repr h hits its token Hitems) as Hlk.
  destruct (items_lookup its token) as [q|].
  - destruct Hlk as (p & -> & Hpq & k & Hin). simpl. split_and!; [done..|].
    pose proof (depth_item its idx _ Hin) as Hlt. simpl in Hlt. lia.
  - rewrite Hlk.
    pose proof (empty_pair_refines h) as Hempty. unfold refines in Hempty.
    destruct (empty_pair h) as [[p|e| |] h']; try done.
    destruct Hempty as [Hpre Hp]. split_and!; [done..|].
    simpl. rewrite depth_new_dict. pose proof (depth_pos (TDict its idx)). lia.
Qed.

Lemma getitem_loop_refines (n : nat) lhs :
  ∀ h a d (ho : option addr) (o : option RuleSet),
    repr h a d → depth d ≤ n →
    match ho, o with
    | Some sa, Some rs => h !! sa = Some (OSet rs)
    | None, None => True
    | _, _ => False
    end →
    refines (λ h' p q, pair_repr h' p q ∧ depth q.2 ≤ n) h
      (Store.getitem_loop a ho lhs) (Trie.getitem_loop d o lhs).
Proof.
  induction lhs as [|token lhs IH]; intros h a d ho o Hrepr Hn Ho.
  - simpl. destruct ho as [sa|], o as [rs|]; [by apply refines_ret|done..].
  - cbn [Store.getitem_loop Trie.getitem_loop].
    inversion Hrepr as [? hits ix entries its idx Ha Hix Hidx Hkeys Hitems]; subst.
    unfold dict_lookup. cbn [items].
    pose proof (entry_lookup_repr h hits its token Hitems) as Hlk.
    unfold refines at 1. rewrite bind_unfold, (read_dict_run _ _ _ _ Ha).
    destruct (items_lookup its token) as [q|] eqn:Hq.
    + destruct Hlk as (p & Hp & _). rewrite Hp.
      fold (refines (λ h' p q, pair_repr h' p q ∧ depth q.2 ≤ n) h
              (Store.getitem_token a token ≫= λ '(rs, d'), Store.getitem_loop d' (Some rs) lhs)
              (Trie.getitem_token (TDict its idx) token ≫=
                 λ '(rs, d'), Trie.getitem_loop d' (Some rs) lhs)).
      eapply refines_bind; [by apply getitem_token_refines|].
      intros h' [sa da] [rs sub] Hpre [[Hrs Hsub] Hdepth]. simpl in *.
      by apply IH.
    + rewrite Hlk.
      pose proof (empty_pair_refines h) as Hempty. unfold refines in Hempty.
      destruct (empty_pair h) as [[p|e| |] h']; try done.
      destruct Hempty as [Hpre Hp]. split_and!; [done..|].
      simpl. rewrite depth_new_dict. pose proof (depth_pos (TDict its idx)). lia.
Qed.

Lemma getitem_refines (n : nat) h a d lhs :
  repr h a d → depth d ≤ n →
  refines (λ h' p q, pair_repr h' p q ∧ depth q.2 ≤ n) h
    (Store.__getitem__ a lhs) (Trie.__getitem__ d lhs).
Proof.
  intros Hrepr Hn. destruct lhs as [token|lhs].
  - by apply getitem_token_refines.
  - by apply getitem_loop_refines.
Qed.


Lemma entry_lookup_NoDup (hits : list (string * (addr * addr))) k v :
  NoDup hits.*1 → (k, v) ∈ hits → entry_lookup hits k = Some v.
Proof.
  induction hits as [|[k' v'] hits IH]; simpl; [by intros _ ?%elem_of_nil|].
  intros [Hnotin Hnodup]%NoDup_cons [[= -> ->]|Hin]%elem_of_cons.
  - by rewrite decide_True.
  - rewrite decide_False; [by apply IH|].
    intros ->. apply Hnotin. apply list_elem_of_fmap. by exists (k, v).
Qed.

Lemma paths_loop_run h a hits ix (rec : addr → M (list (list string))) :
  h !! a = Some (ODict hits ix) → NoDup hits.*1 →
  ∀ rest its_rest paths,
    (∀ he, he ∈ rest → he ∈ hits) →
    Forall2 (λ (he : string * (addr * addr))
               (e : string * (RuleSet * TransformationDict)),
               he.1 = e.1 ∧
               rec he.2.2 h = (Returns (Trie.find_all_paths e.2.2), h))
      rest its_rest →
    paths_loop rec a rest.*1 paths h =
      (Returns
         (paths ++
          (its_rest ≫= λ e, paths_under e.1 (Trie.find_all_paths e.2.2))), h).
Proof.
  intros Ha Hkeys rest its_rest paths Hsub Hrel. revert paths.
  induction Hrel as [|[k [sa da]] [k' [rs sub]] rest its_rest [Hk Hrec] Hrel IH];
    intros paths.
  - simpl. by rewrite app_nil_r.
  - simpl in Hk, Hrec. subst k'. csimpl. cbn [paths_loop].
    rewrite bind_unfold. unfold Store.getitem_token.
    rewrite bind_unfold, (read_dict_run _ _ _ _ Ha).
    rewrite (entry_lookup_NoDup hits k (sa, da)); [|done|apply Hsub; by left].
    simpl. rewrite bind_unfold, Hrec.
    rewrite IH by (intros he Hhe; apply Hsub; by right).
    by rewrite (assoc_L (++)).
Qed.

Lemma find_all_paths_run (fuel : nat) :
  ∀ d h a, repr h a d → depth d ≤ fuel →
    Store.find_all_paths fuel a h = (Returns (Trie.find_all_paths d), h).
Proof.
  induction fuel as [|fuel IH]; intros d h a Hrepr Hfuel.
  { pose proof (depth_pos d). lia. }
  inversion Hrepr as [? hits ix entries its idx Ha Hix Hidx Hkeys Hitems]; subst.
  cbn [Store.find_all_paths]. rewrite bind_unfold, (read_dict_run _ _ _ _ Ha).
  rewrite (paths_loop_run h a hits ix _ Ha Hkeys hits its); [|done|].
  - by rewrite find_all_paths_unfold.
  - assert (∀ e, e ∈ its → depth e.2.2 ≤ fuel) as Hdepth.
    { intros e He. pose proof (depth_item its idx e He). lia. }
    clear Ha Hkeys Hrepr Hfuel.
    induction Hitems as [|he e hits its (Hk & Hrs & Hsub) Hitems IHitems];
      constructor.
    + split; [done|]. apply IH; [done|]. apply Hdepth. by left.
    + apply IHitems. intros e' He'. apply Hdepth. by right.
Qed.

Lemma descend_refines (n : nat) tokens :
  ∀ h a d, repr h a d → depth d ≤ n →
    refines (λ h' x y, repr h' x y ∧ depth y ≤ n) h
      (Store.descend a tokens) (Trie.descend d tokens).
Proof.
  induction tokens as [|token tokens IH]; intros h a d Hrepr Hn.
  - by apply refines_ret.
  - cbn [Store.descend Trie.descend].
    eapply refines_bind; [by apply (getitem_refines n h a d (KToken token))|].
    intros h' [sa da] [rs sub] Hpre [[Hrs Hsub] Hdepth]. simpl in *. by apply IH.
Qed.

Lemma contexts_loop_refines (fuel : nat) d self first_token sought_lhs_tail lhs_heads :
  depth d ≤ fuel →
  ∀ h contexts,
    repr h self d →
    refines (λ _ x y, x = y) h
      (Store.contexts_loop fuel self first_token sought_lhs_tail lhs_heads contexts)
      (Trie.contexts_loop d first_token sought_lhs_tail lhs_heads contexts).
Proof.
  intros Hfuel. induction lhs_heads as [|lhs_head lhs_heads IH];
    intros h contexts Hrepr.
  - by apply refines_ret.
  - cbn [Store.contexts_loop Trie.contexts_loop].
    eapply refines_bind; [by apply (getitem_refines fuel h self d (KSeq lhs_head))|].
    intros h0 [sa0 d0] [rs0 t0] Hpre0 [[_ Hd0] Hdepth0]. simpl in Hd0, Hdepth0.
    eapply refines_bind;
      [by apply (getitem_refines fuel h0 d0 t0 (KToken first_token))|].
    intros h1 [sa1 d1] [rs1 t1] Hpre1 [[_ Hd1] Hdepth1]. simpl in Hd1, Hdepth1.
    eapply refines_bind; [by apply (descend_refines fuel)|].
    intros h2 d2 t2 Hpre2 [Hd2 Hdepth2].
    unfold refines. rewrite bind_unfold, (find_all_paths_run fuel t2 h2 d2) by done.
    apply IH. eapply repr_prefix; [|done].
    etrans; [done|]. by etrans.
Qed.

Lemma find_partial_expression_fuel_refines (fuel : nat) h self d partial :
  repr h self d → depth d ≤ fuel →
  refines (λ _ x y, x = y) h
    (Store.find_partial_expression_fuel fuel self partial)
    (Trie.find_partial_expression d partial).
Proof.
  intros Hrepr Hfuel.
  unfold Store.find_partial_expression_fuel, Trie.find_partial_expression.
  unfold refines at 1. rewrite bind_unfold. unfold pure.
  destruct (Py.getitem partial 0) as [first_token|e|] eqn:Hfirst; simpl.
  - inversion Hrepr as [? hits ix entries its idx Ha Hix Hidx Hkeys Hitems]; subst.
    rewrite bind_unfold, (read_dict_run _ _ _ _ Ha).
    rewrite bind_unfold, (read_index_run _ _ _ Hix). cbn [index].
    specialize (Hidx first_token).
    destruct (entries !! first_token) as [pa|].
    + destruct Hidx as (ps & Hps & ->).
      rewrite bind_unfold, (read_pairs_run _ _ _ Hps).
      by apply contexts_loop_refines.
    + by rewrite Hidx.
  - done.
  - unfold Py.getitem in Hfirst. repeat case_decide; try done;
      by destruct (partial !! _).
Qed.

(** ** The store bounds the depth *)

Lemma repr_functional h : ∀ d a d', repr h a d → repr h a d' → d = d'.
Proof.
  intros d. induction d as [its idx IH] using TransformationDict_nested_ind.
  intros a [its' idx'] Hd Hd'.
  inversion Hd as [? hits ix entries ? ? Ha Hix Hidx Hkeys Hitems]; subst.
  inversion Hd' as [? hits' ix' entries' ? ? Ha' Hix' Hidx' Hkeys' Hitems']; subst.
  rewrite Ha in Ha'. injection Ha' as <- <-.
  rewrite Hix in Hix'. injection Hix' as <-.
  f_equal.
  - clear Hd Hd' Ha Hkeys Hkeys'. revert its' Hitems'.
    induction Hitems as [|[hk [sa da]] [k [rs sub]] hits its (Hk & Hrs & Hsub) Hitems IHitems];
      intros its' Hitems'.
    + by inversion Hitems'.
    + inversion Hitems' as [|? [k' [rs' sub']] ? its'' (Hk' & Hrs' & Hsub') Hitems'']; subst.
      simpl in *. subst. apply Forall_cons in IH as [IHe IHrest].
      rewrite Hrs in Hrs'. injection Hrs' as <-.
      assert (sub = sub') as <- by apply (IHe da sub' Hsub Hsub').
      f_equal. by apply IHitems.
  - apply map_eq. intros token. specialize (Hidx token). specialize (Hidx' token).
    destruct (entries !! token) as [pa|]; [|congruence].
    destruct Hidx as (ps & Hps & ->), Hidx' as (ps' & Hps' & ->). congruence.
Qed.

Lemma NoDup_below (l : list nat) (n : nat) :
  NoDup l → (∀ x, x ∈ l → x < n) → length l ≤ n.
Proof.
  intros Hnodup Hlt. rewrite <-(length_seq n 0).
  apply submseteq_length, NoDup_submseteq; [done|].
  intros x Hx. apply elem_of_seq. specialize (Hlt x Hx). lia.
Qed.

Lemma Forall2_elem_of_r {X Y} (P : X → Y → Prop) l k y :
  Forall2 P l k → y ∈ k → ∃ x, x ∈ l ∧ P x y.
Proof.
  induction 1 as [|x y' l k Hxy Hrest IH]; [by intros ?%elem_of_nil|].
  intros [-> |Hy]%elem_of_cons.
  - exists x. split; [by left|done].
  - destruct (IH Hy) as (x' & Hx' & HP). exists x'. split; [by right|done].
Qed.

Lemma max_list_le (l : list nat) (n : nat) :
  (∀ x, x ∈ l → x ≤ n) → max_list l ≤ n.
Proof.
  induction l as [|x l IH]; intros Hle; simpl; [lia|].
  apply Nat.max_lub; [apply Hle; by left|].
  apply IH. intros y Hy. apply Hle. by right.
Qed.

Lemma depth_chain h :
  ∀ d a (seen : list addr),
    repr h a d → NoDup seen →
    (∀ b, b ∈ seen → ∃ d', repr h b d' ∧ depth d < depth d') →
    depth d + length seen ≤ length h.
Proof.
  intros d. induction d as [its idx IH] using TransformationDict_nested_ind.
  intros a seen Hrepr Hnodup Hseen.
  assert (a ∉ seen) as Hnotin.
  { intros (d' & Hd' & Hlt)%Hseen.
    rewrite (repr_functional h _ _ _ Hrepr Hd') in Hlt. lia. }
  assert (NoDup (a :: seen)) as Hnodup' by (by constructor).
  assert (∀ b, b ∈ a :: seen → b < length h) as Hbelow.
  { intros b [-> |Hb]%elem_of_cons.
    - inversion Hrepr; subst. by eapply lookup_lt_Some.
    - destruct (Hseen b Hb) as (d' & Hd' & _). inversion Hd'; subst.
      by eapply lookup_lt_Some. }
  pose proof (NoDup_below _ _ Hnodup' Hbelow) as Hlen. simpl in Hlen.
  rewrite depth_unfold.
  assert (max_list ((λ e, depth e.2.2) <$> its) ≤ length h - S (length seen)); [|lia].
  apply max_list_le. intros x (e & -> & He)%list_elem_of_fmap.
  inversion Hrepr as [? hits ix entries ? ? Ha Hix Hidx Hkeys Hitems]; subst.
  destruct (Forall2_elem_of_r _ _ _ _ Hitems He) as (he & _ & _ & _ & Hsub).
  rewrite Forall_forall in IH.
  specialize (IH e He he.2.2 (a :: seen) Hsub Hnodup'). simpl in IH.
  assert (depth e.2.2 + S (length seen) ≤ length h); [|lia].
  apply IH. intros b [-> |Hb]%elem_of_cons.
  - exists (TDict its idx). split; [done|]. by apply depth_item.
  - destruct (Hseen b Hb) as (d' & Hd' & Hlt). exists d'. split; [done|].
    pose proof (depth_item its idx e He). lia.
Qed.

Lemma depth_le_store h a d : repr h a d → depth d ≤ length h.
Proof.
  intros Hrepr. pose proof (depth_chain h d a [] Hrepr (NoDup_nil_2)) as Hle.
  simpl in Hle. rewrite Nat.add_0_r in Hle. apply Hle. by intros b ?%elem_of_nil.
Qed.

Lemma find_partial_expression_refines h self d partial :
  repr h self d →
  refines (λ _ x y, x = y) h
    (Store.find_partial_expression self partial)
    (Trie.find_partial_expression d partial).
Proof.
  intros Hrepr.
  apply (find_partial_expression_fuel_refines (S (length h))); [done|].
  pose proof (depth_le_store h self d Hrepr). lia.
Qed.

Lemma get_rhs_refines h self d lhs :
  repr h self d →
  refines (λ h' sa rs, h' !! sa = Some (OSet rs)) h
    (Store.get_rhs self lhs) (Trie.get_rhs d lhs).
Proof.
  intros Hrepr. unfold Store.get_rhs, Trie.get_rhs.
  eapply refines_bind; [by apply (getitem_refines (depth d) h self d lhs)|].
  intros h' p q Hpre [[Hrs _] _]. by apply refines_ret.
Qed.

Lemma get_subdict_refines h self d lhs :
  repr h self d →
  refines (λ h' da sub, repr h' da sub) h
    (Store.get_subdict self lhs) (Trie.get_subdict d lhs).
Proof.
  intros Hrepr. unfold Store.get_subdict, Trie.get_subdict.
  eapply refines_bind; [by apply (getitem_refines (depth d) h self d lhs)|].
  intros h' p q Hpre [[_ Hsub] _]. by apply refines_ret.
Qed.

End store_values.

(** * More about the tables of the search *)

Section search_tables.
Context {A : Type} `{Countable A}.
Implicit Types (needle haystack : list A).

Lemma is_prefix_loop_bit needle rng :
  ∀ j r, is_prefix_loop needle rng j = Ret r → r = 0%Z ∨ r = 1%Z.
Proof.
  induction rng as [|i rng IH]; intros j r; simpl.
  - intros [= <-]. by right.
  - destruct (Py.getitem needle i); [|done..]. simpl.
    destruct (Py.getitem needle j); [|done..]. simpl.
    case_decide; [intros [= <-]; by left|apply IH].
Qed.

Lemma prefix_at_prefix_of needle (p : nat) :
  p ≤ length needle →
  prefix_at needle p ↔ drop p needle `prefix_of` needle.
Proof.
  intros Hp. split.
  - intros Hpre. exists (drop (length needle - p) needle).
    apply list_eq. intros i.
    destruct (decide (i < length needle - p)) as [Hi|Hi].
    + rewrite lookup_app_l by (rewrite length_drop; lia).
      rewrite lookup_drop. symmetry. apply Hpre. lia.
    + rewrite lookup_app_r by (rewrite length_drop; lia).
      rewrite length_drop, lookup_drop. f_equal. lia.
  - intros [k Hk] j Hj. rewrite Hk at 2.
    rewrite lookup_app_l by (rewrite length_drop; lia).
    by rewrite lookup_drop.
Qed.

Lemma is_prefix_full needle (p : nat) :
  ∃ r, is_prefix needle (Z.of_nat p) = Ret r ∧
       (r = 0%Z ∨ r = 1%Z) ∧
       (r = 1%Z ↔ drop p needle `prefix_of` needle).
Proof.
  destruct (decide (p ≤ length needle)) as [Hp|Hp].
  - destruct (is_prefix_spec needle p Hp) as (r & Hr & Hiff).
    exists r. split; [done|].
    destruct (is_prefix_loop_bit _ _ _ _ Hr) as [-> | ->].
    + split; [by left|]. rewrite <-prefix_at_prefix_of, <-Hiff by done. done.
    + split; [by right|]. rewrite <-prefix_at_prefix_of, <-Hiff by done. done.
  - exists 1%Z. unfold is_prefix. rewrite range_nil by (unfold len; lia).
    split; [done|]. split; [by right|]. split; [|done]. intros _.
    rewrite drop_ge by lia. apply prefix_nil.
Qed.

(** The [s] symbols that end at position [p]. *)
Lemma suffix_run_suffix_of needle (p s : nat) :
  p < length needle → s ≤ S p →
  (∀ k, k < s → needle !! (p - k) = needle !! (length needle - 1 - k)) ↔
  drop (S p - s) (take (S p) needle) `suffix_of` needle.
Proof.
  intros Hp Hs.
  assert (length (drop (S p - s) (take (S p) needle)) = s) as Hlen.
  { rewrite length_drop, length_take. lia. }
  split.
  - intros Hrun. exists (take (length needle - s) needle).
    rewrite <-(take_drop (length needle - s) needle) at 1. f_equal.
    apply list_eq. intros i.
    destruct (decide (i < s)) as [Hi|Hi].
    + rewrite !lookup_drop, lookup_take_lt by lia.
      specialize (Hrun (s - 1 - i) ltac:(lia)).
      replace (p - (s - 1 - i)) with (S p - s + i) in Hrun by lia.
      replace (length needle - 1 - (s - 1 - i)) with (length needle - s + i)
        in Hrun by lia.
      done.
    + rewrite (lookup_ge_None_2 (drop (S p - s) _)) by lia.
      rewrite lookup_ge_None_2; [done|]. rewrite length_drop. lia.
  - intros [k Hk] j Hj.
    assert (length k = length needle - s) as Hklen.
    { apply (f_equal length) in Hk. rewrite length_app, Hlen in Hk. lia. }
    pose proof (f_equal (λ l, l !! (length needle - 1 - j)) Hk) as Hlk.
    simpl in Hlk. rewrite lookup_app_r in Hlk by lia.
    rewrite lookup_drop, lookup_take_lt in Hlk by lia.
    rewrite Hlk. f_equal. lia.
Qed.

Lemma suffix_length_full needle (p : nat) :
  p < length needle →
  ∃ s : nat,
    suffix_length needle (Z.of_nat p) = Ret (Z.of_nat s) ∧
    s ≤ S p ∧
    drop (S p - s) (take (S p) needle) `suffix_of` needle ∧
    ∀ s', s' ≤ S p →
          drop (S p - s') (take (S p) needle) `suffix_of` needle → s' ≤ s.
Proof.
  intros Hp. destruct (suffix_length_spec needle p Hp) as (s & Hs & Hle & Hrun & Hend).
  exists s. split_and!; [done..| |].
  - by apply (proj1 (suffix_run_suffix_of needle p s Hp Hle)).
  - intros s' Hs' Hsuf.
    pose proof (proj2 (suffix_run_suffix_of needle p s' Hp Hs') Hsuf) as Hrun'.
    destruct Hend as [->|Hend]; [done|].
    destruct (decide (s' ≤ s)) as [|Hgt]; [done|]. exfalso.
    apply Hend, Hrun'. lia.
Qed.

Lemma getitem_ge {B} (l : list B) (i : nat) :
  length l ≤ i → Py.getitem l (Z.of_nat i) = Raise IndexError.
Proof.
  intros Hi. unfold Py.getitem, norm_index.
  destruct (decide (Z.of_nat i < 0)%Z); [lia|].
  destruct (decide (0 ≤ Z.of_nat i)%Z); [|lia].
  by rewrite Nat2Z.id, lookup_ge_None_2.
Qed.

Lemma suffix_length_out_of_range needle (p : nat) :
  length needle ≤ p → suffix_length needle (Z.of_nat p) = Raise IndexError.
Proof.
  intros Hp. unfold suffix_length.
  replace (Z.of_nat p + 1)%Z with (Z.of_nat (S p)) by lia.
  rewrite reverse_range_S. cbn [suffix_length_loop].
  by rewrite getitem_ge.
Qed.

(** ** The character table, completely *)

Lemma last_before_unique needle i0 c v v' :
  last_before needle i0 c v → last_before needle i0 c v' → v = v'.
Proof.
  intros (k & Hk & Hkc & -> & Hlast) (k' & Hk' & Hkc' & -> & Hlast').
  destruct (decide (k = k')) as [->|Hne]; [done|]. exfalso.
  destruct (decide (k < k')).
  - apply (Hlast k'); [lia|done].
  - apply (Hlast' k); [lia|done].
Qed.

Lemma make_char_table_loop_iff needle (cnt : nat) :
  ∀ (i0 : nat) (table : gmap A Z),
    i0 + cnt = length needle - 1 →
    (∀ c v, table !! c = Some v ↔ last_before needle i0 c v) →
    ∃ table',
      make_char_table_loop needle
        (range (Z.of_nat i0) (Z.of_nat (length needle) - 1)) table = Ret table' ∧
      ∀ c v, table' !! c = Some v ↔ last_before needle (length needle - 1) c v.
Proof.
  induction cnt as [|cnt IH]; intros i0 table Hi0 Htable.
  - rewrite range_nil by lia. exists table. split; [done|].
    intros c v. replace (length needle - 1) with i0 by lia. by apply Htable.
  - rewrite range_cons by lia. cbn [make_char_table_loop].
    destruct (getitem_lt needle i0) as (a & Ha & ->); [lia|]. simpl.
    replace (Z.of_nat i0 + 1)%Z with (Z.of_nat (S i0)) by lia.
    apply IH; [lia|]. intros c v. destruct (decide (a = c)) as [->|Hne].
    + rewrite lookup_insert_eq.
      assert (last_before needle (S i0) c (Z.of_nat (length needle - 1 - i0)))
        as Hhere.
      { exists i0. split_and!; [lia|done|done|]. intros k' Hk'. lia. }
      split.
      * intros [= <-]. replace (len needle - 1 - Z.of_nat i0)%Z
          with (Z.of_nat (length needle - 1 - i0)) by (unfold len; lia). done.
      * intros Hv. f_equal.
        replace (len needle - 1 - Z.of_nat i0)%Z
          with (Z.of_nat (length needle - 1 - i0)) by (unfold len; lia).
        by eapply last_before_unique.
    + rewrite lookup_insert_ne by done. rewrite Htable. split.
      * intros (k & Hk & Hkc & -> & Hlast). exists k.
        split_and!; [lia|done..|]. intros k' Hk'.
        destruct (decide (k' = i0)) as [->|?]; [congruence|]. apply Hlast. lia.
      * intros (k & Hk & Hkc & -> & Hlast).
        assert (k ≠ i0) by congruence. exists k.
        split_and!; [lia|done..|]. intros k' Hk'. apply Hlast. lia.
Qed.

Lemma make_char_table_full needle :
  ∃ table,
    make_char_table needle = Ret table ∧
    ∀ c v, table !! c = Some v ↔ last_before needle (length needle - 1) c v.
Proof.
  unfold make_char_table, len.
  apply (make_char_table_loop_iff needle (length needle - 1) 0 ∅); [lia|].
  intros c v. rewrite lookup_empty. split; [done|].
  intros (k & Hk & _). lia.
Qed.

(** ** The offset table and the occurrences *)

Lemma offset_shift_sound needle haystack (e t : nat) :
  t < length needle → length needle - 1 ≤ e →
  matched haystack needle e t →
  haystack !! (e - t) ≠ needle !! (length needle - 1 - t) →
  ∃ table (d : nat),
    make_offset_table needle = Ret table ∧
    table !! t = Some (Z.of_nat (t + d)) ∧ 1 ≤ d ∧
    ∀ s, e - (length needle - 1) ≤ s < e - (length needle - 1) + d →
         ¬ occurs_at haystack needle s.
Proof.
  intros Ht He Hm Hmis.
  destruct (make_offset_table_spec needle) as (table & Htable & _ & Hentries).
  destruct (Hentries t Ht) as (d & Hd & Hd1 & Hsafe).
  exists table, d. split_and!; [done..|]. intros s Hs Hocc.
  destruct (decide (s = e - (length needle - 1))) as [->|Hne].
  - rewrite occurs_at_lookup in Hocc.
    specialize (Hocc (length needle - 1 - t) ltac:(lia)).
    apply Hmis. rewrite <-Hocc. f_equal. lia.
  - apply (Hsafe (s - (e - (length needle - 1)))); [lia|].
    apply (occurs_at_compatible haystack needle e t); [done..|].
    by replace (e - (length needle - 1) + (s - (e - (length needle - 1))))
      with s by lia.
Qed.

(** ** The result of [search] and the ways to cut the haystack *)

Lemma occurs_at_app haystack needle (s : nat) :
  s ≤ length haystack →
  occurs_at haystack needle s ↔
    ∃ post, haystack = take s haystack ++ needle ++ post.
Proof.
  intros Hs. unfold occurs_at. split.
  - intros Hocc. exists (drop (length needle) (drop s haystack)).
    rewrite <-(take_drop s haystack) at 1. f_equal.
    rewrite <-(take_drop (length needle) (drop s haystack)) at 1.
    by rewrite Hocc.
  - intros [post Hpost].
    rewrite Hpost at 1. rewrite drop_app_length'; [|rewrite length_take; lia].
    by rewrite take_app_length.
Qed.

Lemma occurs_at_cut pre needle post :
  occurs_at (pre ++ needle ++ post) needle (length pre).
Proof.
  unfold occurs_at. by rewrite drop_app_length, take_app_length.
Qed.

Lemma search_cut haystack needle :
  ∃ r,
    search haystack needle = Ret r ∧
    ((r = (-1)%Z ∧ ∀ pre post, haystack ≠ pre ++ needle ++ post) ∨
     ((0 ≤ r ≤ len haystack - len needle)%Z ∧
      (∃ post, haystack = take (Z.to_nat r) haystack ++ needle ++ post) ∧
      ∀ pre post, haystack = pre ++ needle ++ post → Z.to_nat r ≤ length pre)).
Proof.
  destruct (search_fuel_spec haystack needle (S (length haystack + length needle)))
    as (r & Hr & [[-> Hnone]|(Hr0 & Hocc & Hleft)]); [lia| |].
  - exists (-1)%Z. split; [done|]. left. split; [done|]. intros pre post ->.
    apply (Hnone (length pre)), occurs_at_cut.
  - exists r. split; [done|]. right.
    assert (Z.to_nat r + length needle ≤ length haystack) as Hfit.
    { destruct needle as [|a needle]; [|by apply occurs_at_fits].
      simpl. destruct (decide (Z.to_nat r = 0)) as [->|Hne]; [simpl; lia|].
      exfalso. apply (Hleft 0); [lia|done]. }
    split_and!; [lia|unfold len; lia| |].
    + apply occurs_at_app; [lia|done].
    + intros pre post Hcut.
      destruct (decide (Z.to_nat r ≤ length pre)) as [|Hgt]; [done|]. exfalso.
      apply (Hleft (length pre)); [lia|]. rewrite Hcut. apply occurs_at_cut.
Qed.

Lemma search_starts_with needle post : search (needle ++ post) needle = Ret 0%Z.
Proof.
  destruct (search_cut (needle ++ post) needle)
    as (r & Hr & [[_ Hnone]|(Hr0 & _ & Hleft)]).
  - by destruct (Hnone [] post).
  - specialize (Hleft [] post eq_refl). simpl in Hleft.
    rewrite Hr. f_equal. lia.
Qed.


(** The shift read from the character table skips no occurrence. *)
Lemma char_shift_sound needle haystack (e t : nat) (c : A) :
  t < length needle → length needle - 1 ≤ e →
  haystack !! (e - t) = Some c →
  haystack !! (e - t) ≠ needle !! (length needle - 1 - t) →
  ∃ table,
    make_char_table needle = Ret table ∧
    ∀ v, table !! c = Some v →
      (1 ≤ v ≤ Z.of_nat (length needle) - 1)%Z ∧
      ∀ s : nat, e - (length needle - 1) ≤ s →
                 (Z.of_nat s + Z.of_nat (length needle) - 1 < Z.of_nat (e - t) + v)%Z →
                 ¬ occurs_at haystack needle s.
Proof.
  intros Ht He Hc Hmis.
  destruct (make_char_table_full needle) as (table & Htable & Hiff).
  exists table. split; [done|]. intros v Hv.
  apply Hiff in Hv as (k & Hk & Hkc & -> & Hlast). split; [lia|].
  intros s Hs Hlt Hocc. rewrite occurs_at_lookup in Hocc.
  destruct (decide (s = e - (length needle - 1))) as [->|Hne].
  - specialize (Hocc (length needle - 1 - t) ltac:(lia)).
    apply Hmis. rewrite <-Hocc. f_equal. lia.
  - specialize (Hocc (e - t - s) ltac:(lia)).
    replace (s + (e - t - s)) with (e - t) in Hocc by lia.
    apply (Hlast (e - t - s)); [lia|]. congruence.
Qed.

End search_tables.

(** * The filters for Portuguese *)

Section portuguese_facts.
Implicit Types (word stem : string) (exp expression : list string).

(** ** [remove_comma_and_article] *)

Lemma strip_leading_spec (fuel : nat) :
  ∀ expression,
    expression ≠ [] → length expression < fuel →
    ∃ pre rest,
      expression = pre ++ rest ∧ Forall stop_word pre ∧
      ((rest = [] ∧ strip_leading fuel expression = Ret (inl [])) ∨
       (∃ first rest', rest = first :: rest' ∧ ¬ stop_word first ∧
          strip_leading fuel expression = Ret (inr rest))).
Proof.
  induction fuel as [|fuel IH]; intros expression Hne Hfuel; [lia|].
  destruct expression as [|first expression]; [done|].
  cbn [strip_leading].
  change (Py.getitem (first :: expression) 0%Z) with (Ret first).
  simpl. case_decide as Hstop.
  - rewrite drop_0. case_decide as Hlen.
    + destruct expression; [|unfold len in Hlen; simpl in Hlen; lia].
      exists [first], []. split_and!; [done|by constructor|by left].
    + destruct (IH expression) as (pre & rest & -> & Hpre & Hrest).
      { intros ->. by apply Hlen. }
      { simpl in Hfuel. lia. }
      exists (first :: pre), rest. split_and!; [done|by constructor|done].
  - exists [], (first :: expression). split_and!; [done|constructor|].
    right. by exists first, expression.
Qed.

Lemma remove_comma_and_article_shape expression :
  expression ≠ [] →
  ∃ result pre post,
    remove_comma_and_article expression = Ret result ∧
    expression = pre ++ result ++ post ∧
    Forall stop_word pre ∧ (post = [] ∨ post = [","%string]) ∧
    (2 ≤ length expression → ∀ first, head result = Some first → ¬ stop_word first).
Proof.
  intros Hne. unfold remove_comma_and_article. case_decide as Hone.
  - exists expression, [], []. split_and!; [done|by rewrite app_nil_r|constructor|by left|].
    unfold len in Hone. lia.
  - destruct (strip_leading_spec (S (length expression)) expression)
      as (pre & rest & Hcut & Hpre & [[-> ->]|(first & rest' & -> & Hfirst & ->)]);
      [done|lia| |].
    + simpl. exists [], pre, []. split_and!; [done|done|done|by left|done].
    + simpl.
      destruct (lookup_lt_is_Some_2 (first :: rest') (length rest')) as [last Hlast];
        [simpl; lia|].
      assert (Py.getitem (first :: rest') (-1)%Z = Ret last) as ->.
      { unfold Py.getitem, norm_index, len.
        destruct (decide (-1 < 0)%Z); [|lia].
        destruct (decide (0 ≤ -1 + Z.of_nat (length (first :: rest')))%Z);
          [|simpl in *; lia].
        replace (Z.to_nat (-1 + Z.of_nat (length (first :: rest'))))
          with (length rest') by (simpl; lia).
        by rewrite Hlast. }
      simpl. case_decide as Hcomma.
      * subst last.
        exists (take (Z.to_nat (len (first :: rest') - 1)) (first :: rest')),
          pre, [","%string].
        replace (Z.to_nat (len (first :: rest') - 1)) with (length rest')
          by (unfold len; simpl; lia).
        split_and!; [done| |done|by right|].
        -- rewrite Hcut. f_equal.
           rewrite <-(take_drop (length rest') (first :: rest')) at 1. f_equal.
           apply list_eq. intros [|i].
           ++ rewrite lookup_drop, Nat.add_0_r. done.
           ++ rewrite lookup_drop. simpl. apply lookup_ge_None_2. simpl. lia.
        -- intros _ f Hf. destruct rest' as [|t rest'].
           ++ simpl in Hlast. injection Hlast as ->. exfalso. apply Hfirst. by right.
           ++ simpl in Hf. by injection Hf as <-.
      * exists (first :: rest'), pre, []. rewrite app_nil_r.
        split_and!; [done|done|done|by left|].
        intros _ f [= <-]. done.
Qed.

Lemma remove_comma_and_article_raises expression :
  remove_comma_and_article expression = Raise IndexError ↔ expression = [].
Proof.
  split; [|by intros ->].
  intros Hraise. destruct expression as [|first expression]; [done|].
  destruct (remove_comma_and_article_shape (first :: expression))
    as (result & _ & _ & Hret & _); [done|]. congruence.
Qed.

(** ** [_is_trivial_paraphrase] *)

Lemma chars_nil word : chars word = [] ↔ word = ""%string.
Proof. by destruct word. Qed.

Lemma chars_of_list (l : list Ascii.ascii) :
  chars (String.string_of_list_ascii l) = l.
Proof. apply String.list_ascii_of_string_of_list_ascii. Qed.

Lemma of_list_chars word : String.string_of_list_ascii (chars word) = word.
Proof. apply String.string_of_list_ascii_of_string. Qed.

Lemma chars_app word word' : chars (word +:+ word') = chars word ++ chars word'.
Proof. induction word as [|c word IH]; [done|]. simpl. by rewrite <-IH. Qed.

Lemma getitem_last {B} (l : list B) :
  l ≠ [] → ∃ x, Py.getitem l (-1)%Z = Ret x ∧ last l = Some x.
Proof.
  intros Hne. destruct (lookup_lt_is_Some_2 l (length l - 1)) as [x Hx].
  { destruct l; [done|simpl; lia]. }
  exists x. split.
  - unfold Py.getitem, norm_index, len.
    destruct (decide (-1 < 0)%Z); [|lia].
    destruct (decide (0 ≤ -1 + Z.of_nat (length l))%Z);
      [|destruct l; [done|simpl in *; lia]].
    replace (Z.to_nat (-1 + Z.of_nat (length l))) with (length l - 1) by lia.
    by rewrite Hx.
  - rewrite last_lookup. by replace (Nat.pred (length l)) with (length l - 1) by lia.
Qed.

Lemma strip_suffix_returns word :
  word ≠ ""%string → ∃ word', strip_suffix word = Ret word'.
Proof.
  intros Hne. unfold strip_suffix. case_decide; [by eexists|].
  destruct (getitem_last (chars word)) as (c & -> & _).
  { by rewrite chars_nil. }
  simpl. case_decide; by eexists.
Qed.

Lemma compare_words_returns exp1 exp2 :
  Forall (λ w, w ≠ ""%string) exp1 → Forall (λ w, w ≠ ""%string) exp2 →
  ∃ b, compare_words (zip exp1 exp2) = Ret b.
Proof.
  intros H1. revert exp2. induction H1 as [|w1 exp1 Hw1 H1 IH]; intros exp2 H2.
  - by exists true.
  - destruct H2 as [|w2 exp2 Hw2 H2]; [by exists true|]. cbn [zip zip_with compare_words].
    destruct (strip_suffix_returns w1 Hw1) as [w1' ->].
    destruct (strip_suffix_returns w2 Hw2) as [w2' ->]. simpl.
    case_decide as Hlen.
    + case_decide; [by apply IH|by eexists].
    + case_decide; [|by apply IH].
      assert (chars w1' ≠ [] ∧ chars w2' ≠ []) as [Hc1 Hc2].
      { unfold len in Hlen. split; intros Hnil; apply Hlen; rewrite Hnil; auto. }
      destruct (getitem_last (chars w1') Hc1) as (c1 & -> & _). simpl.
      case_decide; [|by eexists].
      destruct (getitem_last (chars w2') Hc2) as (c2 & -> & _). simpl.
      case_decide; [|by eexists].
      case_decide; [by apply IH|by eexists].
Qed.

Lemma compare_words_refl exp :
  Forall (λ w, w ≠ ""%string) exp → compare_words (zip exp exp) = Ret true.
Proof.
  induction 1 as [|w exp Hw Hexp IH]; [done|]. cbn [zip zip_with compare_words].
  destruct (strip_suffix_returns w Hw) as [w' ->]. simpl.
  case_decide.
  - by rewrite decide_True.
  - by rewrite decide_False by (by intros ?).
Qed.


Lemma Forall_strip_first (P : string → Prop) exp first :
  Forall P exp → Forall P (strip_first exp first).
Proof. unfold strip_first. case_decide; [apply Forall_drop|done]. Qed.

Lemma Forall_strip_last (P : string → Prop) exp last :
  Forall P exp → Forall P (strip_last exp last).
Proof. unfold strip_last. case_decide; [apply Forall_take|done]. Qed.

Lemma is_trivial_paraphrase_cons f1 exp1 f2 exp2 :
  _is_trivial_paraphrase (f1 :: exp1) (f2 :: exp2) =
    if decide (len (strip_first (f1 :: exp1) f1) = 0%Z ∨
               len (strip_first (f2 :: exp2) f2) = 0%Z) then Ret true
    else
      last1 ← Py.getitem (strip_first (f1 :: exp1) f1) (-1)%Z;
      last2 ← Py.getitem (strip_first (f2 :: exp2) f2) (-1)%Z;
      if decide (len (strip_last (strip_first (f1 :: exp1) f1) last1) ≠
                 len (strip_last (strip_first (f2 :: exp2) f2) last2))
      then Ret false
      else if decide (strip_last (strip_first (f1 :: exp1) f1) last1 = [","%string] ∨
                      strip_last (strip_first (f2 :: exp2) f2) last2 = [","%string])
      then Ret true
      else compare_words
             (zip (strip_last (strip_first (f1 :: exp1) f1) last1)
                  (strip_last (strip_first (f2 :: exp2) f2) last2)).
Proof. done. Qed.

Lemma is_trivial_paraphrase_returns exp1 exp2 :
  exp1 ≠ [] → exp2 ≠ [] →
  Forall (λ w, w ≠ ""%string) exp1 → Forall (λ w, w ≠ ""%string) exp2 →
  ∃ b, _is_trivial_paraphrase exp1 exp2 = Ret b.
Proof.
  intros Hne1 Hne2 Hw1 Hw2.
  destruct exp1 as [|f1 exp1]; [done|]. destruct exp2 as [|f2 exp2]; [done|].
  rewrite is_trivial_paraphrase_cons.
  apply (Forall_strip_first _ _ f1) in Hw1. apply (Forall_strip_first _ _ f2) in Hw2.
  set (e1 := strip_first (f1 :: exp1) f1) in *.
  set (e2 := strip_first (f2 :: exp2) f2) in *.
  case_decide as Hlen; [by eexists|].
  assert (e1 ≠ [] ∧ e2 ≠ []) as [He1 He2].
  { unfold len in Hlen. split; intros Hnil; apply Hlen; rewrite Hnil; auto. }
  destruct (getitem_last e1 He1) as (l1 & -> & _).
  destruct (getitem_last e2 He2) as (l2 & -> & _). cbn [mbind result_bind].
  case_decide; [by eexists|]. case_decide; [by eexists|].
  apply compare_words_returns; by apply Forall_strip_last.
Qed.

Lemma is_trivial_paraphrase_refl exp :
  exp ≠ [] → Forall (λ w, w ≠ ""%string) exp →
  _is_trivial_paraphrase exp exp = Ret true.
Proof.
  intros Hne Hw. destruct exp as [|f exp]; [done|].
  rewrite is_trivial_paraphrase_cons.
  apply (Forall_strip_first _ _ f) in Hw.
  set (e := strip_first (f :: exp) f) in *.
  case_decide as Hlen; [done|].
  assert (e ≠ []) as He.
  { unfold len in Hlen. intros Hnil. apply Hlen. rewrite Hnil. auto. }
  destruct (getitem_last e He) as (l & -> & _). cbn [mbind result_bind].
  rewrite decide_False by (by intros ?).
  case_decide; [done|].
  apply compare_words_refl. by apply Forall_strip_last.
Qed.



Lemma last_chars_app stem s :
  last_chars (stem +:+ s) (length (chars s)) = s.
Proof.
  unfold last_chars. rewrite chars_app, length_app.
  replace (length (chars stem) + length (chars s) - length (chars s))
    with (length (chars stem)) by lia.
  by rewrite drop_app_length, of_list_chars.
Qed.

Lemma without_last_chars_app stem s :
  without_last_chars (stem +:+ s) (length (chars s)) = stem.
Proof.
  unfold without_last_chars. rewrite chars_app, length_app.
  replace (length (chars stem) + length (chars s) - length (chars s))
    with (length (chars stem)) by lia.
  by rewrite take_app_length, of_list_chars.
Qed.

Lemma last_chars_last word (n : nat) :
  0 < n → last (chars (last_chars word n)) = last (chars word).
Proof.
  intros Hn. unfold last_chars. rewrite chars_of_list.
  rewrite <-(take_drop (length (chars word) - n) (chars word)) at 3.
  rewrite last_app.
  destruct (last (drop _ _)) eqn:Hlast; [done|].
  apply last_None in Hlast. apply (f_equal length) in Hlast.
  rewrite length_drop in Hlast. simpl in Hlast.
  assert (length (chars word) = 0) as Hnil by lia.
  destruct (chars word); [done|simpl in Hnil; lia].
Qed.

Lemma strip_suffix_ending stem s :
  s ∈ endings → strip_suffix (stem +:+ s) = Ret stem.
Proof.
  intros Hs.
  assert (∀ s1, s1 = "o"%string ∨ s1 = "a"%string →
            strip_suffix (stem +:+ s1) = Ret stem) as Hone.
  { intros s1 Hs1. unfold strip_suffix.
    assert (length (chars s1) = 1) as Hlen by (by destruct Hs1 as [-> | ->]).
    assert (last (chars (stem +:+ s1)) = last (chars s1)) as Hlast.
    { rewrite chars_app, last_app. by destruct Hs1 as [-> | ->]. }
    rewrite decide_False.
    - destruct (getitem_last (chars (stem +:+ s1))) as (x & -> & Hx).
      { rewrite chars_app. destruct Hs1 as [-> | ->]; by destruct (chars stem). }
      rewrite Hlast in Hx. simpl. rewrite decide_True.
      + f_equal. rewrite <-Hlen. apply without_last_chars_app.
      + destruct Hs1 as [-> | ->]; injection Hx as <-;
          by apply (bool_decide_unpack _).
    - intros Hos.
      pose proof (last_chars_last (stem +:+ s1) 2 ltac:(lia)) as Hl.
      rewrite Hlast in Hl.
      by destruct Hos as [Hos|Hos], Hs1 as [-> | ->]; rewrite Hos in Hl. }
  assert (∀ s2, s2 = "os"%string ∨ s2 = "as"%string →
            strip_suffix (stem +:+ s2) = Ret stem) as Htwo.
  { intros s2 Hs2. unfold strip_suffix.
    assert (length (chars s2) = 2) as Hlen by (by destruct Hs2 as [-> | ->]).
    rewrite decide_True.
    - f_equal. rewrite <-Hlen. apply without_last_chars_app.
    - by rewrite <-Hlen, last_chars_app. }
  unfold endings in Hs.
  repeat (apply elem_of_cons in Hs as [-> |Hs]);
    [apply Hone; by left|apply Hone; by right|apply Htwo; by left|apply Htwo; by right|].
  by apply elem_of_nil in Hs.
Qed.

Lemma ending_not_comma stem s : s ∈ endings → stem +:+ s ≠ ","%string.
Proof.
  intros Hs Heq. apply (f_equal (λ w, last (chars w))) in Heq.
  rewrite chars_app, last_app in Heq. unfold endings in Hs.
  repeat (apply elem_of_cons in Hs as [-> |Hs]); try done.
  by apply elem_of_nil in Hs.
Qed.

(** Two words made of one stem and two endings. *)
Lemma is_trivial_paraphrase_endings stem s1 s2 :
  s1 ∈ endings → s2 ∈ endings →
  _is_trivial_paraphrase [stem +:+ s1] [stem +:+ s2] = Ret true.
Proof.
  intros Hs1 Hs2. rewrite is_trivial_paraphrase_cons.
  unfold strip_first.
  destruct (decide (stem +:+ s1 ∈ prepositions)); [done|].
  destruct (decide (stem +:+ s2 ∈ prepositions)); [done|].
  case_decide as Hlen; [done|]. clear Hlen.
  change (Py.getitem [stem +:+ s1] (-1)%Z) with (Ret (stem +:+ s1)).
  change (Py.getitem [stem +:+ s2] (-1)%Z) with (Ret (stem +:+ s2)).
  cbn [mbind result_bind]. unfold strip_last.
  destruct (decide (stem +:+ s1 ∈ prepositions)); [done|].
  destruct (decide (stem +:+ s2 ∈ prepositions)); [done|].
  rewrite decide_False by (by intros ?).
  rewrite decide_False.
  - cbn [zip zip_with compare_words].
    rewrite !strip_suffix_ending by done. cbn [mbind result_bind].
    case_decide; [by rewrite decide_True|by rewrite decide_False by (by intros ?)].
  - intros [[=Heq]|[=Heq]];
      [by apply (ending_not_comma stem s1)|by apply (ending_not_comma stem s2)].
Qed.

(** A heading preposition makes no difference. *)
Lemma is_trivial_paraphrase_heading preposition first exp :
  preposition ∈ prepositions → first ∉ prepositions →
  Forall (λ w, w ≠ ""%string) (first :: exp) →
  _is_trivial_paraphrase (preposition :: first :: exp) (first :: exp) = Ret true.
Proof.
  intros Hp Hf Hw.
  rewrite <-(is_trivial_paraphrase_refl (first :: exp)) by done.
  rewrite !is_trivial_paraphrase_cons. unfold strip_first.
  rewrite (decide_True (P := preposition ∈ prepositions)) by done.
  by rewrite (decide_False (P := first ∈ prepositions)) by done.
Qed.

(** An expression that is one preposition is a trivial paraphrase of
    every expression. *)
Lemma is_trivial_paraphrase_preposition preposition first exp :
  preposition ∈ prepositions →
  _is_trivial_paraphrase [preposition] (first :: exp) = Ret true ∧
  _is_trivial_paraphrase (first :: exp) [preposition] = Ret true.
Proof.
  intros Hp. rewrite !is_trivial_paraphrase_cons. unfold strip_first.
  rewrite !(decide_True (P := preposition ∈ prepositions)) by done.
  split.
  - by rewrite decide_True by (by left).
  - by rewrite decide_True by (by right).
Qed.

Lemma is_trivial_paraphrase_empty exp :
  _is_trivial_paraphrase [] exp = Raise IndexError ∧
  (exp ≠ [] → _is_trivial_paraphrase exp [] = Raise IndexError).
Proof.
  split; [done|]. intros Hne. destruct exp as [|first exp]; [done|].
  unfold _is_trivial_paraphrase.
  by change (Py.getitem (first :: exp) 0%Z) with (Ret first).
Qed.


Lemma append_assoc word1 word2 word3 :
  (word1 +:+ word2) +:+ word3 = word1 +:+ (word2 +:+ word3).
Proof.
  rewrite <-(of_list_chars ((word1 +:+ word2) +:+ word3)).
  rewrite <-(of_list_chars (word1 +:+ (word2 +:+ word3))).
  by rewrite !chars_app, (assoc_L (++)).
Qed.

Lemma elem_of_prepositions word :
  word ∈ prepositions →
  word ∈ ["de"; "da"; "do"; "das"; "dos"; "em"; "no"; "na"; "nos"; "nas"]%string.
Proof.
  unfold prepositions. rewrite !elem_of_union, !elem_of_singleton, !elem_of_cons.
  tauto.
Qed.

Lemma getitem_last_Some {B} (l : list B) (x : B) :
  last l = Some x → Py.getitem l (-1)%Z = Ret x.
Proof.
  intros Hx. destruct (getitem_last l) as (y & -> & Hy); [by destruct l|]. congruence.
Qed.

Lemma last_chars_ending stem s c :
  last (chars s) = Some c → last (chars (stem +:+ s)) = Some c.
Proof. intros Hc. by rewrite chars_app, last_app, Hc. Qed.

Lemma strip_suffix_l stem : strip_suffix (stem +:+ "l") = Ret (stem +:+ "l")%string.
Proof.
  unfold strip_suffix. rewrite decide_False.
  - erewrite getitem_last_Some by (by apply last_chars_ending).
    cbn [mbind result_bind].
    rewrite decide_False; [done|]. by apply (bool_decide_unpack _).
  - intros Hos.
    pose proof (last_chars_last (stem +:+ "l") 2 ltac:(lia)) as Hl.
    erewrite (last_chars_ending stem "l") in Hl by done.
    by destruct Hos as [Hos|Hos]; rewrite Hos in Hl.
Qed.

Lemma strip_suffix_is stem : strip_suffix (stem +:+ "is") = Ret (stem +:+ "i")%string.
Proof.
  unfold strip_suffix. rewrite decide_False.
  - erewrite getitem_last_Some by (by apply last_chars_ending).
    cbn [mbind result_bind].
    rewrite decide_True by (by apply (bool_decide_unpack _)).
    f_equal. change "is"%string with ("i" +:+ "s")%string.
    rewrite <-append_assoc. apply (without_last_chars_app (stem +:+ "i") "s").
  - pose proof (last_chars_app stem "is") as Hl. simpl in Hl. rewrite Hl.
    by intros [?|?].
Qed.

Lemma not_preposition_l stem : stem +:+ "l" ∉ prepositions.
Proof.
  intros Hin%elem_of_prepositions.
  pose proof (last_chars_ending stem "l" _ eq_refl) as Hl.
  repeat (apply elem_of_cons in Hin as [Heq|Hin]; [by rewrite Heq in Hl|]).
  by apply elem_of_nil in Hin.
Qed.

Lemma not_preposition_is stem : stem +:+ "is" ∉ prepositions.
Proof.
  intros Hin%elem_of_prepositions.
  pose proof (last_chars_app stem "is") as Hl. simpl in Hl.
  repeat (apply elem_of_cons in Hin as [Heq|Hin]; [by rewrite Heq in Hl|]).
  by apply elem_of_nil in Hin.
Qed.

Lemma is_trivial_paraphrase_word word1 word2 :
  word1 ∉ prepositions → word2 ∉ prepositions →
  word1 ≠ ","%string → word2 ≠ ","%string →
  _is_trivial_paraphrase [word1] [word2] = compare_words [(word1, word2)].
Proof.
  intros Hp1 Hp2 Hc1 Hc2. rewrite is_trivial_paraphrase_cons. unfold strip_first.
  rewrite (decide_False (P := word1 ∈ prepositions)) by done.
  rewrite (decide_False (P := word2 ∈ prepositions)) by done.
  case_decide as Hlen; [by destruct Hlen|]. clear Hlen.
  change (Py.getitem [word1] (-1)%Z) with (Ret word1).
  change (Py.getitem [word2] (-1)%Z) with (Ret word2).
  cbn [mbind result_bind]. unfold strip_last.
  rewrite (decide_False (P := word1 ∈ prepositions)) by done.
  rewrite (decide_False (P := word2 ∈ prepositions)) by done.
  rewrite decide_False by (by intros ?).
  rewrite decide_False; [done|]. by intros [[= ?]|[= ?]].
Qed.

Lemma is_trivial_paraphrase_plural stem :
  _is_trivial_paraphrase [stem +:+ "l"]%string [stem +:+ "is"]%string = Ret true ∧
  _is_trivial_paraphrase [stem +:+ "is"]%string [stem +:+ "l"]%string = Ret false.
Proof.
  assert (∀ s, s = "l"%string ∨ s = "is"%string → stem +:+ s ≠ ","%string) as Hcomma.
  { intros s Hs Heq. apply (f_equal (λ w, last (chars w))) in Heq.
    rewrite chars_app, last_app in Heq. by destruct Hs as [-> | ->]. }
  assert (∀ s, s = "l"%string ∨ s = "i"%string → len (chars (stem +:+ s)) ≠ 0%Z) as Hlen.
  { intros s Hs. unfold len. rewrite chars_app, length_app.
    destruct Hs as [-> | ->]; simpl; lia. }
  assert ((stem +:+ "l")%string ≠ (stem +:+ "i")%string) as Hne.
  { intros Heq. apply (f_equal (λ w, last (chars w))) in Heq.
    by rewrite !chars_app, !last_app in Heq. }
  pose proof (getitem_last_Some _ _ (last_chars_ending stem "l" _ eq_refl)) as Hgl.
  pose proof (getitem_last_Some _ _ (last_chars_ending stem "i" _ eq_refl)) as Hgi.
  split.
  - rewrite is_trivial_paraphrase_word
      by (apply not_preposition_l || apply not_preposition_is || apply Hcomma; auto).
    cbn [compare_words]. rewrite strip_suffix_l, strip_suffix_is.
    cbn [mbind result_bind].
    destruct (decide (_ ∨ _)) as [[Hz|Hz]|_];
      [exfalso; revert Hz; apply Hlen; auto..|].
    rewrite decide_True by done. rewrite Hgl, Hgi.
    cbn [mbind result_bind]. rewrite !(decide_True (P := [_] = _)) by done.
    rewrite decide_True; [done|].
    pose proof (without_last_chars_app stem "l") as Hl.
    pose proof (without_last_chars_app stem "i") as Hi.
    simpl in Hl, Hi. by rewrite Hl, Hi.
  - rewrite is_trivial_paraphrase_word
      by (apply not_preposition_l || apply not_preposition_is || apply Hcomma; auto).
    cbn [compare_words]. rewrite strip_suffix_l, strip_suffix_is.
    cbn [mbind result_bind].
    destruct (decide (_ ∨ _)) as [[Hz|Hz]|_];
      [exfalso; revert Hz; apply Hlen; auto..|].
    rewrite decide_True by done. rewrite Hgi.
    cbn [mbind result_bind]. case_decide as Heq; [|done].
    apply (f_equal head) in Heq. simpl in Heq. by injection Heq.
Qed.
End portuguese_facts.

(** * The model at work *)

(** The example of the classic presentation of the algorithm. *)
Example search_simple_example :
  search (chars "HERE IS A SIMPLE EXAMPLE") (chars "EXAMPLE") = Ret 17%Z.
Proof. by vm_compute. Qed.

Example make_offset_table_example :
  make_offset_table (chars "EXAMPLE") = Ret [1; 7; 8; 9; 10; 11; 12]%Z.
Proof. by vm_compute. Qed.

Example search_needle_longer : search (chars "AB") (chars "ABCD") = Ret (-1)%Z.
Proof. by vm_compute. Qed.

(** A rule that other rules extend: the partial [("b","c")] ends the first
    rule, and the two longer rules supply the continuations. *)
Example find_partial_expression_continuations :
  find_partial_expression
    (build [(["a"; "b"; "c"], ["y"]);
            (["a"; "b"; "c"; "d"; "e"], ["y"]);
            (["a"; "b"; "c"; "f"], ["z"])]%string)
    ["b"; "c"]%string
  = Ret [(["a"], ["d"; "e"]); (["a"], ["f"])]%string.
Proof. by vm_compute. Qed.

(** Inserting the same rule twice changes nothing; a second right-hand
    side joins the first. *)
Example add_twice :
  get_rhs (build [(["a"; "b"], ["x"]); (["a"; "b"], ["x"]); (["a"; "b"], ["y"])]%string)
    (KSeq ["a"; "b"]%string)
  = Ret {[ ["x"]%string; ["y"]%string ]}.
Proof. by vm_compute. Qed.

(** The store after two calls of [add] on a new object, and the value
    that it represents. *)
Example store_example_built :
  (self ← Store.new_dict;
   Store.add self ["a"; "b"; "c"]%string ["y"]%string;;
   Store.add self ["a"; "b"]%string ["x"]%string;;
   mret self) [] = (Store.Returns 1, Store.example_store).
Proof. by vm_compute. Qed.

Example store_example_repr :
  Store.repr Store.example_store 1
    (build [(["a"; "b"; "c"], ["y"]); (["a"; "b"], ["x"])]%string).
Proof.
  assert (∀ (h : Store.heap) ix a,
            h !! a = Some (Store.ODict [] ix) → h !! ix = Some (Store.OIndex ∅) →
            Store.repr h a new_dict) as Hleaf.
  { intros h ix a Ha Hix.
    apply (Store.repr_intro h a [] ix ∅); [done|done|done|constructor|constructor]. }
  replace (build [(["a"; "b"; "c"], ["y"]); (["a"; "b"], ["x"])]%string)
    with (TDict
            [("a"%string,
              (∅, TDict
                    [("b"%string,
                      ({[ ["x"%string] ]},
                       TDict [("c"%string, ({[ ["y"%string] ]}, new_dict))] ∅))]
                    ∅))]
            {[ "b"%string := {[ (["a"%string], ["c"%string]) ]} ]})
    by (by vm_compute).
  apply (Store.repr_intro _ 1 [("a"%string, (2, 4))] 0 {[ "b"%string := 8 ]});
    [done|done| |by apply NoDup_singleton|].
  - intros token. destruct (decide (token = "b"%string)) as [->|Hne].
    + rewrite !lookup_singleton_eq. by eexists.
    + by rewrite !lookup_singleton_ne.
  - repeat constructor; simpl.
    apply (Store.repr_intro _ 4 [("b"%string, (5, 7))] 3 ∅);
      [done|done|done|by apply NoDup_singleton|].
    repeat constructor; simpl.
    apply (Store.repr_intro _ 7 [("c"%string, (9, 11))] 6 ∅);
      [done|done|done|by apply NoDup_singleton|].
    repeat constructor; simpl. by apply (Hleaf _ 10).
Qed.

(** A lookup that leaves the trie creates an empty set and a new
    dictionary, and touches nothing else; [add] updates a rule set in
    place. *)
Example store_lookup_missing_path :
  Store.get_rhs 1 (KSeq ["a"; "z"]%string) Store.example_store =
    (Store.Returns 12,
     Store.example_store ++
       [Store.OSet ∅; Store.OIndex ∅; Store.ODict [] 13]).
Proof. by vm_compute. Qed.

Example store_add_in_place :
  Store.example_store !! 5 = Some (Store.OSet {[ ["x"%string] ]}) ∧
  (Store.add 1 ["a"; "b"]%string ["z"]%string Store.example_store).2 !! 5
    = Some (Store.OSet {[ ["x"%string]; ["z"%string] ]}).
Proof. by vm_compute. Qed.

(** * The claims about the rule trie *)

(** C1. Round trip of insertion and exact lookup: for every non-empty
    token sequence [lhs] and every [rhs], after [add(lhs, rhs)] on any
    [TransformationDict], [get_rhs(lhs)] returns a set that contains
    [rhs]; and on a new [TransformationDict], after
    [add(("a","b"), ("x",))], [get_rhs(("a","b"))] returns exactly the
    one-element set [{("x",)}]. *)
Theorem add_get_rhs_round_trip (self : TransformationDict) (lhs rhs : list string) :
  lhs ≠ [] →
  (∃ rs, get_rhs (add self lhs rhs) (KSeq lhs) = Ret rs ∧ rhs ∈ rs) ∧
  get_rhs (add new_dict ["a"; "b"]%string ["x"]%string) (KSeq ["a"; "b"]%string)
    = Ret {[ ["x"]%string ]}.
Proof.
  intros Hne. split; [|by vm_compute].
  unfold get_rhs. rewrite getitem_add_seq by done.
  destruct (add_loop_getitem lhs rhs lhs Hne 0%Z self (index self) None)
    as (rs & sub & Hget & Hin).
  exists rs. split; [|done]. simpl. by rewrite Hget.
Qed.

Lemma add_get_rhs_round_trip_witness :
  ["a"; "b"; "c"]%string ≠ [] ∧
  (∃ rs, get_rhs (add new_dict ["a"; "b"; "c"]%string ["y"]%string)
           (KSeq ["a"; "b"; "c"]%string) = Ret rs ∧ ["y"]%string ∈ rs) ∧
  get_rhs (add new_dict ["a"; "b"]%string ["x"]%string) (KSeq ["a"; "b"]%string)
    = Ret {[ ["x"]%string ]}.
Proof.
  split; [discriminate|].
  apply (add_get_rhs_round_trip new_dict ["a"; "b"; "c"]%string ["y"]%string).
  discriminate.
Defined.

(** C2. The test case of the partial match, evaluated on the code: after
    [add(("a","b","c"), ("y",))] on a new [TransformationDict],
    [find_partial_expression(("b",))] returns the empty list, so no
    result with head [("a",)] and continuation ["c"] is returned. *)
Theorem find_partial_expression_interior_token :
  find_partial_expression
    (add new_dict ["a"; "b"; "c"]%string ["y"]%string) ["b"]%string = Ret [].
Proof. by vm_compute. Qed.



(** C4. Absence is not silent for the empty sequence: on every
    [TransformationDict], [get_rhs(())] raises [UnboundLocalError]
    (the loop of [__getitem__] never binds [rule_set]). *)
Theorem get_rhs_empty_sequence_raises (self : TransformationDict) :
  get_rhs self (KSeq []) = Raise UnboundLocalError.
Proof. done. Qed.

(** C6. Content of the middle-token index: after [add(lhs, rhs)] the
    entries under a token are those present before together with one pair
    [(lhs[:i], lhs[i+1:])] for each strictly interior position [i] of
    [lhs] that holds the token; a token at no interior position keeps its
    entry of the index as it was. *)
Theorem add_index_content (self : TransformationDict) (lhs rhs : list string) :
  (∀ token (pair : list string * list string),
     pair ∈ index_entries (add self lhs rhs) token ↔
       pair ∈ index_entries self token ∨
       ∃ i : nat, 0 < i < length lhs - 1 ∧ lhs !! i = Some token ∧
         pair = (take i lhs, drop (S i) lhs)) ∧
  (∀ token,
     (∀ i : nat, 0 < i < length lhs - 1 → lhs !! i ≠ Some token) →
     index (add self lhs rhs) !! token = index self !! token).
Proof.
  split.
  - intros token pair. apply add_index_entries_iff.
  - intros token. apply add_index_other.
Qed.

(** C7. The candidate filter of [find_partial_expression] keeps a head
    exactly when its recorded [after] equals the sought tail; and on every
    built dictionary [find_partial_expression] of a single token returns
    the empty list. *)
Theorem partial_filter_exact :
  (∀ (entries : gset (list string * list string)) sought head,
     head ∈ lhs_heads_of entries sought ↔ (head, sought) ∈ entries) ∧
  (∀ rules token, find_partial_expression (build rules) [token] = Ret []).
Proof.
  split.
  - apply elem_of_lhs_heads_of.
  - apply find_partial_expression_single.
Qed.

(** C8. Monotone accumulation: whenever [get_rhs(l)] returns a set
    before a call [add(lhs, rhs)], it returns a superset of it after the
    call. *)
Theorem add_get_rhs_monotone (self : TransformationDict)
    (lhs rhs : list string) (l : key) (rs : RuleSet) :
  get_rhs self l = Ret rs →
  ∃ rs', get_rhs (add self lhs rhs) l = Ret rs' ∧ rs ⊆ rs'.
Proof. apply get_rhs_add_mono. Qed.

Lemma add_get_rhs_monotone_witness :
  get_rhs (add new_dict ["a"; "b"]%string ["x"]%string) (KSeq ["a"; "b"]%string)
    = Ret {[ ["x"]%string ]} ∧
  ∃ rs',
    get_rhs (add (add new_dict ["a"; "b"]%string ["x"]%string)
               ["a"; "b"]%string ["y"]%string) (KSeq ["a"; "b"]%string) = Ret rs' ∧
    {[ ["x"]%string ]} ⊆ rs'.
Proof.
  split; [by vm_compute|].
  apply (add_get_rhs_monotone (add new_dict ["a"; "b"]%string ["x"]%string)
           ["a"; "b"]%string ["y"]%string (KSeq ["a"; "b"]%string)).
  by vm_compute.
Defined.

(** C9. Queries are read-only. In the store of the objects, whatever
    the store, the object and the argument, and whether the call returns
    or raises, a call of [__getitem__], [get_rhs], [get_subdict] or
    [find_partial_expression] leaves a store that starts with the store
    it was called in: every object that existed before the call, the
    dictionaries of the trie, their rule sets, the index and its sets,
    is the same after it, and the call has only created objects (the
    empty set and the new dictionary that a lookup returns for a path
    that was never inserted). For [find_partial_expression] this holds
    for every bound on the depth of its recursion. *)
Theorem queries_read_only (h : Store.heap) (self : Store.addr) :
  (∀ lhs, h `prefix_of` (Store.__getitem__ self lhs h).2) ∧
  (∀ lhs, h `prefix_of` (Store.get_rhs self lhs h).2) ∧
  (∀ lhs, h `prefix_of` (Store.get_subdict self lhs h).2) ∧
  (∀ partial, h `prefix_of` (Store.find_partial_expression self partial h).2) ∧
  (∀ fuel partial,
     h `prefix_of` (Store.find_partial_expression_fuel fuel self partial h).2) ∧
  (∀ (a : Store.addr) (o : Store.object),
     h !! a = Some o →
     (∀ lhs, (Store.__getitem__ self lhs h).2 !! a = Some o) ∧
     (∀ lhs, (Store.get_rhs self lhs h).2 !! a = Some o) ∧
     (∀ lhs, (Store.get_subdict self lhs h).2 !! a = Some o) ∧
     (∀ partial, (Store.find_partial_expression self partial h).2 !! a = Some o)).
Proof.
  split_and!.
  - intros lhs. apply extends_getitem.
  - intros lhs. apply extends_get_rhs.
  - intros lhs. apply extends_get_subdict.
  - intros partial. apply extends_find_partial_expression.
  - intros fuel partial. apply extends_find_partial_expression_fuel.
  - intros a o Ha. split_and!; intros arg;
      (eapply prefix_lookup_Some; [exact Ha|]).
    + apply extends_getitem.
    + apply extends_get_rhs.
    + apply extends_get_subdict.
    + apply extends_find_partial_expression.
Qed.

(** * The claims about the search *)

(** C5. Boyer-Moore search is correct: for every haystack and needle
    [search] returns the position of the leftmost occurrence of the needle
    as a contiguous subsequence of the haystack, and [-1] when it does not
    occur; an empty needle gives [0]; a needle longer than the haystack
    gives [-1]; [search("ABCABD", "ABD")] is [3] and
    [search("AAAAAAAA", "AAAA")] is [0]. *)
Theorem search_finds_leftmost_occurrence {A : Type} `{Countable A}
    (haystack needle : list A) :
  (∃ r, search haystack needle = Ret r ∧ leftmost_occurrence haystack needle r) ∧
  search haystack [] = Ret 0%Z ∧
  (length haystack < length needle → search haystack needle = Ret (-1)%Z) ∧
  search (chars "ABCABD") (chars "ABD") = Ret 3%Z ∧
  search (chars "AAAAAAAA") (chars "AAAA") = Ret 0%Z.
Proof.
  split_and!; [| done | | by vm_compute..].
  - apply search_fuel_spec. lia.
  - intros Hlen.
    destruct (search_fuel_spec haystack needle (S (length haystack + length needle)))
      as (r & Hr & [[-> _]|(_ & Hocc & _)]); [lia|done|].
    apply occurs_at_fits in Hocc; [lia|]. intros ->. simpl in Hlen. lia.
Qed.

(** C10. Every operation terminates: [search] returns whatever fuel
    beyond the lengths of its arguments the loops are given, every entry
    [t] of the offset table is larger than [t], hence positive, so that
    each mismatch moves the needle forward, and
    [find_partial_expression], a structural recursion over the trie,
    returns or raises, and returns on a built dictionary for a non-empty
    partial. *)
Theorem operations_terminate {A : Type} `{Countable A}
    (haystack needle : list A)
    (self : TransformationDict) (partial : list string) :
  (∃ r, search haystack needle = Ret r ∧
        ∀ fuel, length haystack + length needle < fuel →
                search_fuel fuel haystack needle = Ret r) ∧
  (∃ table, make_offset_table needle = Ret table ∧
            length table = length needle ∧
            ∀ (t : nat) (o : Z), table !! t = Some o → (Z.of_nat t < o)%Z) ∧
  find_partial_expression self partial ≠ OutOfFuel ∧
  (∀ rules first_token sought_lhs_tail, ∃ contexts,
     find_partial_expression (build rules) (first_token :: sought_lhs_tail)
       = Ret contexts).
Proof.
  split_and!.
  - destruct (search_fuel_spec haystack needle (S (length haystack + length needle)))
      as (r & Hr & Hleft); [lia|].
    exists r. split; [done|]. intros fuel Hfuel.
    destruct (search_fuel_spec haystack needle fuel Hfuel) as (r' & -> & Hleft').
    f_equal. by eapply leftmost_occurrence_unique.
  - destruct (make_offset_table_spec needle) as (table & Htable & Hlen & Hentries).
    exists table. split_and!; [done..|]. intros t o Hto.
    destruct (Hentries t) as (d & Hd & Hd1 & _).
    { apply lookup_lt_Some in Hto. lia. }
    rewrite Hd in Hto. injection Hto as <-. lia.
  - apply find_partial_expression_outcome.
  - intros rules first_token sought_lhs_tail.
    destruct (find_partial_expression_build rules first_token sought_lhs_tail)
      as (contexts & Hret & _).
    by exists contexts.
Qed.

(** * Further properties of the rule trie *)

(** X1. [add] changes one lookup and no other: for every
    [TransformationDict], every rule [(lhs, rhs)] and every non-empty
    sequence [l], [get_rhs(l)] returns a set before and after
    [add(lhs, rhs)]; after the call it is the set of before with [rhs]
    added when [l] is [lhs], and the same set otherwise. *)
Theorem add_updates_one_lookup (self : TransformationDict)
    (lhs rhs : list string) (token : string) (path : list string) :
  ∃ rs, get_rhs self (KSeq (token :: path)) = Ret rs ∧
        get_rhs (add self lhs rhs) (KSeq (token :: path)) =
          Ret (if decide (token :: path = lhs) then rs ∪ {[rhs]} else rs).
Proof. apply get_rhs_add_update. Qed.

(** X2. Exact lookup on a built dictionary: after any sequence of [add]
    calls on a new [TransformationDict], [get_rhs] of a non-empty
    sequence [l] returns exactly the right-hand sides of the rules
    inserted with the left-hand side [l]. *)
Theorem build_get_rhs_exact (rules : list (list string * list string))
    (token : string) (path : list string) :
  ∃ rs, get_rhs (build rules) (KSeq (token :: path)) = Ret rs ∧
        ∀ rhs, rhs ∈ rs ↔ (token :: path, rhs) ∈ rules.
Proof. by apply get_rhs_build. Qed.

(** X3. What [get_rhs] returns does not depend on the order of the [add]
    calls nor on a rule being inserted more than once: two lists of rules
    with the same set of rules give dictionaries on which every call of
    [get_rhs] has the same outcome. *)
Theorem build_get_rhs_order_irrelevant
    (rules rules' : list (list string * list string)) (l : key) :
  (list_to_set rules : gset (list string * list string)) = list_to_set rules' →
  get_rhs (build rules) l = get_rhs (build rules') l.
Proof. apply get_rhs_build_set. Qed.

Lemma build_get_rhs_order_irrelevant_witness :
  (list_to_set [(["a"; "b"], ["x"]); (["c"], ["y"]); (["a"; "b"], ["x"])]%string
     : gset (list string * list string))
    = list_to_set [(["c"], ["y"]); (["a"; "b"], ["x"])]%string ∧
  get_rhs (build [(["a"; "b"], ["x"]); (["c"], ["y"]); (["a"; "b"], ["x"])]%string)
    (KSeq ["a"; "b"]%string)
  = get_rhs (build [(["c"], ["y"]); (["a"; "b"], ["x"])]%string)
      (KSeq ["a"; "b"]%string).
Proof.
  assert ((list_to_set [(["a"; "b"], ["x"]); (["c"], ["y"]); (["a"; "b"], ["x"])]%string
             : gset (list string * list string))
          = list_to_set [(["c"], ["y"]); (["a"; "b"], ["x"])]%string) as Hset
    by (apply (bool_decide_unpack _); by vm_compute).
  split; [exact Hset|].
  exact (build_get_rhs_order_irrelevant _ _ (KSeq ["a"; "b"]%string) Hset).
Defined.

(** X4. A token used as a key is looked up as the one-token sequence:
    [self[token]], [get_rhs(token)] and [get_subdict(token)] have the
    outcome of the same call on the tuple [(token,)]. *)
Theorem token_key_is_one_token_sequence (self : TransformationDict)
    (token : string) :
  __getitem__ self (KToken token) = __getitem__ self (KSeq [token]) ∧
  get_rhs self (KToken token) = get_rhs self (KSeq [token]) ∧
  get_subdict self (KToken token) = get_subdict self (KSeq [token]).
Proof.
  split_and!; [apply getitem_token_loop|apply get_rhs_token|].
  unfold get_subdict. by rewrite getitem_token_loop.
Qed.

(** X5. A lookup that leaves the trie answers with the empty pair: when
    the dictionary reached along [path] has no key [token], then for
    every continuation [path'] the call [self[path + (token,) + path']]
    returns the empty set with a new dictionary, and [get_rhs] of that
    sequence returns the empty set. *)
Theorem lookup_past_missing_token (self : TransformationDict)
    (path : list string) (token : string) (path' : list string) :
  dict_lookup (subdict_at self path) token = None →
  __getitem__ self (KSeq (path ++ token :: path')) = Ret (∅, new_dict) ∧
  get_rhs self (KSeq (path ++ token :: path')) = Ret ∅.
Proof.
  intros Hnone. pose proof (getitem_missing self path token path' Hnone) as Hget.
  split; [done|]. unfold get_rhs. by rewrite Hget.
Qed.

Lemma lookup_past_missing_token_witness :
  dict_lookup
    (subdict_at (add new_dict ["a"; "b"]%string ["x"]%string) ["a"]%string)
    "c"%string = None ∧
  __getitem__ (add new_dict ["a"; "b"]%string ["x"]%string)
    (KSeq (["a"]%string ++ "c"%string :: ["d"]%string)) = Ret (∅, new_dict) ∧
  get_rhs (add new_dict ["a"; "b"]%string ["x"]%string)
    (KSeq (["a"]%string ++ "c"%string :: ["d"]%string)) = Ret ∅.
Proof.
  split; [by vm_compute|].
  apply (lookup_past_missing_token (add new_dict ["a"; "b"]%string ["x"]%string)
           ["a"]%string "c"%string ["d"]%string).
  by vm_compute.
Defined.

(** X6. [get_subdict] composes with the lookups: for a non-empty sequence
    [l], [get_subdict(l)] returns a dictionary [sub], and [get_rhs] of a
    non-empty sequence [l'] on [sub] has the outcome of [get_rhs] of
    [l + l'] on the object itself. *)
Theorem get_subdict_then_get_rhs (self : TransformationDict)
    (first : string) (path : list string) :
  ∃ sub, get_subdict self (KSeq (first :: path)) = Ret sub ∧
         ∀ token path',
           get_rhs sub (KSeq (token :: path')) =
           get_rhs self (KSeq ((first :: path) ++ token :: path')).
Proof.
  exists (subdict_at self (first :: path)). split.
  - unfold get_subdict.
    by destruct (getitem_seq_returns self first path) as [rs ->].
  - intros token path'. apply get_rhs_subdict_at.
Qed.

(** X7. The index holds inserted rules only: on a built dictionary, a
    pair [(before, after)] recorded under a token has a non-empty [before]
    and a non-empty [after], the sequence [before + (token,) + after] is
    the left-hand side of an inserted rule, and [get_rhs] of it returns a
    non-empty set. *)
Theorem index_entry_is_inserted_rule (rules : list (list string * list string))
    (token : string) (before after : list string) :
  (before, after) ∈ index_entries (build rules) token →
  before ≠ [] ∧ after ≠ [] ∧
  before ++ token :: after ∈ rules.*1 ∧
  ∃ rs, get_rhs (build rules) (KSeq (before ++ token :: after)) = Ret rs ∧ rs ≠ ∅.
Proof. apply build_index_consistent. Qed.

Lemma index_entry_is_inserted_rule_witness :
  (["a"], ["c"; "d"])%string
    ∈ index_entries (build [(["a"; "b"; "c"; "d"], ["y"])]%string) "b"%string ∧
  (["a"]%string ≠ [] ∧ ["c"; "d"]%string ≠ [] ∧
   ["a"]%string ++ "b"%string :: ["c"; "d"]%string
     ∈ [(["a"; "b"; "c"; "d"], ["y"])]%string.*1 ∧
   ∃ rs, get_rhs (build [(["a"; "b"; "c"; "d"], ["y"])]%string)
           (KSeq (["a"]%string ++ "b"%string :: ["c"; "d"]%string)) = Ret rs ∧
         rs ≠ ∅).
Proof.
  assert ((["a"], ["c"; "d"])%string
            ∈ index_entries (build [(["a"; "b"; "c"; "d"], ["y"])]%string) "b"%string)
    as Hin by (apply (bool_decide_unpack _); by vm_compute).
  split; [exact Hin|].
  exact (index_entry_is_inserted_rule _ _ _ _ Hin).
Defined.

(** X8. On a built dictionary [find_all_paths] lists, without repetition,
    the inserted left-hand sides that no other inserted left-hand side
    continues. *)
Theorem find_all_paths_lists_maximal_lhs
    (rules : list (list string * list string)) :
  NoDup (find_all_paths (build rules)) ∧
  ∀ path,
    path ∈ find_all_paths (build rules) ↔
      path ≠ [] ∧ path ∈ rules.*1 ∧
      ∀ lhs, lhs ∈ rules.*1 → path `prefix_of` lhs → lhs = path.
Proof.
  split.
  - apply NoDup_find_all_paths, build_distinct.
  - intros path. rewrite elem_of_find_all_paths. apply build_leaf_path.
Qed.

(** X9. The result of [find_partial_expression] in terms of the rules: on
    a built dictionary, for a partial [(first,) + tail], the list returned
    has no repetition and holds the pair [(head, path)] exactly when
    [head], [tail] and [path] are non-empty, [head + partial] is an
    inserted left-hand side, and [head + partial + path] is an inserted
    left-hand side that no other one continues. *)
Theorem find_partial_expression_by_rules
    (rules : list (list string * list string))
    (first_token : string) (sought_lhs_tail : list string) :
  ∃ contexts,
    find_partial_expression (build rules) (first_token :: sought_lhs_tail)
      = Ret contexts ∧
    NoDup contexts ∧
    ∀ head path,
      (head, path) ∈ contexts ↔
        head ≠ [] ∧ sought_lhs_tail ≠ [] ∧ path ≠ [] ∧
        head ++ first_token :: sought_lhs_tail ∈ rules.*1 ∧
        (head ++ first_token :: sought_lhs_tail) ++ path ∈ rules.*1 ∧
        ∀ lhs, lhs ∈ rules.*1 →
               (head ++ first_token :: sought_lhs_tail) ++ path `prefix_of` lhs →
               lhs = (head ++ first_token :: sought_lhs_tail) ++ path.
Proof. apply find_partial_expression_rules. Qed.

(** X10. [add] is idempotent: a second [add(lhs, rhs)] with the same
    arguments leaves the whole object, trie and index, as the first call
    left it. *)
Theorem add_idempotent (self : TransformationDict) (lhs rhs : list string) :
  add (add self lhs rhs) lhs rhs = add self lhs rhs.
Proof. apply add_twice_same. Qed.

(** * Further properties of the search tables *)

(** X11. [is_prefix(needle, p)] decides whether [needle[p:]] is a prefix
    of [needle]: for every [p >= 0] it returns [0] or [1], and [1]
    exactly when it is one. *)
Theorem is_prefix_decides_prefix {A : Type} `{Countable A}
    (needle : list A) (p : nat) :
  ∃ r, is_prefix needle (Z.of_nat p) = Ret r ∧
       (r = 0%Z ∨ r = 1%Z) ∧
       (r = 1%Z ↔ drop p needle `prefix_of` needle).
Proof. apply is_prefix_full. Qed.

(** X12. [suffix_length(needle, p)], for a position [p] of the needle,
    returns the length of the longest part of [needle[:p+1]] ending at
    [p] that is a suffix of the needle. *)
Theorem suffix_length_longest_suffix {A : Type} `{Countable A}
    (needle : list A) (p : nat) :
  p < length needle →
  ∃ s : nat,
    suffix_length needle (Z.of_nat p) = Ret (Z.of_nat s) ∧
    s ≤ S p ∧
    drop (S p - s) (take (S p) needle) `suffix_of` needle ∧
    ∀ s', s' ≤ S p →
          drop (S p - s') (take (S p) needle) `suffix_of` needle → s' ≤ s.
Proof. apply suffix_length_full. Qed.

Lemma suffix_length_longest_suffix_witness :
  2 < length (chars "abcab") ∧
  ∃ s : nat,
    suffix_length (chars "abcab") (Z.of_nat 2) = Ret (Z.of_nat s) ∧
    s ≤ 3 ∧
    drop (3 - s) (take 3 (chars "abcab")) `suffix_of` chars "abcab" ∧
    ∀ s', s' ≤ 3 →
          drop (3 - s') (take 3 (chars "abcab")) `suffix_of` chars "abcab" →
          s' ≤ s.
Proof.
  split; [simpl; lia|].
  apply (suffix_length_longest_suffix (chars "abcab") 2). simpl. lia.
Defined.

(** X13. [suffix_length(needle, p)] raises [IndexError] for every [p] at
    or beyond the length of the needle. *)
Theorem suffix_length_beyond_needle_raises {A : Type} `{Countable A}
    (needle : list A) (p : nat) :
  length needle ≤ p → suffix_length needle (Z.of_nat p) = Raise IndexError.
Proof. apply suffix_length_out_of_range. Qed.

Lemma suffix_length_beyond_needle_raises_witness :
  length (chars "ab") ≤ 2 ∧
  suffix_length (chars "ab") (Z.of_nat 2) = Raise IndexError.
Proof.
  split; [simpl; lia|].
  apply (suffix_length_beyond_needle_raises (chars "ab") 2). simpl. lia.
Defined.

(** X14. The character table, entry by entry: [make_char_table(needle)]
    returns a table whose keys are the symbols of the needle without its
    last position, each mapped to the distance from its last such
    position to the end of the needle. *)
Theorem make_char_table_entries {A : Type} `{Countable A} (needle : list A) :
  ∃ table,
    make_char_table needle = Ret table ∧
    ∀ c v,
      table !! c = Some v ↔
        ∃ k, k < length needle - 1 ∧ needle !! k = Some c ∧
             v = Z.of_nat (length needle - 1 - k) ∧
             ∀ k', k < k' < length needle - 1 → needle !! k' ≠ Some c.
Proof. apply make_char_table_full. Qed.

(** X15. The shift read from the offset table skips no occurrence: when
    the needle, ending at position [e] of the haystack, agrees with it on
    its last [t] symbols and not on the next one, the entry [t] of
    [make_offset_table(needle)] is [t + d] with [d >= 1], and the needle
    occurs at none of the [d] positions from the present one on. *)
Theorem offset_table_shift_skips_no_occurrence {A : Type} `{Countable A}
    (needle haystack : list A) (e t : nat) :
  t < length needle → length needle - 1 ≤ e →
  (∀ k, k < t → haystack !! (e - k) = needle !! (length needle - 1 - k)) →
  haystack !! (e - t) ≠ needle !! (length needle - 1 - t) →
  ∃ table (d : nat),
    make_offset_table needle = Ret table ∧
    table !! t = Some (Z.of_nat (t + d)) ∧ 1 ≤ d ∧
    ∀ s, e - (length needle - 1) ≤ s < e - (length needle - 1) + d →
         ¬ occurs_at haystack needle s.
Proof. apply offset_shift_sound. Qed.

Lemma offset_table_shift_skips_no_occurrence_witness :
  ∃ table (d : nat),
    make_offset_table (chars "ab") = Ret table ∧
    table !! 1 = Some (Z.of_nat (1 + d)) ∧ 1 ≤ d ∧
    ∀ s, 1 - (length (chars "ab") - 1) ≤ s < 1 - (length (chars "ab") - 1) + d →
         ¬ occurs_at (chars "cbab") (chars "ab") s.
Proof.
  apply (offset_table_shift_skips_no_occurrence (chars "ab") (chars "cbab") 1 1).
  - simpl. lia.
  - simpl. lia.
  - intros k Hk. by replace k with 0 by lia.
  - done.
Defined.

(** X16. The shift read from the character table skips no occurrence:
    when the needle, ending at position [e] of the haystack, fails at the
    haystack symbol [c] after [t] symbols compared, and
    [make_char_table(needle)] holds [v] for [c], then [1 <= v < len(needle)]
    and the needle occurs at no position from the present one on whose
    last symbol would lie before position [e - t + v]. *)
Theorem char_table_shift_skips_no_occurrence {A : Type} `{Countable A}
    (needle haystack : list A) (e t : nat) (c : A) :
  t < length needle → length needle - 1 ≤ e →
  haystack !! (e - t) = Some c →
  haystack !! (e - t) ≠ needle !! (length needle - 1 - t) →
  ∃ table,
    make_char_table needle = Ret table ∧
    ∀ v, table !! c = Some v →
      (1 ≤ v ≤ Z.of_nat (length needle) - 1)%Z ∧
      ∀ s : nat, e - (length needle - 1) ≤ s →
                 (Z.of_nat s + Z.of_nat (length needle) - 1 < Z.of_nat (e - t) + v)%Z →
                 ¬ occurs_at haystack needle s.
Proof. apply char_shift_sound. Qed.

Lemma char_table_shift_skips_no_occurrence_witness :
  ∃ table,
    make_char_table (chars "abc") = Ret table ∧
    ∀ v, table !! Ascii.ascii_of_nat 97 = Some v →
      (1 ≤ v ≤ Z.of_nat (length (chars "abc")) - 1)%Z ∧
      ∀ s : nat, 2 - (length (chars "abc") - 1) ≤ s →
                 (Z.of_nat s + Z.of_nat (length (chars "abc")) - 1
                  < Z.of_nat (2 - 0) + v)%Z →
                 ¬ occurs_at (chars "xxabc") (chars "abc") s.
Proof.
  apply (char_table_shift_skips_no_occurrence (chars "abc") (chars "xxabc") 2 0
           (Ascii.ascii_of_nat 97)).
  - simpl. lia.
  - simpl. lia.
  - done.
  - done.
Defined.

(** X17. The result of [search] cuts the haystack: [search] returns [-1]
    when the haystack is [pre + needle + post] for no [pre] and [post];
    otherwise it returns [r] with [0 <= r <= len(haystack) - len(needle)],
    the haystack is [haystack[:r] + needle + post] for some [post], and
    no cut has a shorter [pre]; a haystack that starts with the needle
    gives [0]. *)
Theorem search_result_cuts_haystack {A : Type} `{Countable A}
    (haystack needle : list A) :
  (∃ r,
     search haystack needle = Ret r ∧
     ((r = (-1)%Z ∧ ∀ pre post, haystack ≠ pre ++ needle ++ post) ∨
      ((0 ≤ r ≤ len haystack - len needle)%Z ∧
       (∃ post, haystack = take (Z.to_nat r) haystack ++ needle ++ post) ∧
       ∀ pre post, haystack = pre ++ needle ++ post → Z.to_nat r ≤ length pre))) ∧
  (∀ post, search (needle ++ post) needle = Ret 0%Z).
Proof. split; [apply search_cut|apply search_starts_with]. Qed.

(** * The filters for Portuguese *)

(** X18. What [remove_comma_and_article] returns: for a non-empty
    expression it returns a contiguous part of it; what is cut off before
    the part are articles and commas only, what is cut off after it is
    nothing or one comma; when the expression has two tokens or more, the
    part does not start with an article or a comma; and an expression of
    one token is returned as it is. *)
Theorem remove_comma_and_article_result (expression : list string) :
  expression ≠ [] →
  ∃ result pre post,
    remove_comma_and_article expression = Ret result ∧
    expression = pre ++ result ++ post ∧
    Forall stop_word pre ∧ (post = [] ∨ post = [","%string]) ∧
    (2 ≤ length expression → ∀ first, head result = Some first → ¬ stop_word first) ∧
    (length expression = 1 → result = expression).
Proof.
  intros Hne.
  destruct (remove_comma_and_article_shape expression Hne)
    as (result & pre & post & Hret & Hcut & Hpre & Hpost & Hhead).
  exists result, pre, post. split_and!; try done.
  intros Hlen. destruct expression as [|token [|]]; try done.
  change (Ret [token] = Ret result) in Hret. by injection Hret.
Qed.

Lemma remove_comma_and_article_result_witness :
  ∃ result pre post,
    remove_comma_and_article ["o"; ","; "gato"; "preto"; ","]%string = Ret result ∧
    ["o"; ","; "gato"; "preto"; ","]%string = pre ++ result ++ post ∧
    Forall stop_word pre ∧ (post = [] ∨ post = [","%string]) ∧
    (2 ≤ length ["o"; ","; "gato"; "preto"; ","]%string →
     ∀ first, head result = Some first → ¬ stop_word first) ∧
    (length ["o"; ","; "gato"; "preto"; ","]%string = 1 →
     result = ["o"; ","; "gato"; "preto"; ","]%string).
Proof.
  apply (remove_comma_and_article_result ["o"; ","; "gato"; "preto"; ","]%string).
  done.
Defined.

(** X19. [remove_comma_and_article] raises [IndexError] on the empty
    expression, and on no other. *)
Theorem remove_comma_and_article_raises_on_empty (expression : list string) :
  remove_comma_and_article expression = Raise IndexError ↔ expression = [].
Proof. apply remove_comma_and_article_raises. Qed.

(** X20. [_is_trivial_paraphrase] returns a boolean, and raises nothing,
    on two non-empty expressions whose tokens are non-empty strings. *)
Theorem is_trivial_paraphrase_returns_bool (exp1 exp2 : list string) :
  exp1 ≠ [] → exp2 ≠ [] →
  Forall (λ w, w ≠ ""%string) exp1 → Forall (λ w, w ≠ ""%string) exp2 →
  ∃ b, _is_trivial_paraphrase exp1 exp2 = Ret b.
Proof. apply is_trivial_paraphrase_returns. Qed.

Lemma is_trivial_paraphrase_returns_bool_witness :
  ∃ b, _is_trivial_paraphrase ["casa"; "azul"]%string ["de"; "casas"]%string = Ret b.
Proof.
  apply (is_trivial_paraphrase_returns_bool
           ["casa"; "azul"]%string ["de"; "casas"]%string).
  - done.
  - done.
  - by repeat constructor.
  - by repeat constructor.
Defined.

(** X21. An expression is a trivial paraphrase of itself:
    [_is_trivial_paraphrase(exp, exp)] is [True] for every non-empty
    expression of non-empty tokens. *)
Theorem is_trivial_paraphrase_reflexive (exp : list string) :
  exp ≠ [] → Forall (λ w, w ≠ ""%string) exp →
  _is_trivial_paraphrase exp exp = Ret true.
Proof. apply is_trivial_paraphrase_refl. Qed.

Lemma is_trivial_paraphrase_reflexive_witness :
  _is_trivial_paraphrase ["poder"; "legislativo"]%string
    ["poder"; "legislativo"]%string = Ret true.
Proof.
  apply (is_trivial_paraphrase_reflexive ["poder"; "legislativo"]%string).
  - done.
  - by repeat constructor.
Defined.

(** X22. Gender and number: [strip_suffix] takes each of the endings
    ["o"], ["a"], ["os"], ["as"] off a word, and two one-word expressions
    made of one stem and two of these endings are trivial paraphrases. *)
Theorem is_trivial_paraphrase_gender_number (stem s1 s2 : string) :
  s1 ∈ endings → s2 ∈ endings →
  strip_suffix (stem +:+ s1) = Ret stem ∧
  _is_trivial_paraphrase [stem +:+ s1] [stem +:+ s2] = Ret true.
Proof.
  intros Hs1 Hs2. split.
  - by apply strip_suffix_ending.
  - by apply is_trivial_paraphrase_endings.
Qed.

Lemma is_trivial_paraphrase_gender_number_witness :
  strip_suffix ("menin" +:+ "as")%string = Ret "menin"%string ∧
  _is_trivial_paraphrase ["menin" +:+ "as"]%string ["menin" +:+ "o"]%string
    = Ret true.
Proof.
  apply (is_trivial_paraphrase_gender_number "menin" "as" "o")%string.
  - apply (bool_decide_unpack _). by vm_compute.
  - apply (bool_decide_unpack _). by vm_compute.
Defined.

(** X23. The plural in ["is"] of a word in ["l"] is recognised in one
    direction only: for every stem, [(stem + "l",)] followed by
    [(stem + "is",)] gives [True], and the two in the other order give
    [False]. *)
Theorem is_trivial_paraphrase_plural_of_l (stem : string) :
  _is_trivial_paraphrase [stem +:+ "l"]%string [stem +:+ "is"]%string = Ret true ∧
  _is_trivial_paraphrase [stem +:+ "is"]%string [stem +:+ "l"]%string = Ret false.
Proof. apply is_trivial_paraphrase_plural. Qed.

(** X24. A heading preposition makes no difference: an expression of
    non-empty tokens that does not start with a preposition is a trivial
    paraphrase of itself preceded by a preposition. *)
Theorem is_trivial_paraphrase_heading_preposition
    (preposition first : string) (exp : list string) :
  preposition ∈ prepositions → first ∉ prepositions →
  Forall (λ w, w ≠ ""%string) (first :: exp) →
  _is_trivial_paraphrase (preposition :: first :: exp) (first :: exp) = Ret true.
Proof. apply is_trivial_paraphrase_heading. Qed.

Lemma is_trivial_paraphrase_heading_preposition_witness :
  _is_trivial_paraphrase ["em"; "casa"; "nova"]%string ["casa"; "nova"]%string
    = Ret true.
Proof.
  apply (is_trivial_paraphrase_heading_preposition "em" "casa" ["nova"]%string).
  - apply (bool_decide_unpack _). by vm_compute.
  - apply (bool_decide_unpack _). by vm_compute.
  - by repeat constructor.
Defined.

(** X25. An expression that is one preposition is a trivial paraphrase
    of every non-empty expression, on either side, whatever the tokens of
    the other expression are. *)
Theorem is_trivial_paraphrase_lone_preposition
    (preposition first : string) (exp : list string) :
  preposition ∈ prepositions →
  _is_trivial_paraphrase [preposition] (first :: exp) = Ret true ∧
  _is_trivial_paraphrase (first :: exp) [preposition] = Ret true.
Proof. apply is_trivial_paraphrase_preposition. Qed.

Lemma is_trivial_paraphrase_lone_preposition_witness :
  _is_trivial_paraphrase ["de"]%string ["poder"; "legislativo"]%string = Ret true ∧
  _is_trivial_paraphrase ["poder"; "legislativo"]%string ["de"]%string = Ret true.
Proof.
  apply (is_trivial_paraphrase_lone_preposition "de" "poder" ["legislativo"]%string).
  apply (bool_decide_unpack _). by vm_compute.
Defined.

(** X26. [_is_trivial_paraphrase] raises [IndexError] when one of the
    two expressions is empty. *)
Theorem is_trivial_paraphrase_empty_expression (exp : list string) :
  _is_trivial_paraphrase [] exp = Raise IndexError ∧
  _is_trivial_paraphrase exp [] = Raise IndexError.
Proof.
  destruct (is_trivial_paraphrase_empty exp) as [Hl Hr]. split; [done|].
  destruct exp as [|first exp]; [done|]. by apply Hr.
Qed.
